(** * paper-ecg: the digitisation core, embedded and verified

    A shallow embedding of the Python sources under
    [src/main/python]: [ecgdigitize/common.py], [ecgdigitize/otsu.py],
    [ecgdigitize/signal/extraction/viterbi.py],
    [ecgdigitize/signal/signal.py] and [Conversion.py].

    Conventions.
    - Python exceptions are explicit: every function that can raise
      returns a [result], and loops that Python writes as [while] carry
      a fuel argument whose exhaustion is the third outcome [OutOfFuel].
    - Python [int] is [Z].  IEEE doubles are idealised: values that the
      code obtains by sums, products and quotients are exact rationals
      extended with the two infinities and the not-a-number marker
      ([NpFloat.float]); values that go through [math.sqrt] and
      [math.asin] (the Viterbi transition cost) are real numbers.
      Rounding error is therefore outside the model, with one
      exception: where the code takes an integer from a quotient (the
      number of samples that a lead is padded with), the quotient and
      the values it is made of are binary64 numbers with their
      rounding ([Binary64.double]).
    - What OpenCV, SciPy and [np.corrcoef] compute is a parameter of
      the definitions that call them. *)

From Stdlib Require Import ZArith QArith Qcanon Qround Reals Lra Lia.
From Stdlib Require PrimFloat Uint63 FloatOps SpecFloat.
From stdpp Require Import base option list strings gmap numbers.

Open Scope Z_scope.

(** ** Python outcomes *)

Inductive exn : Type :=
  | ZeroDivisionError
  | ValueError
  | IndexError
  | KeyError
  | AssertionError
  | AttributeError
  | OverflowError
  | TypeError
  | NotImplementedError.

Inductive result (A : Type) : Type :=
  | Ok (a : A)
  | Raise (e : exn)
  | OutOfFuel.

Arguments Ok {A} a.
Arguments Raise {A} e.
Arguments OutOfFuel {A}.

Global Instance result_bind : MBind result := λ A B k m,
  match m with
  | Ok a => k a
  | Raise e => Raise e
  | OutOfFuel => OutOfFuel
  end.

Global Instance result_ret : MRet result := λ A a, Ok a.

(** [for x in xs: acc = step(acc, x)], stopping at the first exception. *)
Fixpoint foldM {A B : Type} (step : B → A → result B) (acc : B) (xs : list A)
  : result B :=
  match xs with
  | [] => Ok acc
  | x :: xs' => acc' ← step acc x ; foldM step acc' xs'
  end.

(** [[f(x) for x in xs]] where [f] may raise. *)
Fixpoint mapM {A B : Type} (f : A → result B) (xs : list A) : result (list B) :=
  match xs with
  | [] => Ok []
  | x :: xs' => y ← f x ; ys ← mapM f xs' ; Ok (y :: ys)
  end.

(** ** Python sequences *)

(** The bound of a slice, as [PySlice_AdjustIndices] normalises it for a
    sequence of length [n] and step 1. *)
Definition slice_bound (n i : Z) : Z :=
  if i <? 0 then Z.max 0 (i + n) else Z.min i n.

(** [l[lo:hi]] *)
Definition py_slice {A : Type} (l : list A) (lo hi : Z) : list A :=
  let n := Z.of_nat (length l) in
  let a := slice_bound n lo in
  let b := slice_bound n hi in
  take (Z.to_nat (b - a)) (drop (Z.to_nat a) l).

(** [l[lo:]] *)
Definition py_slice_from {A : Type} (l : list A) (lo : Z) : list A :=
  drop (Z.to_nat (slice_bound (Z.of_nat (length l)) lo)) l.

(** The position that [l[i]] reads in a sequence of length [n]:
    negative subscripts count from the end, anything else outside
    [0, n) is an [IndexError]. *)
Definition py_position (n : nat) (i : Z) : result nat :=
  if (0 <=? i) && (i <? Z.of_nat n) then Ok (Z.to_nat i)
  else if (- Z.of_nat n <=? i) && (i <? 0) then Ok (Z.to_nat (i + Z.of_nat n))
  else Raise IndexError.

(** [l[i]] *)
Definition py_getitem {A : Type} (l : list A) (i : Z) : result A :=
  pos ← py_position (length l) i ;
  match l !! pos with
  | Some a => Ok a
  | None => Raise IndexError
  end.

(** [l[i] = v] *)
Definition py_setitem {A : Type} (l : list A) (i : Z) (v : A) : result (list A) :=
  pos ← py_position (length l) i ;
  Ok (<[pos := v]> l).

(** [range(start, stop)] *)
Definition py_range (start stop : Z) : list Z := seqZ start (stop - start).

(** ** Doubles without rounding *)

Module NpFloat.

Inductive float : Type :=
  | Fin (q : Qc)
  | PInf
  | NInf
  | NaN.

Definition of_Z (z : Z) : float := Fin (Qc_of_Z z).

Definition isnan (a : float) : bool :=
  match a with NaN => true | _ => false end.

Definition opp (a : float) : float :=
  match a with
  | Fin q => Fin (- q)%Qc
  | PInf => NInf
  | NInf => PInf
  | NaN => NaN
  end.

Definition add (a b : float) : float :=
  match a, b with
  | NaN, _ | _, NaN => NaN
  | Fin x, Fin y => Fin (x + y)%Qc
  | PInf, NInf | NInf, PInf => NaN
  | PInf, _ | _, PInf => PInf
  | NInf, _ | _, NInf => NInf
  end.

Definition sub (a b : float) : float := add a (opp b).

(** The sign of a finite value: [-1], [0] or [1]. *)
Definition sgn (q : Qc) : Z :=
  if bool_decide (0 < q)%Qc then 1
  else if bool_decide (q < 0)%Qc then -1 else 0.

Definition signed_inf (s : Z) : float :=
  if 0 <? s then PInf else if s <? 0 then NInf else NaN.

Definition sign (a : float) : Z :=
  match a with
  | Fin q => sgn q
  | PInf => 1
  | NInf => -1
  | NaN => 0
  end.

Definition mul (a b : float) : float :=
  match a, b with
  | NaN, _ | _, NaN => NaN
  | Fin x, Fin y => Fin (x * y)%Qc
  | _, _ => signed_inf (sign a * sign b)
  end.

(** NumPy's true division: a zero divisor yields an infinity or, for
    [0 / 0], the not-a-number marker; nothing is raised. *)
Definition div (a b : float) : float :=
  match a, b with
  | NaN, _ | _, NaN => NaN
  | Fin x, Fin y =>
      if bool_decide (y = 0%Qc) then signed_inf (sgn x) else Fin (x / y)%Qc
  | Fin _, _ => Fin 0%Qc
  | _, Fin y => signed_inf (sign a * (if bool_decide (y < 0)%Qc then -1 else 1))
  | _, _ => NaN
  end.

(** [a > b]; false as soon as one side is not a number. *)
Definition gtb (a b : float) : bool :=
  match a, b with
  | NaN, _ | _, NaN => false
  | Fin x, Fin y => bool_decide (y < x)%Qc
  | PInf, PInf | NInf, NInf => false
  | PInf, _ | _, NInf => true
  | _, _ => false
  end.

Definition ltb (a b : float) : bool := gtb b a.

(** [a == b] *)
Definition eqb (a b : float) : bool :=
  match a, b with
  | Fin x, Fin y => bool_decide (x = y)
  | PInf, PInf | NInf, NInf => true
  | _, _ => false
  end.

(** Python's built-in [sum], which starts from the integer 0. *)
Definition sum (l : list float) : float := foldl add (of_Z 0) l.

(** [int(a)]: truncation towards zero. *)
Definition to_int (a : float) : result Z :=
  match a with
  | Fin q => Ok (if bool_decide (0 ≤ q)%Qc then Qfloor q else Qceiling q)
  | PInf | NInf => Raise OverflowError
  | NaN => Raise ValueError
  end.

(** [round(a)]: to the nearest integer, ties to the even one. *)
Definition round (a : float) : result Z :=
  match a with
  | Fin q =>
      let f := Qfloor q in
      let r := (q - Qc_of_Z f)%Qc in
      let half := Q2Qc (1 # 2) in
      Ok (if bool_decide (r < half)%Qc then f
          else if bool_decide (half < r)%Qc then f + 1
          else if Z.even f then f else f + 1)
  | PInf | NInf => Raise OverflowError
  | NaN => Raise ValueError
  end.

End NpFloat.

Abbreviation float := NpFloat.float.

(** ** Doubles with their rounding *)

Module Binary64.

Abbreviation double := PrimFloat.float.

(** A Python [int] as a double; exact below 2^53. *)
Definition of_Z (z : Z) : double :=
  if z <? 0 then PrimFloat.opp (PrimFloat.of_uint63 (Uint63.of_Z (- z)))
  else PrimFloat.of_uint63 (Uint63.of_Z z).

(** [n / d] on two Python integers below 2^53, the divisor not zero:
    the double nearest to the fraction. *)
Definition ratio (n d : Z) : double := PrimFloat.div (of_Z n) (of_Z d).

(** The double that a decimal literal with such terms gives. *)
Definition of_Qc (q : Qc) : double := ratio (Qnum q) (Zpos (Qden q)).

Definition of_float (a : float) : double :=
  match a with
  | NpFloat.Fin q => of_Qc q
  | NpFloat.PInf => PrimFloat.infinity
  | NpFloat.NInf => PrimFloat.neg_infinity
  | NpFloat.NaN => PrimFloat.nan
  end.

(** The number that a double stands for, exactly. *)
Definition value (d : double) : float :=
  match FloatOps.Prim2SF d with
  | SpecFloat.S754_zero _ => NpFloat.of_Z 0
  | SpecFloat.S754_infinity false => NpFloat.PInf
  | SpecFloat.S754_infinity true => NpFloat.NInf
  | SpecFloat.S754_nan => NpFloat.NaN
  | SpecFloat.S754_finite negative mantissa exponent =>
      let n := if negative then Zneg mantissa else Zpos mantissa in
      NpFloat.Fin (Q2Qc (if 0 <=? exponent then inject_Z (n * 2 ^ exponent)
                         else Qmake n (2 ^ Z.to_pos (- exponent))))
  end.

(** [int(d)]: truncation towards zero of the number itself. *)
Definition to_int (d : double) : result Z := NpFloat.to_int (value d).

(** [1 / v] for a Python number [v]. *)
Definition reciprocal (v : double) : result double :=
  if PrimFloat.eqb v PrimFloat.zero then Raise ZeroDivisionError
  else Ok (PrimFloat.div (of_Z 1) v).

End Binary64.

(** ** [ecgdigitize/common.py] *)

Module Common.

(** [Failure]: a failure returned as a value, with its reason. *)
Record Failure : Type := mkFailure { reason : string }.

Definition lowerClamp (value limit : Z) : Z :=
  if limit <? value then value else limit.

(** [flatten]: the elements of the inner lists, in order. *)
Definition flatten {A : Type} (listOfLists : list (list A)) : list A :=
  mjoin listOfLists.

(** [numpy.mean] *)
Definition mean (values : list float) : float :=
  NpFloat.div (foldl NpFloat.add (NpFloat.of_Z 0) values)
              (NpFloat.of_Z (Z.of_nat (length values))).

(** [Counter(data)]: the distinct values in order of first occurrence,
    each with its number of occurrences.  Keys are compared with [==],
    so every not-a-number sample is a key of its own. *)
Fixpoint countInsert (x : float) (counts : list (float * Z)) : list (float * Z) :=
  match counts with
  | [] => [(x, 1)]
  | (k, n) :: rest =>
      if NpFloat.eqb k x then (k, n + 1) :: rest
      else (k, n) :: countInsert x rest
  end.

Definition Counter (data : list float) : list (float * Z) :=
  foldl (λ counts x, countInsert x counts) [] data.

(** [most_common(1)]: the first entry among those of highest count. *)
Definition most_common1 (counts : list (float * Z)) : option (float * Z) :=
  foldl (λ best kv,
           match best with
           | None => Some kv
           | Some b => if b.2 <? kv.2 then Some kv else Some b
           end) None counts.

Definition mode (data : list float) : result float :=
  match most_common1 (Counter data) with
  | Some (value, _) => Ok value
  | None => Raise IndexError
  end.

(** [shiftedPairs]: [limit] is [None] or an integer. *)
Definition shiftedPairs {A : Type} (signal : list A) (limit : option Z)
  : result (list (list A * list A)) :=
  let half := Z.of_nat (length signal) `div` 2 in
  let limit := default half limit in
  if half <? limit then Raise ValueError
  else Ok (map (λ offset,
                  if offset =? 0 then (signal, signal)
                  else (py_slice signal 0 (- offset), py_slice_from signal offset))
               (py_range 0 limit)).

(** [autocorrelation]; [corrcoef x y] stands for
    [np.corrcoef(x, y)[0][1]]. *)
Definition autocorrelation {A C : Type} (corrcoef : list A → list A → C)
    (signal : list A) (limit : option Z) : result (list C) :=
  pairs ← shiftedPairs signal limit;
  Ok (map (λ xy, corrcoef xy.1 xy.2) pairs).

(** [padLeft] and [padRight] on arrays: [np.pad] refuses a negative
    count. *)
Definition padLeft (elements : list float) (count : Z) : result (list float) :=
  if count <? 0 then Raise ValueError
  else Ok (replicate (Z.to_nat count) (NpFloat.of_Z 0) ++ elements).

Definition padRight (elements : list float) (count : Z) : result (list float) :=
  if count <? 0 then Raise ValueError
  else Ok (elements ++ replicate (Z.to_nat count) (NpFloat.of_Z 0)).

End Common.

(** ** [ecgdigitize/otsu.py] *)

Module Otsu.

(** A grayscale image: rows of 8-bit intensities. *)
Definition GrayscaleImage : Type := list (list Z).

(** [image.histogram()], that is [np.histogram(data, 255, range=(0, 255))]:
    255 bins of width one, the last of which is closed on the right. *)
Definition bin (v : Z) : option nat :=
  if (0 <=? v) && (v <? 255) then Some (Z.to_nat v)
  else if v =? 255 then Some 254%nat
  else None.

Definition histogram (image : GrayscaleImage) : list Z :=
  map (λ b, Z.of_nat (length (filter (λ v, bin v = Some b) (concat image))))
      (seq 0 255).

Section climb.
Context {S : Type} (gt : S → S → bool).
Variable xs : list Z.
Variable evaluate : Z → S.

Definition neighbors (index : Z) : option Z * option Z :=
  (if 0 <? index then Some (index - 1) else None,
   if index <? Z.of_nat (length xs) - 1 then Some (index + 1) else None).

(** The [while True] loop of [climb1dHill]; the memo table of
    [cachedEvaluate] is left out since [evaluate] is a function. *)
Fixpoint climbFrom (fuel : nat) (currentIndex : Z) (currentScore : S)
  : result Z :=
  match fuel with
  | O => OutOfFuel
  | Datatypes.S fuel' =>
      match neighbors currentIndex with
      | (Some left_, Some right_) =>
          xl ← py_getitem xs left_;
          xr ← py_getitem xs right_;
          let leftScore := evaluate xl in
          let rightScore := evaluate xr in
          if gt leftScore currentScore then climbFrom fuel' left_ leftScore
          else if gt rightScore currentScore then climbFrom fuel' right_ rightScore
          else py_getitem xs currentIndex
      | _ => Raise NotImplementedError
      end
  end.

Definition climb1dHill : result Z :=
  let startIndex := Z.of_nat (length xs) `div` 2 in
  x0 ← py_getitem xs startIndex;
  climbFrom (length xs) startIndex (evaluate x0).
End climb.

Definition L : Z := 256.

(** [p = n / N] *)
Definition probabilities (image : GrayscaleImage) : list float :=
  let height := Z.of_nat (length image) in
  let width := Z.of_nat (length (hd [] image)) in
  let N := height * width in
  map (λ n_i, NpFloat.div (NpFloat.of_Z n_i) (NpFloat.of_Z N)) (histogram image).

Definition ω (p : list float) (k : Z) : float :=
  NpFloat.sum (py_slice p 0 k).

Definition μ (p : list float) (k : Z) : float :=
  NpFloat.sum (imap (λ i p_i, NpFloat.mul (NpFloat.of_Z (Z.of_nat i + 1)) p_i)
                    (py_slice p 0 k)).

Definition σ_B (p : list float) (k : Z) : float :=
  let μ_T := μ p L in
  let d := NpFloat.sub (NpFloat.mul μ_T (ω p k)) (μ p k) in
  let numerator := NpFloat.mul d d in
  let denominator := NpFloat.mul (ω p k) (NpFloat.sub (NpFloat.of_Z 1) (ω p k)) in
  NpFloat.div numerator denominator.

Definition otsuThreshold (image : GrayscaleImage) : result Z :=
  climb1dHill NpFloat.gtb (py_range 0 L) (σ_B (probabilities image)).

(** *** The specification's side of the comparison *)

(** The exhaustive argmax of a score over [0, 255], in the
    specification's words: a [k] whose score is a number that no
    other score exceeds. *)
Definition exhaustiveArgmax (score : Z → float) (k : Z) : Prop :=
  0 ≤ k ≤ 255 ∧ NpFloat.isnan (score k) = false ∧
  ∀ j, 0 ≤ j ≤ 255 → NpFloat.gtb (score j) (score k) = false.

(** The number of modes of a histogram: its strict local maxima once
    plateaus are merged, the outside counting as lower than any bin. *)
Fixpoint mergePlateaus (h : list Z) : list Z :=
  match h with
  | a :: (b :: _) as rest =>
      if a =? b then mergePlateaus rest else a :: mergePlateaus rest
  | _ => h
  end.

Fixpoint countPeaks (h : list Z) : nat :=
  match h with
  | a :: (b :: c :: _) as rest =>
      if (a <? b) && (c <? b) then Datatypes.S (countPeaks rest)
      else countPeaks rest
  | _ => 0%nat
  end.

Definition modes (h : list Z) : nat :=
  countPeaks (mergePlateaus ((-1) :: h ++ [-1])).

Definition unimodal (h : list Z) : Prop := modes h = 1%nat.
Definition bimodal (h : list Z) : Prop := modes h = 2%nat.

(** A score with a single peak at [m]: numbers exactly on [lo, hi],
    strictly rising up to [m] and strictly falling after it. *)
Definition singlePeaked (score : Z → float) (lo m hi : Z) : Prop :=
  1 ≤ lo ∧ lo ≤ m ∧ m ≤ hi ∧ hi ≤ 254 ∧
  (∀ k, lo ≤ k < m → NpFloat.gtb (score (k + 1)) (score k) = true) ∧
  (∀ k, m ≤ k < hi → NpFloat.gtb (score k) (score (k + 1)) = true) ∧
  (∀ k, lo ≤ k ≤ hi → NpFloat.isnan (score k) = false) ∧
  (∀ k, 0 ≤ k < lo ∨ hi < k ≤ 255 → NpFloat.isnan (score k) = true).

Definition singlePeakedb (score : Z → float) (lo m hi : Z) : bool :=
  (1 <=? lo) && (lo <=? m) && (m <=? hi) && (hi <=? 254) &&
  forallb (λ k, NpFloat.gtb (score (k + 1)) (score k)) (py_range lo m) &&
  forallb (λ k, NpFloat.gtb (score k) (score (k + 1))) (py_range m hi) &&
  forallb (λ k, negb (NpFloat.isnan (score k))) (py_range lo (hi + 1)) &&
  forallb (λ k, NpFloat.isnan (score k)) (py_range 0 lo ++ py_range (hi + 1) 256).

End Otsu.


(** ** [math] on real numbers *)

Module PyMath.

Local Open Scope R_scope.

(** [math.sqrt]: a [ValueError] below zero. *)
Definition sqrt (v : R) : result R :=
  if Rlt_dec v 0 then Raise ValueError else Ok (R_sqrt.sqrt v).

(** [math.asin]: a [ValueError] outside [-1, 1]. *)
Definition asin (v : R) : result R :=
  if Rle_dec (Rabs v) 1 then Ok (Ratan.asin v) else Raise ValueError.

(** [a / b] on Python numbers. *)
Definition truediv (a b : R) : result R :=
  if Req_dec_T b 0 then Raise ZeroDivisionError else Ok (a / b).

(** [min(l, key=key)]: the first element of least key. *)
Definition minBy {A : Type} (key : A → R) (l : list A) : result A :=
  match l with
  | [] => Raise ValueError
  | a :: l' =>
      Ok (foldl (λ best c, if Rlt_dec (key c) (key best) then c else best) a l')
  end.

End PyMath.

(** ** [ecgdigitize/signal/extraction/viterbi.py] *)

Module Viterbi.

(** [Point]: candidates carry integer coordinates, interpolated
    points a fractional ordinate; the abscissa is always an [int], so
    that [index] is [x] itself. *)
Record Point : Type := mkPoint { x : Z; y : Qc }.

Global Instance Point_eq_dec : EqDecision Point.
Proof. solve_decision. Defined.

Global Instance Point_countable : Countable Point :=
  inj_countable' (λ p, (x p, y p)) (λ xy, mkPoint xy.1 xy.2)
                 (λ p, match p with mkPoint _ _ => eq_refl end).

Definition index (p : Point) : Z := x p.

(** A binary image: rows of pixels; [width] is [data.shape[1]]. *)
Definition BinaryImage : Type := list (list Z).

Definition width (binary : BinaryImage) : nat := length (hd [] binary).

(** [np.swapaxes(image, 0, 1)]: the columns, left to right.  (A row
    shorter than the first one, which an array cannot have, reads
    as zeros.) *)
Definition swapaxes (image : BinaryImage) : list (list Z) :=
  map (λ column, map (λ row, default 0 (row !! column)) image)
      (seq 0 (width image)).

(** [enumerate] *)
Definition enumerate {A : Type} (l : list A) : list (Z * A) :=
  imap (λ i a, (Z.of_nat i, a)) l.

Definition findContiguousRegions (oneDimImage : list Z) : list (Z * Z) :=
  fst (foldl
         (λ (state : list (Z * Z) * option Z) (entry : Z * Z),
            let '(locations, start) := state in
            let '(index, pixel) := entry in
            match start with
            | None =>
                if 0 <? pixel then (locations, Some index) else (locations, start)
            | Some s =>
                if pixel =? 0 then (locations ++ [(s, index)], None)
                else (locations, start)
            end)
         ([], None) (enumerate oneDimImage)).

(** [int(np.mean([a, b]))] *)
Definition findContiguousRegionCenters (oneDimImage : list Z) : list Z :=
  map (λ locationPair, (locationPair.1 + locationPair.2) `quot` 2)
      (findContiguousRegions oneDimImage).

Definition getPointLocations (image : BinaryImage) : list (list Point) :=
  map (λ entry, map (λ row, mkPoint entry.1 (Qc_of_Z row))
                    (findContiguousRegionCenters entry.2))
      (enumerate (swapaxes image)).

(** *** The transition cost *)

Section cost.
Local Open Scope R_scope.

Definition euclideanDistance (x y : R) : result R :=
  PyMath.sqrt (x * x + y * y).

Definition distanceBetweenPoints (firstPoint secondPoint : Point) : result R :=
  euclideanDistance (IZR (x firstPoint - x secondPoint))
                    (Q2R (y firstPoint - y secondPoint)%Qc).

Definition angleFromOffsets (x y : R) : result R :=
  d ← euclideanDistance x y;
  q ← PyMath.truediv y d;
  a ← PyMath.asin q;
  Ok (a / PI * 180).

Definition angleBetweenPoints (firstPoint secondPoint : Point) : result R :=
  let deltaX := IZR (x secondPoint - x firstPoint) in
  let deltaY := Q2R (y secondPoint - y firstPoint)%Qc in
  angleFromOffsets deltaX deltaY.

Definition angleSimilarity (firstAngle secondAngle : R) : R :=
  (180 - Rabs (secondAngle - firstAngle)) / 180.

Definition score (currentPoint candidatePoint : Point) (candidateAngle : R)
  : result R :=
  let DISTANCE_WEIGHT := / 2 in
  currentAngle ← angleBetweenPoints candidatePoint currentPoint;
  let angleValue := 1 - angleSimilarity currentAngle candidateAngle in
  distanceValue ← distanceBetweenPoints currentPoint candidatePoint;
  Ok (distanceValue * DISTANCE_WEIGHT + angleValue * (1 - DISTANCE_WEIGHT)).
End cost.

(** *** The table of best paths *)

(** [bestPathToPoint]: cumulative cost, predecessor, incoming angle. *)
Abbreviation Entry := (R * option Point * R)%type.

Section adjacent.
Variable pointsByColumn : list (list Point).
Variable bestPathToPoint : gmap Point Entry.

(** The [while] loop of [getAdjacent]; [found] is its [result]. *)
Fixpoint expandLeft (fuel : nat) (rightColumnIndex leftColumnIndex : Z)
    (found : list Point) : result (list Point) :=
  match fuel with
  | O => OutOfFuel
  | S fuel' =>
      if (length found =? 0)%nat && (0 <=? leftColumnIndex) then
        let leftColumnIndex := leftColumnIndex - 1 in
        expandLeft fuel' rightColumnIndex leftColumnIndex
          (Common.flatten (py_slice pointsByColumn leftColumnIndex rightColumnIndex))
      else Ok found
  end.

(** [getAdjacent], with the generator run to its end as [list(...)]
    does at both call sites. *)
Definition getAdjacent (startingColumn minimumLookBack : Z)
  : result (list (R * Point * R)) :=
  let rightColumnIndex := startingColumn in
  let leftColumnIndex := Common.lowerClamp (startingColumn - minimumLookBack) 0 in
  found ← expandLeft (Z.to_nat leftColumnIndex + 2) rightColumnIndex leftColumnIndex
             (Common.flatten (py_slice pointsByColumn leftColumnIndex rightColumnIndex));
  mapM (λ point,
          match bestPathToPoint !! point with
          | None => Raise AssertionError
          | Some (pointScore, _, pointAngle) => Ok (pointScore, point, pointAngle)
          end) found.
End adjacent.

Definition minimumLookBack : Z := 1.
Definition OPTIMAL_ENDING_WIDTH : Z := 20.

(** The record of a point without predecessor. *)
Definition seed : Entry := (0%R, None, 0%R).

(** The body of the loop over the points right of the first column. *)
Definition visit (pointsByColumn : list (list Point))
    (bestPathToPoint : gmap Point Entry) (point : Point)
  : result (gmap Point Entry) :=
  adjacent ← getAdjacent pointsByColumn bestPathToPoint (index point) minimumLookBack;
  if (length adjacent =? 0)%nat then Ok (<[point := seed]> bestPathToPoint)
  else
    scored ← mapM (λ triple : R * Point * R,
                     let '(cadidateScore, candidatePoint, candidateAngle) := triple in
                     s ← score point candidatePoint candidateAngle;
                     Ok ((s + cadidateScore)%R, candidatePoint)) adjacent;
    best ← PyMath.minBy fst scored;
    let '(bestScore, bestPoint) := best in
    angle ← angleBetweenPoints bestPoint point;
    Ok (<[point := (bestScore, Some bestPoint, angle)]> bestPathToPoint).

Definition buildTable (pointsByColumn : list (list Point))
  : result (gmap Point Entry) :=
  let base := foldl (λ table point, <[point := seed]> table) ∅
                    (Common.flatten (py_slice pointsByColumn 0 1)) in
  foldM (visit pointsByColumn) base
        (Common.flatten (py_slice_from pointsByColumn 1)).

(** The backward walk along the predecessors. *)
Fixpoint traceBack (fuel : nat) (bestPathToPoint : gmap Point Entry)
    (current : option Point) (bestPath : list Point) : result (list Point) :=
  match current with
  | None => Ok bestPath
  | Some c =>
      match fuel with
      | O => OutOfFuel
      | S fuel' =>
          match bestPathToPoint !! c with
          | None => Raise KeyError
          | Some (_, previous, _) =>
              traceBack fuel' bestPathToPoint previous (bestPath ++ [c])
          end
      end
  end.

(** *** From the path to the signal *)

Definition interpolate (fromPoint toPoint : Point) : result (list Point) :=
  if bool_decide (x toPoint = x fromPoint) then Raise ZeroDivisionError
  else
    let slope := ((y toPoint - y fromPoint) / Qc_of_Z (x toPoint - x fromPoint))%Qc in
    let f := λ x', (slope * (Qc_of_Z x' - Qc_of_Z (x toPoint)) + y toPoint)%Qc in
    Ok (map (λ x', mkPoint x' (f x')) (py_range (index fromPoint + 1) (index toPoint))).

(** One turn of the loop of [convertPointsToSignal]. *)
Definition fill (state : list float * Point) (point : Point)
  : result (list float * Point) :=
  let '(signal, priorPoint) := state in
  next ← py_getitem signal (index point + 1);
  signal ← (if NpFloat.isnan next then
               interpolated ← interpolate point priorPoint;
               foldM (λ signal interpolatedPoint,
                        py_setitem signal (index interpolatedPoint)
                                   (NpFloat.Fin (y interpolatedPoint)))
                     signal interpolated
             else Ok signal);
  signal ← py_setitem signal (index point) (NpFloat.Fin (y point));
  Ok (signal, point).

Definition convertPointsToSignal (points : list Point) (width : option Z)
  : result (list float) :=
  match points with
  | [] => Raise AssertionError
  | firstPoint :: rest =>
      let arraySize :=
        match width with
        | Some w => if w =? 0 then x firstPoint + 1 else w
        | None => x firstPoint + 1
        end in
      if arraySize <? 0 then Raise ValueError
      else
        let signal := replicate (Z.to_nat arraySize) NpFloat.NaN in
        signal ← py_setitem signal (index firstPoint) (NpFloat.Fin (y firstPoint));
        final ← foldM fill (signal, firstPoint) rest;
        Ok final.1
  end.

(** The path that [extractSignal] selects, rightmost point first. *)
Definition bestPath (binary : BinaryImage) : result (list Point) :=
  let pointsByColumn := getPointLocations binary in
  bestPathToPoint ← buildTable pointsByColumn;
  optimalCandidates ← getAdjacent pointsByColumn bestPathToPoint
                        (Z.of_nat (width binary)) OPTIMAL_ENDING_WIDTH;
  best ← PyMath.minBy fst
           (map (λ triple : R * Point * R, (triple.1.1, triple.1.2)) optimalCandidates);
  traceBack (S (length pointsByColumn)) bestPathToPoint (Some best.2) [].

Definition extractSignal (binary : BinaryImage) : result (option (list float)) :=
  let pointsByColumn := getPointLocations binary in
  let points := Common.flatten pointsByColumn in
  if (length points =? 0)%nat then Ok None
  else
    path ← bestPath binary;
    signal ← convertPointsToSignal path None;
    Ok (Some signal).

End Viterbi.

(** ** [ecgdigitize/signal/signal.py] *)

Module Signal.

(** [1 / v] for a Python number [v]. *)
Definition reciprocal (v : Qc) : result float :=
  if bool_decide (v = 0%Qc) then Raise ZeroDivisionError
  else Ok (NpFloat.Fin (/ v)%Qc).

(** [verticallyScaleECGSignal]; the grid size in pixels is a NumPy
    scalar, the scale a Python number. *)
Definition verticallyScaleECGSignal (signal : list float) (gridSizeInPixels : float)
    (millimetersPerMilliVolt : Qc) (gridSizeInMillimeters : float)
  : result (list float) :=
  let gridsPerPixel := NpFloat.div (NpFloat.of_Z 1) gridSizeInPixels in
  let millimetersPerGrid := gridSizeInMillimeters in
  milliVoltsPerMillimeter ← reciprocal millimetersPerMilliVolt;
  let microVoltsPerMilliVolt := NpFloat.of_Z 1000 in
  let microVoltsPerPixel :=
    NpFloat.mul (NpFloat.mul (NpFloat.mul gridsPerPixel millimetersPerGrid)
                             milliVoltsPerMillimeter)
                microVoltsPerMilliVolt in
  Ok (map (λ v, NpFloat.mul (NpFloat.mul v microVoltsPerPixel) (NpFloat.of_Z (-1)))
          signal).

(** [ecgSignalSamplingPeriod], on doubles, since the padding of the
    leads takes an integer from a quotient by its result.  The grid
    size is a NumPy scalar, whose reciprocal is an infinity when it is
    zero; the speed is a Python number. *)
Definition ecgSignalSamplingPeriod
    (gridSizeInPixels millimetersPerSecond gridSizeInMillimeters : Binary64.double)
  : result Binary64.double :=
  let gridsPerPixel := PrimFloat.div (Binary64.of_Z 1) gridSizeInPixels in
  let millimetersPerGrid := gridSizeInMillimeters in
  secondsPerMillimeter ← Binary64.reciprocal millimetersPerSecond;
  let secondsPerPixel :=
    PrimFloat.mul (PrimFloat.mul gridsPerPixel millimetersPerGrid)
                  secondsPerMillimeter in
  Ok secondsPerPixel.

(** [zeroECGSignal] with its default [zeroingMethod], [common.mode]. *)
Definition zeroECGSignal (signal : list float) : result (list float) :=
  zeroPoint ← Common.mode signal;
  Ok (map (λ v, NpFloat.sub v zeroPoint) signal).

End Signal.

(** ** [Conversion.py] *)

Module Conversion.

(** [model/Lead.py] *)
Inductive LeadId : Type :=
  | I | II | III | aVR | aVL | aVF | V1 | V2 | V3 | V4 | V5 | V6.

Global Instance LeadId_eq_dec : EqDecision LeadId.
Proof. solve_decision. Defined.

Record Lead : Type := mkLead {
  x : Z; y : Z; width : Z; height : Z; startTime : Binary64.double
}.

(** [model/InputParameters.py]; the dictionary of leads is kept in its
    insertion order, which is the order Python iterates it in. *)
Record InputParameters : Type := mkInputParameters {
  rotation : Qc;
  timeScale : Binary64.double;
  voltScale : Qc;
  leads : list (LeadId * Lead)
}.

(** [ecgdigitize/image.py] *)
Definition ColorImage : Type := list (list (Z * Z * Z)).

Record Rectangle : Type := mkRectangle {
  rx : Z; ry : Z; rwidth : Z; rheight : Z
}.

(** [cropped]: [data[fromY:toY, fromX:toX]]. *)
Definition cropped (inputImage : ColorImage) (crop : Rectangle) : ColorImage :=
  let '(fromX, toX, fromY, toY) :=
    (rx crop, rx crop + rwidth crop, ry crop, ry crop + rheight crop) in
  map (λ row, py_slice row fromX toX) (py_slice inputImage fromY toY).

(** What [digitizeSignal] may hand back to its caller: an array, [None]
    or, by its annotation, a [Failure]. *)
Inductive SignalValue : Type :=
  | SignalArray (samples : list float)
  | SignalNone
  | SignalFailure (failure : Common.Failure).

(** What [digitizeGrid] hands back: the period in pixels or a
    [Failure]. *)
Inductive GridValue : Type :=
  | GridPeriod (period : float)
  | GridFailure (failure : Common.Failure).

(** The image processing that is delegated to OpenCV, NumPy and SciPy. *)
Record Backend : Type := mkBackend {
  (** [ecgdigitize.image.rotated] *)
  rotated : ColorImage → Qc → result ColorImage;
  (** [signal.detection.adaptive] *)
  adaptive : ColorImage → result Viterbi.BinaryImage;
  (** [ecgdigitize.digitizeGrid] *)
  digitizeGrid : ColorImage → result GridValue;
  (** [common.mean], which is [numpy.mean]: the double that it
      returns for the grid periods *)
  mean : list float → Binary64.double;
  (** the drawing loop of [visualization.overlaySignalOnImage] *)
  drawSignal : list float → ColorImage → result ColorImage
}.

(** What [convertECGLeads] may hand back: the pair it builds, whose
    components are dictionaries or [None]; a [Failure] is the other
    value that the specification speaks of. *)
Inductive Returned : Type :=
  | ReturnedFailure (failure : Common.Failure)
  | ReturnedPair (signals : option (list (LeadId * list float)))
                 (previews : option (list (LeadId * ColorImage))).

Section pipeline.
Variable backend : Backend.

(** [ecgdigitize.digitizeSignal] with its default methods. *)
Definition digitizeSignal (image : ColorImage) : result SignalValue :=
  binary ← adaptive backend image;
  signal ← Viterbi.extractSignal binary;
  Ok (match signal with
      | Some samples => SignalArray samples
      | None => SignalNone
      end).

(** [isinstance(signal, common.Failure)] *)
Definition isFailure (signal : SignalValue) : bool :=
  match signal with SignalFailure _ => true | _ => false end.

(** [visualization.overlaySignalOnImage]: [signal.shape] is read
    first, which only an array has. *)
Definition overlaySignalOnImage (signal : SignalValue) (image : ColorImage)
  : result ColorImage :=
  match signal with
  | SignalArray samples => drawSignal backend samples image
  | SignalNone | SignalFailure _ => Raise AttributeError
  end.

(** [zeroECGSignal] then [verticallyScaleECGSignal] on one value of
    [signals]; [Counter(None)] is empty and a [Failure] is not
    iterable. *)
Definition scaleSignal (gridHeightInPixels : float) (voltScale : Qc)
    (signal : SignalValue) : result (list float) :=
  match signal with
  | SignalArray samples =>
      zeroed ← Signal.zeroECGSignal samples;
      Signal.verticallyScaleECGSignal zeroed gridHeightInPixels voltScale
                                      (NpFloat.of_Z 1)
  | SignalNone => Raise IndexError
  | SignalFailure _ => Raise TypeError
  end.

(** [parameters.leads[leadId]] *)
Definition lookupLead (leads : list (LeadId * Lead)) (leadId : LeadId)
  : result Lead :=
  match list_find (λ entry, entry.1 = leadId) leads with
  | Some (_, (_, lead)) => Ok lead
  | None => Raise KeyError
  end.

(** [int(startTime / samplingPeriod)]: the binary64 quotient of a
    Python float by a NumPy scalar, truncated. *)
Definition leftPadding (startTime samplingPeriod : Binary64.double) : result Z :=
  Binary64.to_int (PrimFloat.div startTime samplingPeriod).

(** [max] of a generator of lengths. *)
Definition maxLength (lengths : list Z) : result Z :=
  match lengths with
  | [] => Raise ValueError
  | n :: rest => Ok (foldl Z.max n rest)
  end.

(** A dictionary comprehension whose value expression may raise. *)
Definition mapValues {K A B : Type} (f : K → A → result B) (d : list (K * A))
  : result (list (K * B)) :=
  mapM (λ entry, v ← f entry.1 entry.2; Ok (entry.1, v)) d.

(** Steps 1 to 3: rotate, crop and digitise every lead. *)
Definition leadImages (rotatedImage : ColorImage) (parameters : InputParameters)
  : list (LeadId * ColorImage) :=
  map (λ entry,
         let lead := entry.2 in
         (entry.1, cropped rotatedImage
                     (mkRectangle (x lead) (y lead) (width lead) (height lead))))
      (leads parameters).

(** The non-failing grid spacings. *)
Definition spacingsOf (gridSpacings : list (LeadId * GridValue)) : list float :=
  omap (λ entry, match entry.2 with
                 | GridPeriod period => Some period
                 | GridFailure _ => None
                 end) gridSpacings.

Definition convertECGLeads (inputImage : ColorImage) (parameters : InputParameters)
  : result Returned :=
  rotatedImage ← rotated backend inputImage (rotation parameters);
  let leadImages := leadImages rotatedImage parameters in
  signals ← mapValues (λ _ img, digitizeSignal img) leadImages;
  if forallb isFailure (signals.*2) then Ok (ReturnedPair None None)
  else
    previews ← mapM (λ pair : (LeadId * ColorImage) * (LeadId * SignalValue),
                       preview ← overlaySignalOnImage pair.2.2 pair.1.2;
                       Ok (pair.1.1, preview))
                    (zip leadImages signals);
    gridSpacings ← mapValues (λ _ image, digitizeGrid backend image) leadImages;
    let spacings := spacingsOf gridSpacings in
    if (length spacings =? 0)%nat then Ok (ReturnedPair None None)
    else
      let gridHeightInPixels := mean backend spacings in
      let samplingPeriodInPixels := gridHeightInPixels in
      scaledSignals ← mapValues
        (λ _ signal,
           scaleSignal (Binary64.value gridHeightInPixels) (voltScale parameters)
                       signal)
        signals;
      samplingPeriod ← Signal.ecgSignalSamplingPeriod samplingPeriodInPixels
                         (timeScale parameters) (Binary64.of_Z 1);
      paddedSignals ← mapValues
        (λ leadId signal,
           lead ← lookupLead (leads parameters) leadId;
           count ← leftPadding (startTime lead) samplingPeriod;
           Common.padLeft signal count)
        scaledSignals;
      maxLength ← maxLength (map (λ entry, Z.of_nat (length entry.2)) paddedSignals);
      fullSignals ← mapValues
        (λ _ signal, Common.padRight signal (maxLength - Z.of_nat (length signal)))
        paddedSignals;
      Ok (ReturnedPair (Some fullSignals) (Some previews)).
End pipeline.

End Conversion.

(** ** Invariants of the Viterbi search *)

Module ViterbiInvariants.
Import Viterbi.

(** The points of column [c] have abscissa [c]. *)
Definition columnwise (pointsByColumn : list (list Point)) : Prop :=
  ∀ (c : nat) (column : list Point) (p : Point),
    pointsByColumn !! c = Some column → p ∈ column → x p = Z.of_nat c.

(** The candidates of the columns left of column [c]. *)
Definition leftOf (pointsByColumn : list (list Point)) (c : nat) : list Point :=
  Common.flatten (take c pointsByColumn).

(** Every candidate left of column [c] is recorded in the table. *)
Definition covers (pointsByColumn : list (list Point)) (c : nat)
    (table : gmap Point Entry) : Prop :=
  ∀ q, q ∈ leftOf pointsByColumn c → is_Some (table !! q).

(** What holds of the table of best paths while it is built: its keys
    are candidates, a predecessor is a recorded point of a column
    further left, and a point with no candidate anywhere to its left
    carries the record of a starting point. *)
Record tableInvariant (pointsByColumn : list (list Point))
    (table : gmap Point Entry) : Prop := mkTableInvariant {
  recorded_candidate :
    ∀ p, is_Some (table !! p) → p ∈ Common.flatten pointsByColumn;
  recorded_previous :
    ∀ p cost q angle, table !! p = Some (cost, Some q, angle) →
      is_Some (table !! q) ∧ x q < x p;
  recorded_seed :
    ∀ p entry, table !! p = Some entry →
      leftOf pointsByColumn (Z.to_nat (x p)) = [] → entry = seed
}.

(** A path that walks leftwards from below [bound] and stays at or
    right of column 0. *)
Fixpoint descending (bound : Z) (path : list Point) : Prop :=
  match path with
  | [] => True
  | p :: rest => 0 ≤ x p < bound ∧ descending (x p) rest
  end.

(** The samples left of column [bound] still hold the not-a-number
    marker. *)
Definition blankBefore (bound : Z) (signal : list float) : Prop :=
  ∀ i : nat, Z.of_nat i < bound → (i < length signal)%nat →
    signal !! i = Some NpFloat.NaN.

End ViterbiInvariants.

(** ** Properties of the returned signals *)

Module ConversionProperties.
Import Conversion.

(** All the arrays of a dictionary of signals have one length. *)
Definition equalLengths (signals : list (LeadId * list float)) : Prop :=
  ∀ first second, first ∈ signals → second ∈ signals →
    length first.2 = length second.2.

(** [out] is [scaled] behind [count] zero samples and before some more. *)
Definition paddedFrom (count : Z) (scaled out : list float) : Prop :=
  0 ≤ count ∧
  ∃ trailing : nat,
    out = replicate (Z.to_nat count) (NpFloat.of_Z 0) ++ scaled
          ++ replicate trailing (NpFloat.of_Z 0).

End ConversionProperties.

(** ** Worked inputs *)

Module Examples.
Import Conversion.

(** One row of twelve pixels of intensities 120 to 131: the
    between-class variance peaks at 126, two steps left of 128. *)
Definition rampImage : Otsu.GrayscaleImage := [seqZ 120 12].

(** Sixty pixels of intensity 10, ninety of intensities 11 to 100 and
    one of intensity 129: a histogram with two modes. *)
Definition twoModeImage : Otsu.GrayscaleImage :=
  [replicate 60 10 ++ seqZ 11 90 ++ [129]].

(** A mask of width three whose only trace pixel is in the first
    column. *)
Definition cornerMask : Viterbi.BinaryImage := [[1; 0; 0]; [0; 0; 0]].

(** A trace that climbs over four columns of a mask of width five. *)
Definition climbingMask : Viterbi.BinaryImage :=
  [[0; 0; 0; 1; 0];
   [0; 0; 1; 0; 0];
   [1; 1; 0; 0; 0];
   [0; 0; 0; 0; 0]].

(** A mask of width twenty-five with one trace pixel in its first
    column and one in its last. *)
Definition farApartMask : Viterbi.BinaryImage :=
  [1 :: replicate 23 0 ++ [1]; replicate 25 0].

Definition white : Z * Z * Z := (255, 255, 255).
Definition black : Z * Z * Z := (0, 0, 0).

(** A stand-in for the image library: no rotation, the trace is every
    pixel whose blue channel is below 128, the grid estimate is the
    given one for every crop, whose mean is that estimate again, and
    the preview is the crop itself. *)
Definition sketchBackend (grid : GridValue) : Backend := {|
  rotated := λ image _, Ok image;
  adaptive := λ image,
    Ok (map (map (λ pixel : Z * Z * Z, if pixel.1.1 <? 128 then 1 else 0)) image);
  digitizeGrid := λ _, Ok grid;
  mean := λ spacings, Binary64.of_float (Common.mean spacings);
  drawSignal := λ _ image, Ok image
|}.

(** A page of two rows and six columns with one dark pixel in its
    second and one in its fifth column. *)
Definition page : ColorImage :=
  [[white; black; white; white; black; white]; replicate 6 white].

(** Lead I on the left half of the page, lead II on the right half,
    with the double that the given decimal stands for as its start
    time. *)
Definition twoLeads (startTimeII : Qc) : InputParameters :=
  mkInputParameters 0 (Binary64.of_Z 25) (Qc_of_Z 10)
    [(I, mkLead 0 0 3 2 (Binary64.of_Z 0));
     (II, mkLead 3 0 3 2 (Binary64.of_Qc startTimeII))].

(** Lead I as before, lead II on the blank third column. *)
Definition blankSecondLead : InputParameters :=
  mkInputParameters 0 (Binary64.of_Z 25) (Qc_of_Z 10)
    [(I, mkLead 0 0 3 2 (Binary64.of_Z 0)); (II, mkLead 2 0 1 2 (Binary64.of_Z 0))].

Definition noGrid : GridValue :=
  GridFailure (Common.mkFailure "Unable to estimate the frequency of the grid in either directions.").

Definition gridOfTwentyPixels : GridValue := GridPeriod (NpFloat.of_Z 20).

End Examples.

(** * The code around the digitisation core

    The remaining helpers of [ecgdigitize/common.py], the naive
    extractor, the threshold search of [signal/detection.py], the grid
    and rotation estimators of [ecgdigitize/ecgdigitize.py] and
    [grid/extraction.py], and the export of [Conversion.py]. *)

(** ** The rest of [ecgdigitize/common.py] *)

Module CommonSequences.

(** [range(start, stop, -1)] *)
Definition py_range_down (start stop : Z) : list Z :=
  map (λ i, start - i) (seqZ 0 (start - stop)).

Definition reversedRange (stop : Z) : list Z := py_range_down (stop - 1) (-1).

(** [calculateDistancesBetweenValues] on the (rho, theta) pairs of
    Hough lines, which are finite numbers. *)
Definition calculateDistancesBetweenValues (sortedList : list (Qc * Qc)) : list Qc :=
  map (λ pair : (Qc * Qc) * (Qc * Qc), (pair.2.1 - pair.1.1)%Qc)
      (zip (py_slice sortedList 0 (-1)) (py_slice_from sortedList 1)).

(** [zipDict]: a dictionary is already kept as the list of its items. *)
Definition zipDict {K V : Type} (dictionary : list (K * V)) : list (K * V) :=
  map (λ item, (item.1, item.2)) dictionary.

(** The number of samples that compare equal to [value]. *)
Definition occurrences (value : float) (data : list float) : Z :=
  Z.of_nat (length (filter (λ sample, NpFloat.eqb sample value = true) data)).

(** What [Counter(data)] holds: every key is a sample, counted once
    for a not-a-number key and as often as it occurs otherwise; a
    number is a key once only, and every number of the data is a key. *)
Record counted (data : list float) (counts : list (float * Z)) : Prop :=
  mkCounted {
  counted_key :
    ∀ (i : nat) key n, counts !! i = Some (key, n) →
      key ∈ data ∧ n = if NpFloat.isnan key then 1 else occurrences key data;
  counted_once :
    ∀ (i j : nat) key n m,
      counts !! i = Some (key, n) → counts !! j = Some (key, m) →
      NpFloat.isnan key = false → i = j;
  counted_all :
    ∀ value, value ∈ data → NpFloat.isnan value = false →
      ∃ (i : nat) n, counts !! i = Some (value, n)
}.

End CommonSequences.

(** ** [ecgdigitize/signal/extraction/naive.py] *)

Module Naive.
Import CommonSequences.

(** [reverseEnumerate]: the pairs [(index, array[index])], last index
    first. *)
Definition reverseEnumerate (array : list Z) : result (list (Z * Z)) :=
  mapM (λ index, pixel ← py_getitem array index; Ok (index, pixel))
       (reversedRange (Z.of_nat (length array))).

(** The loop of [findFirstNonZero]: the index of the first pair whose
    pixel is positive. *)
Fixpoint firstPositive (iterator : list (Z * Z)) : option Z :=
  match iterator with
  | [] => None
  | (index, pixel) :: rest =>
      if 0 <? pixel then Some index else firstPositive rest
  end.

Definition findFirstNonZero (oneDimImage : list Z) (reversed : bool)
  : result (option Z) :=
  iterator ← (if reversed then reverseEnumerate oneDimImage
              else Ok (Viterbi.enumerate oneDimImage));
  Ok (firstPositive iterator).

Definition findFirstLastNonZeroPixels (oneDimImage : list Z)
  : result (option Z * option Z) :=
  top ← findFirstNonZero oneDimImage false;
  bottom ← findFirstNonZero oneDimImage true;
  Ok (top, bottom).

(** [extract]: one sample per column, zero where the column is blank. *)
Definition extract (image : Viterbi.BinaryImage) : result (list float) :=
  let columns := Viterbi.swapaxes image in
  foldM (λ output (entry : Z * list Z),
           let '(index, column) := entry in
           found ← findFirstLastNonZeroPixels column;
           match found with
           | (Some top, Some bottom) =>
               py_setitem output index
                 (NpFloat.div (NpFloat.of_Z (top + bottom)) (NpFloat.of_Z 2))
           | _ => Ok output
           end)
        (replicate (length columns) (NpFloat.of_Z 0))
        (Viterbi.enumerate columns).

End Naive.

(** ** [ecgdigitize/grid/frequency.py] and [grid/extraction.py] *)

Module Grid.

(** [np.sum(image, axis=0)] and [np.sum(image, axis=1)] *)
Definition columnDensity (image : Viterbi.BinaryImage) : list Z :=
  map (foldr Z.add 0) (Viterbi.swapaxes image).

Definition rowDensity (image : Viterbi.BinaryImage) : list Z :=
  map (foldr Z.add 0) image.

(** Truth of an optional NumPy number: [None] and zero are false. *)
Definition truthy (value : option float) : bool :=
  match value with
  | None => false
  | Some v => negb (NpFloat.eqb v (NpFloat.of_Z 0))
  end.

Definition unableToEstimate : Common.Failure :=
  Common.mkFailure "Unable to estimate the frequency of the grid in either directions.".

Section estimators.
(** [np.corrcoef(x, y)[0][1]], [scipy.signal.find_peaks] behind
    [_findFirstPeak], and the quadratic refinement of a peak. *)
Context {C : Type} (corrcoef : list Z → list Z → C).
Variable findFirstPeak : list C → option Z.
Variable refinePeak : list C → Z → result float.

Definition estimateFirstPeakLocation (signal : list C) (interpolate : bool)
  : result (option float) :=
  match findFirstPeak signal with
  | None => Ok None
  | Some index =>
      if interpolate then
        newPeak ← refinePeak signal index;
        Ok (Some newPeak)
      else Ok (Some (NpFloat.of_Z index))
  end.

Definition estimateFrequencyViaAutocorrelation (binaryImage : Viterbi.BinaryImage)
  : result Conversion.GridValue :=
  let columnDensity := columnDensity binaryImage in
  let rowDensity := rowDensity binaryImage in
  columnFrequencyStrengths ← Common.autocorrelation corrcoef columnDensity None;
  rowFrequencyStrengths ← Common.autocorrelation corrcoef rowDensity None;
  columnFrequency ← estimateFirstPeakLocation columnFrequencyStrengths true;
  rowFrequency ← estimateFirstPeakLocation rowFrequencyStrengths true;
  if truthy columnFrequency && truthy rowFrequency then
    Ok (Conversion.GridPeriod (default NpFloat.NaN columnFrequency))
  else if truthy rowFrequency then
    Ok (Conversion.GridPeriod (default NpFloat.NaN rowFrequency))
  else if truthy columnFrequency then
    Ok (Conversion.GridPeriod (default NpFloat.NaN columnFrequency))
  else Ok (Conversion.GridFailure unableToEstimate).

(** [signal/detection._gridIsDetectable] *)
Definition gridIsDetectable (image : Viterbi.BinaryImage) : result bool :=
  let columnDensity := columnDensity image in
  columnFrequencyStrengths ← Common.autocorrelation corrcoef columnDensity None;
  columnFrequency ← estimateFirstPeakLocation columnFrequencyStrengths false;
  Ok (bool_decide (columnFrequency ≠ None)).
End estimators.

(** *** [traceGridlines] *)

(** The order of [sorted] on pairs of numbers. *)
Definition pairLe (a b : Qc * Qc) : Prop :=
  (a.1 < b.1)%Qc ∨ (a.1 = b.1 ∧ (a.2 ≤ b.2)%Qc).

Global Instance pairLe_dec (a b : Qc * Qc) : Decision (pairLe a b).
Proof. unfold pairLe. apply _. Defined.

(** [sorted]: a stable insertion sort. *)
Fixpoint insertSorted (a : Qc * Qc) (l : list (Qc * Qc)) : list (Qc * Qc) :=
  match l with
  | [] => [a]
  | b :: rest =>
      if decide (pairLe b a) then b :: insertSorted a rest else a :: b :: rest
  end.

Definition sorted (l : list (Qc * Qc)) : list (Qc * Qc) :=
  foldr insertSorted [] l.

(** Lines whose first coordinates do not decrease from one to the next. *)
Definition nondecreasing (lines : list (Qc * Qc)) : Prop :=
  ∀ (i : nat) a b, lines !! i = Some a → lines !! S i = Some b → (a.1 ≤ b.1)%Qc.

Section traceGridlines.
(** [vision.houghLines] and the test of [vision.getLinesInDirection],
    [math.isclose(theta * 180 / math.pi, direction, abs_tol=2)]. *)
Variable houghLines : Viterbi.BinaryImage → Z → list (Qc * Qc).
Variable isClose : Qc → Z → bool.

Definition getLinesInDirection (lines : list (Qc * Qc)) (directionInDegrees : Z)
  : list (Qc * Qc) :=
  filter (λ line, isClose line.2 directionInDegrees = true) lines.

Definition getDistancesBetween (lines : list (Qc * Qc)) (inDirection : Z)
  : list Qc :=
  let orientedLines := sorted (getLinesInDirection lines inDirection) in
  CommonSequences.calculateDistancesBetweenValues orientedLines.

(** [common.mode(distances) if len(distances) > 0 else None] *)
Definition spacingOf (distances : list Qc) : result (option float) :=
  if (0 <? length distances)%nat then
    value ← Common.mode (map NpFloat.Fin distances);
    Ok (Some value)
  else Ok None.

Definition traceGridlines (binaryImage : Viterbi.BinaryImage) (houghThreshold : Z)
  : result (option float) :=
  let lines := houghLines binaryImage houghThreshold in
  let verticalDistances := getDistancesBetween lines 90 in
  let horizontalDistances := getDistancesBetween lines 0 in
  verticalGridSpacing ← spacingOf verticalDistances;
  horizontalGridSpacing ← spacingOf horizontalDistances;
  match verticalGridSpacing, horizontalGridSpacing with
  | None, _ => Ok horizontalGridSpacing
  | _, None => Ok verticalGridSpacing
  | Some vertical, Some horizontal =>
      Ok (Some (if NpFloat.ltb horizontal vertical then horizontal else vertical))
  end.
End traceGridlines.

End Grid.

(** ** [ecgdigitize/signal/detection.py]: the adaptive threshold *)

Module Detection.

(** The hedging factor is stepped down in IEEE double arithmetic, and
    where the loop stops depends on how [1.0 - 0.05 - ...] rounds; this
    one computation is therefore carried out on binary64 numbers. *)
Definition double : Set := PrimFloat.float.

(** [1.0], [0.6] and [0.05] as the nearest doubles. *)
Definition maxHedge : double := Eval cbv in PrimFloat.of_uint63 (Uint63.of_Z 1).
Definition minHedge : double :=
  Eval cbv in PrimFloat.div (PrimFloat.of_uint63 (Uint63.of_Z 6))
                           (PrimFloat.of_uint63 (Uint63.of_Z 10)).
Definition hedgeStep : double :=
  Eval cbv in PrimFloat.div (PrimFloat.of_uint63 (Uint63.of_Z 5))
                           (PrimFloat.of_uint63 (Uint63.of_Z 100)).

(** A Python [int] between 0 and 255 as a double. *)
Definition of_int (k : Z) : double := PrimFloat.of_uint63 (Uint63.of_Z k).

Section adaptive.
(** [ColorImage.toGrayscale], [GrayscaleImage.toBinary(threshold)],
    [_gridIsDetectable] and [_denoise]. *)
Variable toGrayscale : Conversion.ColorImage → Otsu.GrayscaleImage.
Variable toBinary : Otsu.GrayscaleImage → double → Viterbi.BinaryImage.
Variable gridIsDetectable : Viterbi.BinaryImage → result bool.
Variable denoise : Viterbi.BinaryImage → Viterbi.BinaryImage.

(** The [while] loop of [adaptive]. *)
Fixpoint hedge (fuel : nat) (grayscaleImage : Otsu.GrayscaleImage)
    (otsuThreshold : Z) (hedging : double) (binary : Viterbi.BinaryImage)
  : result Viterbi.BinaryImage :=
  match fuel with
  | O => OutOfFuel
  | S fuel' =>
      detectable ← gridIsDetectable binary;
      if detectable : bool then
        let hedging := PrimFloat.sub hedging hedgeStep in
        if PrimFloat.ltb hedging minHedge then Ok binary
        else
          hedge fuel' grayscaleImage otsuThreshold hedging
                (toBinary grayscaleImage (PrimFloat.mul (of_int otsuThreshold) hedging))
      else Ok binary
  end.

Definition adaptive (fuel : nat) (image : Conversion.ColorImage)
    (applyDenoising : bool) : result Viterbi.BinaryImage :=
  let grayscaleImage := toGrayscale image in
  otsuThreshold ← Otsu.otsuThreshold grayscaleImage;
  let hedging := maxHedge in
  let binary :=
    toBinary grayscaleImage (PrimFloat.mul (of_int otsuThreshold) hedging) in
  binary ← hedge fuel grayscaleImage otsuThreshold hedging binary;
  if applyDenoising then Ok (denoise binary) else Ok binary.
End adaptive.

(** The factors that follow [hedging] in the loop: each is the one
    before less the step and is not below [minHedge]; the step after
    the last one falls below it. *)
Fixpoint hedgingChain (hedging : double) (rest : list double) : Prop :=
  match rest with
  | [] => PrimFloat.ltb (PrimFloat.sub hedging hedgeStep) minHedge = true
  | next :: rest' =>
      next = PrimFloat.sub hedging hedgeStep ∧
      PrimFloat.ltb next minHedge = false ∧
      hedgingChain next rest'
  end.

(** The factors that [adaptive] can apply to the Otsu threshold. *)
Definition hedges : list double :=
  Eval cbv in
    (let next := λ h, PrimFloat.sub h hedgeStep in
     let h0 := maxHedge in
     let h1 := next h0 in let h2 := next h1 in let h3 := next h2 in
     let h4 := next h3 in let h5 := next h4 in let h6 := next h5 in
     let h7 := next h6 in
     [h0; h1; h2; h3; h4; h5; h6; h7]).

End Detection.

(** ** [ecgdigitize/ecgdigitize.py]: the rotation estimate *)

Module Rotation.
Local Open Scope R_scope.

(** [vision.houghLineToAngle] *)
Definition houghLineToAngle (line : R * R) : R :=
  let '(rho, theta) := line in theta * 180 / PI.

(** [a % b] on floating-point numbers, for a positive [b]. *)
Definition pymod (a b : R) : R := a - b * IZR (Int_part (a / b)).

(** [numpy.mean] of a list of numbers *)
Definition mean (values : list R) : R :=
  foldr Rplus 0 values / INR (length values).

Section estimate.
(** [grid.detection.thresholdApproach] and [vision.houghLines] *)
Variable thresholdApproach : Conversion.ColorImage → result Viterbi.BinaryImage.
Variable houghLines : Viterbi.BinaryImage → Z → list (R * R).

Definition estimateRotationAngle (image : Conversion.ColorImage)
    (houghThresholdFraction : Qc) : result (option R) :=
  binaryImage ← thresholdApproach image;
  houghThreshold ←
    NpFloat.to_int (NpFloat.Fin (Qc_of_Z (Z.of_nat (length (hd [] image)))
                                 * houghThresholdFraction)%Qc);
  let lines := houghLines binaryImage houghThreshold in
  let angles := map houghLineToAngle lines in
  let offsets := map (λ angle, pymod angle 90) angles in
  let candidates :=
    List.filter (λ offset, if Rlt_dec (Rabs offset) 30 then true else false)
                offsets in
  if (1 <? length candidates)%nat then
    let estimatedAngle := mean candidates in
    Ok (Some estimatedAngle)
  else Ok None.
End estimate.

End Rotation.

(** ** [Conversion.exportSignals] *)

Module Exporting.
Import Conversion.

(** [LeadId.value] *)
Definition value (leadId : LeadId) : Z :=
  match leadId with
  | I => 0 | II => 1 | III => 2 | aVR => 3 | aVL => 4 | aVF => 5
  | V1 => 6 | V2 => 7 | V3 => 8 | V4 => 9 | V5 => 10 | V6 => 11
  end.

(** [leads.sort(key=lambda pair: pair[0].value)]: a stable sort. *)
Fixpoint insertByValue {A : Type} (pair : LeadId * A) (leads : list (LeadId * A))
  : list (LeadId * A) :=
  match leads with
  | [] => [pair]
  | other :: rest =>
      if value other.1 <=? value pair.1 then other :: insertByValue pair rest
      else pair :: other :: rest
  end.

Definition sortByValue {A : Type} (leads : list (LeadId * A)) : list (LeadId * A) :=
  foldr insertByValue [] leads.

(** Sorted by [LeadId.value]. *)
Fixpoint ascending {A : Type} (leads : list (LeadId * A)) : Prop :=
  match leads with
  | [] => True
  | lead :: rest =>
      Forall (λ other : LeadId * A, value lead.1 ≤ value other.1) rest ∧
      ascending rest
  end.

(** [np.swapaxes(collated, 0, 1)] on rows of length [columns] *)
Definition swapaxes (collated : list (list float)) (columns : nat)
  : list (list float) :=
  map (λ i, map (λ signal, default NpFloat.NaN (signal !! i)) collated)
      (seq 0 columns).

Section exportSignals.
(** [str] on a NumPy number *)
Variable str : float → string.

(** [exportSignals], returning the lines that it writes to the file. *)
Definition exportSignals (leadSignals : list (LeadId * list float))
    (separator : string) : result (list string) :=
  let leads := sortByValue (CommonSequences.zipDict leadSignals) in
  if negb (1 <=? length leads)%nat then Raise AssertionError
  else
    first ← py_getitem leads 0;
    let lengthOfFirst := length first.2 in
    if negb (forallb (λ pair : LeadId * list float,
                        (length pair.2 =? lengthOfFirst)%nat) leads)
    then Raise AssertionError
    else
      let collated := map snd leads in
      let output := swapaxes collated lengthOfFirst in
      let outputLines :=
        map (λ row, String.append (String.concat separator (map str row))
                                  (String (Ascii.ascii_of_nat 10) EmptyString))
            output in
      Ok outputLines.
End exportSignals.

End Exporting.

(** ** Further invariants of the Viterbi search *)

Module ViterbiPaths.
Import Viterbi ViterbiInvariants.

(** A run of the column scan: it opens on a positive pixel at [first],
    meets no zero before [stop], and is closed by the zero at [stop]. *)
Definition closedRun (column : list Z) (first stop : Z) : Prop :=
  0 ≤ first < stop ∧
  (∃ pixel, column !! Z.to_nat first = Some pixel ∧ 0 < pixel) ∧
  (∀ i, first ≤ i < stop → ∃ pixel, column !! Z.to_nat i = Some pixel ∧ pixel ≠ 0) ∧
  column !! Z.to_nat stop = Some 0.

(** The start of a run is the top of the column or sits below a zero. *)
Definition opensRun (column : list Z) (first : Z) : Prop :=
  first = 0 ∨ column !! Z.to_nat (first - 1) = Some 0.

(** What the scan of a column has established after the pixels [seen],
    in the state it carries: the regions found and the start of the run
    that is open. *)
Record scanned (seen : list Z) (state : list (Z * Z) * option Z) : Prop :=
  mkScanned {
  runs_closed : ∀ run, run ∈ state.1 → closedRun seen run.1 run.2;
  runs_ordered :
    ∀ (i j : nat) earlier later, (i < j)%nat →
      state.1 !! i = Some earlier → state.1 !! j = Some later →
      earlier.2 < later.1;
  runs_seen : ∀ run, run ∈ state.1 → run.2 < Z.of_nat (length seen);
  runs_opened :
    Forall (λ pixel, 0 ≤ pixel) seen →
    ∀ run, run ∈ state.1 → opensRun seen run.1;
  run_open :
    ∀ first, state.2 = Some first →
      0 ≤ first < Z.of_nat (length seen) ∧
      (∃ pixel, seen !! Z.to_nat first = Some pixel ∧ 0 < pixel) ∧
      (∀ i, first ≤ i < Z.of_nat (length seen) →
         ∃ pixel, seen !! Z.to_nat i = Some pixel ∧ pixel ≠ 0) ∧
      (∀ run, run ∈ state.1 → run.2 < first);
  run_open_start :
    Forall (λ pixel, 0 ≤ pixel) seen →
    ∀ first, state.2 = Some first → opensRun seen first;
  run_shut :
    Forall (λ pixel, 0 ≤ pixel) seen → state.2 = None →
    seen = [] ∨ seen !! (length seen - 1)%nat = Some 0;
  runs_found :
    Forall (λ pixel, 0 ≤ pixel) seen →
    ∀ first stop, closedRun seen first stop → opensRun seen first →
      (first, stop) ∈ state.1;
  runs_none :
    state.1 = [] →
    ∀ (i : nat) pixel, seen !! i = Some pixel → 0 < pixel →
      ∃ first, state.2 = Some first ∧ first ≤ Z.of_nat i
}.

(** The pixel of the mask at a row and a column. *)
Definition pixelAt (binary : BinaryImage) (row column : Z) : option Z :=
  line ← binary !! Z.to_nat row; line !! Z.to_nat column.

(** From column [bound] on, the samples are numbers that satisfy
    [inside]. *)
Definition numbersFrom (inside : Qc → Prop) (bound : Z) (signal : list float)
  : Prop :=
  ∀ i : nat, bound ≤ Z.of_nat i → (i < length signal)%nat →
    ∃ q, signal !! i = Some (NpFloat.Fin q) ∧ inside q.

(** The sample of every point of the path is its ordinate. *)
Definition sampled (path : list Point) (signal : list float) : Prop :=
  ∀ p, p ∈ path → signal !! Z.to_nat (x p) = Some (NpFloat.Fin (y p)).

(** What else holds of the table of best paths: a record without
    predecessor is the starting record of a point with no candidate to
    its left; costs are not negative, at least one half behind a
    predecessor, and angles stay within a quarter turn. *)
Record tableBounds (pointsByColumn : list (list Point))
    (table : gmap Point Entry) : Prop := mkTableBounds {
  start_leftmost :
    ∀ p cost angle, table !! p = Some (cost, None, angle) →
      leftOf pointsByColumn (Z.to_nat (x p)) = [] ∧ cost = 0%R ∧ angle = 0%R;
  cost_nonneg :
    ∀ p cost previous angle, table !! p = Some (cost, previous, angle) →
      (0 <= cost)%R;
  cost_step :
    ∀ p cost q angle, table !! p = Some (cost, Some q, angle) → (/ 2 <= cost)%R;
  angle_range :
    ∀ p cost previous angle, table !! p = Some (cost, previous, angle) →
      (-90 <= angle <= 90)%R
}.

End ViterbiPaths.
(** * Proofs *)

(** ** Outcomes *)

Lemma bind_Ok {A B : Type} (a : A) (k : A → result B) : Ok a ≫= k = k a.
Proof. reflexivity. Qed.

Lemma bind_Ok_inv {A B : Type} (m : result A) (k : A → result B) (b : B) :
  m ≫= k = Ok b → ∃ a, m = Ok a ∧ k a = Ok b.
Proof. destruct m; simpl; intros H; try discriminate. eauto. Qed.


(** ** Sequences *)

Lemma slice_bound_inside (n i : Z) : 0 ≤ i ≤ n → slice_bound n i = i.
Proof.
  intros H. unfold slice_bound.
  destruct (Z.ltb_spec i 0); lia.
Qed.

Lemma slice_bound_beyond (n i : Z) : 0 ≤ n ≤ i → slice_bound n i = n.
Proof.
  intros H. unfold slice_bound.
  destruct (Z.ltb_spec i 0); lia.
Qed.

Lemma slice_bound_negative (n i : Z) : - n ≤ i < 0 → slice_bound n i = i + n.
Proof.
  intros H. unfold slice_bound.
  destruct (Z.ltb_spec i 0); lia.
Qed.

Lemma slice_bound_range (n i : Z) : 0 ≤ n → 0 ≤ slice_bound n i ≤ n.
Proof.
  intros H. unfold slice_bound.
  destruct (Z.ltb_spec i 0); lia.
Qed.

Lemma py_slice_to_end {A : Type} (l : list A) (k : nat) :
  (0 < k ≤ length l)%nat → py_slice l 0 (- Z.of_nat k) = take (length l - k) l.
Proof.
  intros Hk. unfold py_slice. cbv zeta.
  rewrite (slice_bound_inside _ 0) by lia.
  rewrite (slice_bound_negative _ (- Z.of_nat k)) by lia.
  change (Z.to_nat 0) with 0%nat. rewrite drop_0. f_equal. lia.
Qed.

Lemma py_slice_from_drop {A : Type} (l : list A) (k : nat) :
  py_slice_from l (Z.of_nat k) = drop k l.
Proof.
  unfold py_slice_from.
  destruct (decide (k ≤ length l)%nat).
  - rewrite slice_bound_inside by lia. by rewrite Nat2Z.id.
  - rewrite slice_bound_beyond by lia. rewrite Nat2Z.id.
    rewrite !drop_ge; [done|lia|lia].
Qed.

(** ** [common.autocorrelation] *)

Section autocorrelation.
Context {A C : Type} (corrcoef : list A → list A → C).

(** C8, as the code has it: for a projection vector of length N the
    autocorrelation vector holds the correlation coefficient of the
    signal with itself shifted by k for k = 0, 1, ..., N/2 - 1, and
    so has N/2 (rounded down) entries. *)
Theorem autocorrelation_offsets (signal : list A) :
  ∃ strengths : list C,
    Common.autocorrelation corrcoef signal None = Ok strengths ∧
    length strengths = (length signal `div` 2)%nat ∧
    ∀ k : nat, (k < length signal `div` 2)%nat →
      strengths !! k
      = Some (corrcoef (take (length signal - k) signal) (drop k signal)).
Proof.
  set (n := length signal).
  assert (Hhalf : Z.of_nat n `div` 2 = Z.of_nat (n `div` 2)).
  { by rewrite (Nat2Z.inj_div n 2). }
  pose proof (Nat.Div0.mul_div_le n 2) as Hle.
  unfold Common.autocorrelation, Common.shiftedPairs. fold n.
  cbv zeta. unfold default. rewrite Hhalf, Z.ltb_irrefl.
  generalize dependent (n `div` 2)%nat. intros h _ Hle. simpl.
  eexists. split; [reflexivity|]. split.
  - rewrite !length_map. unfold py_range. rewrite length_seqZ. lia.
  - intros k Hk. rewrite !list_lookup_fmap. unfold py_range.
    rewrite (lookup_seqZ_lt _ _ k) by lia. simpl.
    destruct (Z.eqb_spec (0 + Z.of_nat k) 0) as [Hz|Hnz]; simpl.
    + assert (k = 0%nat) as -> by lia.
      rewrite Nat.sub_0_r. unfold n. by rewrite firstn_all.
    + rewrite Z.add_0_l.
      rewrite py_slice_to_end by lia. by rewrite py_slice_from_drop.
Qed.
End autocorrelation.

(** C8, as stated, fails on a projection of length four: the vector has
    two entries, for the shifts 0 and 1, and none for the shift 2. *)
Lemma autocorrelation_offsets_counterexample :
  ¬ ∃ strengths : list (list Z * list Z),
      Common.autocorrelation pair [3; 1; 4; 1] None = Ok strengths ∧
      length strengths = (length [3; 1; 4; 1] `div` 2 + 1)%nat.
Proof.
  intros (strengths & Hrun & Hlen). vm_compute in Hrun.
  inversion Hrun; subst. discriminate Hlen.
Qed.

(** ** [otsu.climb1dHill] and [otsu.otsuThreshold] *)

Lemma py_getitem_range (n i : Z) :
  0 ≤ i < n → py_getitem (py_range 0 n) i = Ok i.
Proof.
  intros Hi. unfold py_getitem, py_position, py_range.
  rewrite length_seqZ.
  destruct (Z.leb_spec 0 i); [|lia].
  destruct (Z.ltb_spec i (Z.of_nat (Z.to_nat (n - 0)))); [|lia].
  simpl. rewrite (lookup_seqZ_lt 0 (n - 0) (Z.to_nat i)) by lia.
  f_equal. lia.
Qed.

Lemma gtb_asymmetric (a b : float) :
  NpFloat.gtb a b = true → NpFloat.gtb b a = false.
Proof.
  destruct a as [p| | |], b as [q| | |]; simpl; try done.
  intros H%bool_decide_eq_true. apply bool_decide_eq_false.
  intros H'. exact (Qclt_not_le _ _ H (Qclt_le_weak _ _ H')).
Qed.

Lemma gtb_transitive (a b c : float) :
  NpFloat.gtb a b = true → NpFloat.gtb b c = true → NpFloat.gtb a c = true.
Proof.
  destruct a as [p| | |], b as [q| | |], c as [r| | |]; simpl; try done.
  intros H1%bool_decide_eq_true H2%bool_decide_eq_true.
  apply bool_decide_eq_true. by apply Qclt_trans with q.
Qed.

Lemma gtb_nan_l (a b : float) : NpFloat.isnan a = true → NpFloat.gtb a b = false.
Proof. by destruct a, b. Qed.

Lemma gtb_irreflexive (a : float) : NpFloat.gtb a a = false.
Proof.
  destruct (NpFloat.gtb a a) eqn:H; [|done].
  by rewrite (gtb_asymmetric _ _ H) in H.
Qed.

Section single_peak.
Variable score : Z → float.
Variables lo m hi : Z.
Hypothesis peaked : Otsu.singlePeaked score lo m hi.

Local Abbreviation xs := (py_range 0 Otsu.L).

Lemma climbFrom_unfold (fuel : nat) (c : Z) (s : float) :
  Otsu.climbFrom NpFloat.gtb xs score (S fuel) c s
  = match Otsu.neighbors xs c with
    | (Some left_, Some right_) =>
        xl ← py_getitem xs left_;
        xr ← py_getitem xs right_;
        if NpFloat.gtb (score xl) s
        then Otsu.climbFrom NpFloat.gtb xs score fuel left_ (score xl)
        else if NpFloat.gtb (score xr) s
             then Otsu.climbFrom NpFloat.gtb xs score fuel right_ (score xr)
             else py_getitem xs c
    | _ => Raise NotImplementedError
    end.
Proof. reflexivity. Qed.

Lemma rising_chain (k : Z) :
  lo ≤ k < m → NpFloat.gtb (score m) (score k) = true.
Proof.
  destruct peaked as (_ & _ & _ & _ & Hup & _).
  intros Hk. remember (Z.to_nat (m - k - 1)) as d eqn:Hd.
  revert k Hk Hd. induction d as [|d IH]; intros k Hk Hd.
  - replace m with (k + 1) by lia. apply Hup. lia.
  - apply gtb_transitive with (score (k + 1)).
    + apply IH; lia.
    + apply Hup. lia.
Qed.

Lemma falling_chain (k : Z) :
  m < k ≤ hi → NpFloat.gtb (score m) (score k) = true.
Proof.
  destruct peaked as (_ & _ & _ & _ & _ & Hdown & _).
  intros Hk. remember (Z.to_nat (k - m - 1)) as d eqn:Hd.
  revert k Hk Hd. induction d as [|d IH]; intros k Hk Hd.
  - replace k with (m + 1) by lia. apply Hdown. lia.
  - apply gtb_transitive with (score (k - 1)).
    + apply IH; lia.
    + replace k with (k - 1 + 1) at 2 by lia. apply Hdown. lia.
Qed.

Lemma peak_is_argmax : Otsu.exhaustiveArgmax score m.
Proof.
  pose proof peaked as (? & ? & ? & ? & _ & _ & Hnum & Hnan).
  split; [lia|]. split; [apply Hnum; lia|].
  intros j Hj.
  destruct (decide (j < lo ∨ hi < j)) as [Hout|Hin].
  { apply gtb_nan_l, Hnan. lia. }
  destruct (decide (j = m)) as [->|Hne]; [apply gtb_irreflexive|].
  apply gtb_asymmetric.
  destruct (decide (j < m)); [apply rising_chain|apply falling_chain]; lia.
Qed.

Lemma argmax_is_peak (k : Z) : Otsu.exhaustiveArgmax score k → k = m.
Proof.
  pose proof peaked as (? & ? & ? & ? & _ & _ & Hnum & Hnan).
  intros (Hk & Hknum & Hkmax).
  destruct (decide (k = m)) as [|Hne]; [done|exfalso].
  destruct (decide (k < lo ∨ hi < k)) as [Hout|Hin].
  { rewrite Hnan in Hknum by lia. done. }
  specialize (Hkmax m ltac:(lia)).
  destruct (decide (k < m)).
  - rewrite rising_chain in Hkmax by lia. done.
  - rewrite falling_chain in Hkmax by lia. done.
Qed.

Lemma neighbors_inside (c : Z) :
  1 ≤ c ≤ 254 → Otsu.neighbors xs c = (Some (c - 1), Some (c + 1)).
Proof.
  intros Hc. unfold Otsu.neighbors.
  replace (length xs) with 256%nat by (by vm_compute).
  destruct (Z.ltb_spec 0 c); [|lia].
  destruct (Z.ltb_spec c (Z.of_nat 256 - 1)); [done|lia].
Qed.

Lemma climb_stops_at_peak (fuel : nat) :
  Otsu.climbFrom NpFloat.gtb xs score (S fuel) m (score m) = Ok m.
Proof.
  pose proof peaked as (? & ? & ? & ? & Hup & Hdown & Hnum & Hnan).
  rewrite climbFrom_unfold, neighbors_inside by lia.
  rewrite !py_getitem_range by (unfold Otsu.L; lia). simpl.
  assert (NpFloat.gtb (score (m - 1)) (score m) = false) as ->.
  { destruct (decide (lo < m)).
    - apply gtb_asymmetric. replace m with (m - 1 + 1) at 1 by lia.
      apply Hup. lia.
    - apply gtb_nan_l, Hnan. lia. }
  assert (NpFloat.gtb (score (m + 1)) (score m) = false) as ->.
  { destruct (decide (m < hi)).
    - apply gtb_asymmetric, Hdown. lia.
    - apply gtb_nan_l, Hnan. lia. }
  done.
Qed.

Lemma climb_from_the_right (d : nat) (fuel : nat) (c : Z) :
  c = m + Z.of_nat d → c ≤ hi → (d < fuel)%nat →
  Otsu.climbFrom NpFloat.gtb xs score fuel c (score c) = Ok m.
Proof.
  pose proof peaked as (? & ? & ? & ? & Hup & Hdown & Hnum & Hnan).
  revert fuel c. induction d as [|d IH]; intros fuel c Hc Hhi Hfuel.
  - destruct fuel as [|fuel]; [lia|].
    replace c with m by lia. apply climb_stops_at_peak.
  - destruct fuel as [|fuel]; [lia|].
    rewrite climbFrom_unfold, neighbors_inside by lia.
    rewrite !py_getitem_range by (unfold Otsu.L; lia). simpl.
    assert (NpFloat.gtb (score (c - 1)) (score c) = true) as ->.
    { replace c with (c - 1 + 1) at 2 by lia. apply Hdown. lia. }
    apply IH; lia.
Qed.

Lemma climb_from_the_left (d : nat) (fuel : nat) (c : Z) :
  c = m - Z.of_nat d → lo ≤ c → (d < fuel)%nat →
  Otsu.climbFrom NpFloat.gtb xs score fuel c (score c) = Ok m.
Proof.
  pose proof peaked as (? & ? & ? & ? & Hup & Hdown & Hnum & Hnan).
  revert fuel c. induction d as [|d IH]; intros fuel c Hc Hlo Hfuel.
  - destruct fuel as [|fuel]; [lia|].
    replace c with m by lia. apply climb_stops_at_peak.
  - destruct fuel as [|fuel]; [lia|].
    rewrite climbFrom_unfold, neighbors_inside by lia.
    rewrite !py_getitem_range by (unfold Otsu.L; lia). simpl.
    assert (NpFloat.gtb (score (c - 1)) (score c) = false) as ->.
    { destruct (decide (lo < c)).
      - apply gtb_asymmetric. replace c with (c - 1 + 1) at 1 by lia.
        apply Hup. lia.
      - apply gtb_nan_l, Hnan. lia. }
    assert (NpFloat.gtb (score (c + 1)) (score c) = true) as ->.
    { apply Hup. lia. }
    apply IH; lia.
Qed.

Lemma climb1dHill_finds_peak :
  lo ≤ 128 ≤ hi → Otsu.climb1dHill NpFloat.gtb xs score = Ok m.
Proof.
  intros Hstart. unfold Otsu.climb1dHill.
  pose proof peaked as (? & ? & ? & ? & _).
  replace (length xs) with 256%nat by (by vm_compute).
  change (Z.of_nat 256 `div` 2) with 128.
  rewrite py_getitem_range by (unfold Otsu.L; lia).
  remember 256%nat as fuel eqn:Hfuel.
  change (Ok 128 ≫= _) with (Otsu.climbFrom NpFloat.gtb xs score fuel 128 (score 128)).
  destruct (decide (m ≤ 128)).
  - apply (climb_from_the_right (Z.to_nat (128 - m))); lia.
  - apply (climb_from_the_left (Z.to_nat (m - 128))); lia.
Qed.
End single_peak.

Section climb_terminates.
Variable score : Z → float.

Local Abbreviation xs := (py_range 0 Otsu.L).

Lemma neighbors_range (c : Z) :
  Otsu.neighbors xs c
  = (if 0 <? c then Some (c - 1) else None,
     if c <? 255 then Some (c + 1) else None).
Proof.
  unfold Otsu.neighbors.
  by replace (length xs) with 256%nat by (by vm_compute).
Qed.

Lemma climb_leftwards (n fuel : nat) (c : Z) :
  c = Z.of_nat n → c ≤ 254 → (n < fuel)%nat →
  NpFloat.gtb (score (c + 1)) (score c) = false →
  Otsu.climbFrom NpFloat.gtb xs score fuel c (score c) ≠ OutOfFuel.
Proof.
  revert fuel c. induction n as [|n IH]; intros fuel c Hc Hmax Hfuel Hright.
  all: destruct fuel as [|fuel]; [lia|].
  all: rewrite climbFrom_unfold, neighbors_range.
  - destruct (Z.ltb_spec 0 c); [lia|]. by destruct (c <? 255).
  - destruct (Z.ltb_spec 0 c); [|lia]. destruct (Z.ltb_spec c 255); [|lia].
    rewrite !py_getitem_range by (unfold Otsu.L; lia). rewrite !bind_Ok.
    rewrite Hright.
    destruct (NpFloat.gtb (score (c - 1)) (score c)) eqn:Hleft; [|discriminate].
    apply IH; [lia|lia|lia|].
    replace (c - 1 + 1) with c by lia. by apply gtb_asymmetric.
Qed.

Lemma climb_rightwards (n fuel : nat) (c : Z) :
  c = 255 - Z.of_nat n → 1 ≤ c → (n < fuel)%nat →
  NpFloat.gtb (score (c - 1)) (score c) = false →
  Otsu.climbFrom NpFloat.gtb xs score fuel c (score c) ≠ OutOfFuel.
Proof.
  revert fuel c. induction n as [|n IH]; intros fuel c Hc Hmin Hfuel Hleft.
  all: destruct fuel as [|fuel]; [lia|].
  all: rewrite climbFrom_unfold, neighbors_range.
  - destruct (Z.ltb_spec c 255); [lia|]. by destruct (0 <? c).
  - destruct (Z.ltb_spec 0 c); [|lia]. destruct (Z.ltb_spec c 255); [|lia].
    rewrite !py_getitem_range by (unfold Otsu.L; lia). rewrite !bind_Ok.
    rewrite Hleft.
    destruct (NpFloat.gtb (score (c + 1)) (score c)) eqn:Hright; [|discriminate].
    apply IH; [lia|lia|lia|].
    replace (c + 1 - 1) with c by lia. by apply gtb_asymmetric.
Qed.

(** The climb over [range(256)] ends for every score: it returns a
    threshold or raises at an edge. *)
Lemma climb1dHill_terminates :
  Otsu.climb1dHill NpFloat.gtb xs score ≠ OutOfFuel.
Proof.
  unfold Otsu.climb1dHill.
  replace (length xs) with 256%nat by (by vm_compute).
  change (Z.of_nat 256 `div` 2) with 128.
  rewrite py_getitem_range by (unfold Otsu.L; lia). rewrite bind_Ok.
  change 256%nat with (S 255). rewrite climbFrom_unfold, neighbors_range.
  change (0 <? 128) with true. change (128 <? 255) with true. cbv iota.
  rewrite !py_getitem_range by (unfold Otsu.L; lia). rewrite !bind_Ok.
  destruct (NpFloat.gtb (score (128 - 1)) (score 128)) eqn:Hleft.
  - apply (climb_leftwards 127); [reflexivity|lia|lia|].
    by apply gtb_asymmetric.
  - destruct (NpFloat.gtb (score (128 + 1)) (score 128)) eqn:Hright; [|discriminate].
    apply (climb_rightwards 126); [reflexivity|lia|lia|].
    by apply gtb_asymmetric.
Qed.
End climb_terminates.

Lemma otsuThreshold_terminates (image : Otsu.GrayscaleImage) :
  Otsu.otsuThreshold image ≠ OutOfFuel.
Proof. apply climb1dHill_terminates. Qed.

Lemma singlePeakedb_sound (score : Z → float) (lo m hi : Z) :
  Otsu.singlePeakedb score lo m hi = true → Otsu.singlePeaked score lo m hi.
Proof.
  unfold Otsu.singlePeakedb, Otsu.singlePeaked, py_range.
  rewrite !andb_true_iff, !forallb_forall, !Z.leb_le.
  intros (((((((? & ?) & ?) & ?) & Hup) & Hdown) & Hnum) & Hnan).
  repeat split; try done.
  - intros k Hk. apply Hup, list_elem_of_In, elem_of_seqZ. lia.
  - intros k Hk. apply Hdown, list_elem_of_In, elem_of_seqZ. lia.
  - intros k Hk. apply negb_true_iff, Hnum, list_elem_of_In, elem_of_seqZ. lia.
  - intros k Hk. apply Hnan, list_elem_of_In, elem_of_app.
    rewrite !elem_of_seqZ. lia.
Qed.

(** C7, as the code has it: whenever the between-class variance itself
    has a single peak over [0, 255] (numbers on an interval that holds
    the starting point 128, strictly rising up to the peak and strictly
    falling after it), the hill climb of [otsuThreshold] returns that
    peak, which is the one exhaustive argmax. *)
Theorem otsuThreshold_single_peak (image : Otsu.GrayscaleImage) (lo m hi : Z) :
  Otsu.singlePeaked (Otsu.σ_B (Otsu.probabilities image)) lo m hi →
  lo ≤ 128 ≤ hi →
  Otsu.otsuThreshold image = Ok m ∧
  Otsu.exhaustiveArgmax (Otsu.σ_B (Otsu.probabilities image)) m ∧
  ∀ k, Otsu.exhaustiveArgmax (Otsu.σ_B (Otsu.probabilities image)) k → k = m.
Proof.
  intros Hpeak Hstart. split; [|split].
  - by apply (climb1dHill_finds_peak _ lo m hi).
  - by apply (peak_is_argmax _ lo m hi).
  - intros k. by apply (argmax_is_peak _ lo m hi).
Qed.

Lemma otsuThreshold_single_peak_witness :
  Otsu.singlePeaked (Otsu.σ_B (Otsu.probabilities Examples.rampImage)) 121 126 131 ∧
  121 ≤ 128 ≤ 131 ∧
  Otsu.otsuThreshold Examples.rampImage = Ok 126.
Proof.
  assert (Hpeak : Otsu.singlePeaked (Otsu.σ_B (Otsu.probabilities Examples.rampImage)) 121 126 131).
  { apply singlePeakedb_sound. vm_compute. reflexivity. }
  assert (Hstart : 121 ≤ 128 ≤ 131) by lia.
  split; [exact Hpeak|]. split; [exact Hstart|].
  exact (proj1 (otsuThreshold_single_peak Examples.rampImage 121 126 131 Hpeak Hstart)).
Defined.

(** C7, as stated, fails on a bimodal histogram: the variance is flat
    around 128, where the climb starts and stops, and nine times higher
    at 11. *)
Lemma otsuThreshold_counterexample :
  Otsu.bimodal (Otsu.histogram Examples.twoModeImage) ∧
  Otsu.otsuThreshold Examples.twoModeImage = Ok 128 ∧
  ¬ Otsu.exhaustiveArgmax (Otsu.σ_B (Otsu.probabilities Examples.twoModeImage)) 128.
Proof.
  split; [by vm_compute|]. split; [by vm_compute|].
  intros (_ & _ & Hmax). specialize (Hmax 11 ltac:(lia)).
  vm_compute in Hmax. discriminate Hmax.
Qed.

(** ** [viterbi.findContiguousRegions] and the candidate points *)

Section regions.
Import Viterbi.

(** The body of the scan of [findContiguousRegions]. *)
Local Abbreviation scan :=
  (λ (state : list (Z * Z) * option Z) (entry : Z * Z),
     let '(locations, start) := state in
     let '(index, pixel) := entry in
     match start with
     | None => if 0 <? pixel then (locations, Some index) else (locations, start)
     | Some s =>
         if pixel =? 0 then (locations ++ [(s, index)], None)
         else (locations, start)
     end).

Lemma scan_ones (entries : list (Z * Z)) (state : list (Z * Z) * option Z) :
  Forall (λ entry, entry.2 = 1) entries →
  (foldl scan state entries).1 = state.1.
Proof.
  intros Hones. revert state.
  induction Hones as [|[index pixel] entries Hone _ IH]; intros [locations start].
  - done.
  - simpl in Hone. subst pixel. cbn [foldl]. rewrite IH.
    by destruct start.
Qed.

(** C4, where the code leaves it: the pixels of a run that reaches
    the bottom edge of a column add nothing to the regions found
    above them, so that run yields no candidate point. *)
Theorem bottom_run_contributes_nothing (pixels : list Z) (n : nat) :
  findContiguousRegions (pixels ++ replicate n 1) = findContiguousRegions pixels.
Proof.
  unfold findContiguousRegions, enumerate.
  rewrite imap_app, foldl_app. apply scan_ones.
  apply Forall_forall. intros entry Hin%list_elem_of_In.
  apply elem_of_lookup_imap in Hin as (i & pixel & -> & Hpixel).
  apply lookup_replicate in Hpixel as [-> _]. done.
Qed.
End regions.

(** The docstring's own column, [---###--#-----#####]: the run on rows
    14 to 18 is lost, and a column that is one single run has no
    candidate at all. *)
Example findContiguousRegions_docstring :
  Viterbi.findContiguousRegions [0;0;0;1;1;1;0;0;1;0;0;0;0;0;1;1;1;1;1]
  = [(3, 6); (8, 9)] ∧
  Viterbi.findContiguousRegionCenters [0;0;0;1;1;1;0;0;1;0;0;0;0;0;1;1;1;1;1]
  = [4; 8] ∧
  Viterbi.getPointLocations [[0]; [1]; [1]] = [[]].
Proof. by vm_compute. Qed.

(** ** [viterbi.score] *)

Section score.
Import Viterbi.
Local Open Scope R_scope.

Lemma Q2R_Qc_zero : Q2R (this 0%Qc) = 0.
Proof. unfold Q2R. simpl. lra. Qed.

Lemma offsets_of_a_point (a : Point) :
  IZR (x a - x a) = 0 ∧ Q2R (y a - y a)%Qc = 0.
Proof.
  split.
  - by rewrite Z.sub_diag.
  - replace (y a - y a)%Qc with 0%Qc by (symmetry; apply Qcplus_opp_r).
    apply Q2R_Qc_zero.
Qed.

Lemma angleFromOffsets_origin : angleFromOffsets 0 0 = Raise ZeroDivisionError.
Proof.
  unfold angleFromOffsets, euclideanDistance, PyMath.sqrt.
  replace (0 * 0 + 0 * 0) with 0 by lra.
  destruct (Rlt_dec 0 0) as [Hlt|_]; [lra|].
  rewrite sqrt_0. simpl. unfold PyMath.truediv.
  by destruct (Req_dec_T 0 0).
Qed.

(** The cost of staying at the same point is not a number but a
    division by zero, whatever the point and the incoming angle. *)
Lemma score_same_point (a : Point) (α : R) :
  score a a α = Raise ZeroDivisionError.
Proof.
  unfold score, angleBetweenPoints.
  destruct (offsets_of_a_point a) as [-> ->].
  by rewrite angleFromOffsets_origin.
Qed.
End score.

(** ** Loops and subscripts *)

Lemma foldM_app {A B : Type} (step : B → A → result B) (acc : B) (xs ys : list A) :
  foldM step acc (xs ++ ys) = acc' ← foldM step acc xs; foldM step acc' ys.
Proof.
  revert acc. induction xs as [|x xs IH]; intros acc; simpl; [done|].
  destruct (step acc x) as [acc'| |]; simpl; [apply IH|done|done].
Qed.

Lemma foldM_concat {A B : Type} (step : B → A → result B) (acc : B) (xss : list (list A)) :
  foldM step acc (Common.flatten xss) = foldM (λ acc xs, foldM step acc xs) acc xss.
Proof.
  unfold Common.flatten.
  revert acc. induction xss as [|xs xss IH]; intros acc; [done|].
  cbn [mjoin list_join foldM]. rewrite foldM_app.
  destruct (foldM step acc xs) as [acc'| |]; simpl; [apply IH|done|done].
Qed.

Lemma mapM_Forall2 {A B : Type} (f : A → result B) (xs : list A) (ys : list B) :
  mapM f xs = Ok ys → Forall2 (λ x y, f x = Ok y) xs ys.
Proof.
  revert ys. induction xs as [|x xs IH]; simpl; intros ys H.
  - inversion H. constructor.
  - apply bind_Ok_inv in H as (y & Hy & H).
    apply bind_Ok_inv in H as (ys' & Hys & H).
    inversion H; subst. constructor; [done|]. by apply IH.
Qed.

Lemma mapM_defined {A B : Type} (f : A → result B) (xs : list A) :
  (∀ x, x ∈ xs → ∃ y, f x = Ok y) →
  ∃ ys, mapM f xs = Ok ys ∧ Forall2 (λ x y, f x = Ok y) xs ys.
Proof.
  induction xs as [|x xs IH]; intros Hf; simpl.
  - eexists. split; [done|constructor].
  - destruct (Hf x) as (y & Hy); [left|].
    destruct IH as (ys & Hys & Hall); [intros z Hz; apply Hf; by right|].
    rewrite Hy. simpl. rewrite Hys. simpl.
    eexists. split; [done|]. by constructor.
Qed.

Lemma py_position_inside (n : nat) (i : Z) :
  0 ≤ i < Z.of_nat n → py_position n i = Ok (Z.to_nat i).
Proof.
  intros Hi. unfold py_position.
  destruct (Z.leb_spec 0 i); [|lia].
  by destruct (Z.ltb_spec i (Z.of_nat n)); [|lia].
Qed.

Lemma py_getitem_inside {A : Type} (l : list A) (i : Z) :
  0 ≤ i < Z.of_nat (length l) →
  ∃ a, py_getitem l i = Ok a ∧ l !! Z.to_nat i = Some a.
Proof.
  intros Hi. unfold py_getitem. rewrite py_position_inside by done. simpl.
  destruct (lookup_lt_is_Some_2 l (Z.to_nat i)) as [a Ha]; [lia|].
  rewrite Ha. eauto.
Qed.

Lemma py_setitem_inside {A : Type} (l : list A) (i : Z) (v : A) :
  0 ≤ i < Z.of_nat (length l) →
  py_setitem l i v = Ok (<[Z.to_nat i := v]> l).
Proof.
  intros Hi. unfold py_setitem. by rewrite py_position_inside.
Qed.

(** The elements of a slice sit between its two bounds. *)
Lemma elem_of_py_slice {A : Type} (l : list A) (lo hi : Z) (a : A) :
  a ∈ py_slice l lo hi →
  ∃ i : nat, l !! i = Some a ∧
    slice_bound (Z.of_nat (length l)) lo ≤ Z.of_nat i
      < slice_bound (Z.of_nat (length l)) hi.
Proof.
  unfold py_slice. cbv zeta.
  pose proof (slice_bound_range (Z.of_nat (length l)) lo ltac:(lia)).
  set (a' := slice_bound _ lo) in *. set (b' := slice_bound _ hi).
  intros Hin. apply list_elem_of_lookup in Hin as (j & Hj).
  apply lookup_take_Some in Hj as [Hj Hlt].
  rewrite lookup_drop in Hj.
  exists (Z.to_nat a' + j)%nat. split; [done|lia].
Qed.

(** ** The transition cost between two columns *)

Section cost_defined.
Import Viterbi.
Local Open Scope R_scope.

Lemma euclideanDistance_defined (dx dy : R) :
  euclideanDistance dx dy = Ok (sqrt (dx * dx + dy * dy)).
Proof.
  unfold euclideanDistance, PyMath.sqrt.
  destruct (Rlt_dec (dx * dx + dy * dy) 0) as [Hneg|_]; [|done].
  pose proof (Rle_0_sqr dx). pose proof (Rle_0_sqr dy).
  unfold Rsqr in *. lra.
Qed.

Lemma distance_positive (dx dy : R) : dx ≠ 0 → 0 < sqrt (dx * dx + dy * dy).
Proof.
  intros Hdx. apply sqrt_lt_R0.
  pose proof (Rsqr_pos_lt dx Hdx). pose proof (Rle_0_sqr dy).
  unfold Rsqr in *. lra.
Qed.

Lemma sine_bounded (dx dy : R) :
  dx ≠ 0 → Rabs (dy / sqrt (dx * dx + dy * dy)) <= 1.
Proof.
  intros Hdx. pose proof (distance_positive dx dy Hdx) as Hd.
  unfold Rdiv. rewrite Rabs_mult, (Rabs_inv (sqrt _)).
  rewrite (Rabs_pos_eq (sqrt _)) by lra.
  apply (Rmult_le_reg_r (sqrt (dx * dx + dy * dy))); [done|].
  rewrite Rmult_assoc, Rinv_l, Rmult_1_r, Rmult_1_l by lra.
  rewrite <- sqrt_Rsqr_abs. apply sqrt_le_1_alt.
  pose proof (Rle_0_sqr dx). unfold Rsqr in *. lra.
Qed.

Lemma angleFromOffsets_defined (dx dy : R) :
  dx ≠ 0 → ∃ angle, angleFromOffsets dx dy = Ok angle.
Proof.
  intros Hdx. unfold angleFromOffsets.
  rewrite euclideanDistance_defined. simpl.
  unfold PyMath.truediv.
  destruct (Req_dec_T (sqrt (dx * dx + dy * dy)) 0) as [Hzero|_].
  { pose proof (distance_positive dx dy Hdx). lra. }
  simpl. unfold PyMath.asin.
  destruct (Rle_dec (Rabs (dy / sqrt (dx * dx + dy * dy))) 1) as [_|Hout].
  - simpl. eauto.
  - by destruct Hout; apply sine_bounded.
Qed.

Lemma angleBetweenPoints_defined (a b : Point) :
  x a ≠ x b → ∃ angle, angleBetweenPoints a b = Ok angle.
Proof.
  intros Hx. unfold angleBetweenPoints. apply angleFromOffsets_defined.
  apply not_0_IZR. lia.
Qed.

Lemma score_defined (currentPoint candidatePoint : Point) (candidateAngle : R) :
  x candidatePoint ≠ x currentPoint →
  ∃ cost, score currentPoint candidatePoint candidateAngle = Ok cost.
Proof.
  intros Hx. unfold score.
  destruct (angleBetweenPoints_defined candidatePoint currentPoint Hx) as (angle & ->).
  simpl. unfold distanceBetweenPoints. rewrite euclideanDistance_defined. simpl.
  eauto.
Qed.

Lemma minBy_defined {A : Type} (key : A → R) (l : list A) :
  l ≠ [] → ∃ a, PyMath.minBy key l = Ok a ∧ a ∈ l.
Proof.
  destruct l as [|a l]; [done|]. intros _. simpl.
  eexists. split; [done|].
  assert (H : ∀ best, foldl (λ best c, if Rlt_dec (key c) (key best) then c else best)
                            best l ∈ best :: l).
  { induction l as [|c l IH]; intros best; simpl; [left|].
    destruct (Rlt_dec (key c) (key best)).
    - right. apply IH.
    - specialize (IH best). apply elem_of_cons in IH as [->|?]; [left|].
      right. by right. }
  apply H.
Qed.
End cost_defined.

(** ** The candidate points, column by column *)

Lemma elem_of_flatten {A : Type} (a : A) (ls : list (list A)) :
  a ∈ Common.flatten ls ↔ ∃ l, a ∈ l ∧ l ∈ ls.
Proof. apply list_elem_of_join. Qed.

Section candidates.
Import Viterbi ViterbiInvariants.

Lemma getPointLocations_length (binary : BinaryImage) :
  length (getPointLocations binary) = width binary.
Proof.
  unfold getPointLocations, enumerate, swapaxes.
  by rewrite length_map, length_imap, length_map, length_seq.
Qed.

Lemma getPointLocations_columnwise (binary : BinaryImage) :
  columnwise (getPointLocations binary).
Proof.
  intros c column p Hc Hp. unfold getPointLocations, enumerate in Hc.
  rewrite list_lookup_fmap, list_lookup_imap in Hc.
  destruct (swapaxes binary !! c) as [pixels|]; [|done].
  simpl in Hc. injection Hc as <-.
  apply list_elem_of_fmap in Hp as (row & -> & _). done.
Qed.

Variable pointsByColumn : list (list Point).
Hypothesis columns : columnwise pointsByColumn.

Lemma candidate_column (p : Point) :
  p ∈ Common.flatten pointsByColumn →
  0 ≤ x p < Z.of_nat (length pointsByColumn) ∧
  ∃ column, pointsByColumn !! Z.to_nat (x p) = Some column ∧ p ∈ column.
Proof.
  intros Hp. apply elem_of_flatten in Hp as (column & Hp & Hcolumn).
  apply list_elem_of_lookup in Hcolumn as (c & Hc).
  pose proof (columns c column p Hc Hp) as Hx.
  pose proof (lookup_lt_Some _ _ _ Hc).
  split; [lia|]. exists column. rewrite Hx, Nat2Z.id. done.
Qed.

Lemma leftOf_candidate (c : nat) (p : Point) :
  p ∈ leftOf pointsByColumn c →
  p ∈ Common.flatten pointsByColumn ∧ x p < Z.of_nat c.
Proof.
  intros Hp. apply elem_of_flatten in Hp as (column & Hp & Hcolumn).
  apply list_elem_of_lookup in Hcolumn as (i & Hi).
  apply lookup_take_Some in Hi as [Hi Hlt].
  split.
  - apply elem_of_flatten. exists column. split; [done|].
    by apply list_elem_of_lookup_2 with i.
  - rewrite (columns i column p Hi Hp). lia.
Qed.

Lemma candidate_leftOf (c : nat) (p : Point) :
  p ∈ Common.flatten pointsByColumn → x p < Z.of_nat c →
  p ∈ leftOf pointsByColumn c.
Proof.
  intros Hp Hx. destruct (candidate_column p Hp) as (Hrange & column & Hc & Hin).
  apply elem_of_flatten. exists column. split; [done|].
  apply list_elem_of_lookup. exists (Z.to_nat (x p)).
  apply lookup_take_Some. split; [done|lia].
Qed.

Lemma slice_candidates (lo right : Z) (p : Point) :
  0 ≤ right ≤ Z.of_nat (length pointsByColumn) →
  p ∈ Common.flatten (py_slice pointsByColumn lo right) →
  p ∈ leftOf pointsByColumn (Z.to_nat right).
Proof.
  intros Hright Hp. apply elem_of_flatten in Hp as (column & Hp & Hcolumn).
  apply elem_of_py_slice in Hcolumn as (i & Hi & _ & Hhi).
  rewrite slice_bound_inside in Hhi by lia.
  apply elem_of_flatten. exists column. split; [done|].
  apply list_elem_of_lookup. exists i.
  apply lookup_take_Some. split; [done|lia].
Qed.

Lemma slice_from_start (right : Z) :
  0 ≤ right ≤ Z.of_nat (length pointsByColumn) →
  py_slice pointsByColumn 0 right = take (Z.to_nat right) pointsByColumn.
Proof.
  intros Hright. unfold py_slice. cbv zeta.
  rewrite (slice_bound_inside _ 0), (slice_bound_inside _ right) by lia.
  change (Z.to_nat 0) with 0%nat. rewrite drop_0. f_equal. lia.
Qed.

(** *** The look-back window *)

Section window.
Variable rightColumnIndex : Z.

Local Abbreviation window :=
  (λ left_, Common.flatten (py_slice pointsByColumn left_ rightColumnIndex)).

Lemma expandLeft_defined (n fuel : nat) :
  (n + 1 < fuel)%nat →
  ∃ left_,
    expandLeft pointsByColumn fuel rightColumnIndex (Z.of_nat n)
               (window (Z.of_nat n))
    = Ok (window left_) ∧
    (window left_ = [] → window 0 = []).
Proof.
  revert fuel. induction n as [|n IH]; intros fuel Hfuel.
  - destruct fuel as [|[|fuel]]; [lia|lia|].
    cbn [expandLeft]. change (Z.of_nat 0) with 0.
    destruct (window 0) as [|p found] eqn:Hwindow.
    + change (0 - 1) with (-1). simpl.
      destruct (length (window (-1)%Z) =? 0)%nat; simpl; eauto.
    + simpl. exists 0. rewrite Hwindow. done.
  - destruct fuel as [|fuel]; [lia|].
    cbn [expandLeft].
    destruct (window (Z.of_nat (S n))) as [|p found] eqn:Hwindow.
    + replace (Z.of_nat (S n) - 1) with (Z.of_nat n) by lia.
      destruct (Z.leb_spec 0 (Z.of_nat (S n))); [|lia]. simpl.
      apply IH. lia.
    + simpl. exists (Z.of_nat (S n)). rewrite Hwindow. done.
Qed.
End window.

(** *** [getAdjacent] *)

Lemma getAdjacent_defined (table : gmap Point Entry)
    (startingColumn lookBack : Z) :
  0 ≤ startingColumn ≤ Z.of_nat (length pointsByColumn) →
  (∀ q, q ∈ leftOf pointsByColumn (Z.to_nat startingColumn) →
        is_Some (table !! q)) →
  ∃ adjacent,
    getAdjacent pointsByColumn table startingColumn lookBack = Ok adjacent ∧
    (∀ triple, triple ∈ adjacent →
       triple.1.2 ∈ leftOf pointsByColumn (Z.to_nat startingColumn) ∧
       ∃ previous, table !! triple.1.2 = Some (triple.1.1, previous, triple.2)) ∧
    (adjacent = [] → leftOf pointsByColumn (Z.to_nat startingColumn) = []).
Proof.
  intros Hstart Hrecorded. unfold getAdjacent. cbv zeta.
  set (left_ := Common.lowerClamp (startingColumn - lookBack) 0).
  assert (Hleft : 0 ≤ left_).
  { unfold left_, Common.lowerClamp.
    destruct (Z.ltb_spec 0 (startingColumn - lookBack)); lia. }
  destruct (expandLeft_defined startingColumn (Z.to_nat left_) (Z.to_nat left_ + 2))
    as (final & Hrun & Hempty); [lia|].
  rewrite Z2Nat.id in Hrun by done. rewrite Hrun. simpl.
  set (found := Common.flatten (py_slice pointsByColumn final startingColumn)) in *.
  assert (Hfound : ∀ q, q ∈ found → q ∈ leftOf pointsByColumn (Z.to_nat startingColumn)).
  { intros q Hq. by apply slice_candidates with final. }
  destruct (mapM_defined
              (λ point, match table !! point with
                        | None => Raise AssertionError
                        | Some (pointScore, _, pointAngle) =>
                            Ok (pointScore, point, pointAngle)
                        end) found) as (adjacent & -> & Hall).
  { intros q Hq. destruct (Hrecorded q (Hfound q Hq)) as [[[cost previous] angle] Hq'].
    rewrite Hq'. eauto. }
  exists adjacent. split; [done|]. split.
  - intros triple Hin.
    apply list_elem_of_lookup in Hin as (i & Hi).
    destruct (Forall2_lookup_r _ _ _ _ _ Hall Hi) as (q & Hq & Hlook).
    apply list_elem_of_lookup_2 in Hq.
    destruct (table !! q) as [[[cost previous] angle]|] eqn:Htable; [|done].
    injection Hlook as <-. simpl. split; [by apply Hfound|]. eauto.
  - intros ->. apply Forall2_nil_inv_r in Hall.
    unfold leftOf. rewrite <- slice_from_start by done. by apply Hempty.
Qed.
End candidates.

(** ** Building the table of best paths *)

Lemma foldM_prefix_invariant {A B : Type} (step : B → A → result B)
    (P : list A → B → Prop) (xs : list A) (acc : B) :
  P [] acc →
  (∀ done x rest acc, xs = done ++ x :: rest → P done acc →
     ∃ acc', step acc x = Ok acc' ∧ P (done ++ [x]) acc') →
  ∃ acc', foldM step acc xs = Ok acc' ∧ P xs acc'.
Proof.
  intros Hstart Hstep.
  assert (H : ∀ todo done acc, xs = done ++ todo → P done acc →
                ∃ acc', foldM step acc todo = Ok acc' ∧ P xs acc').
  { induction todo as [|x todo IH]; intros done acc' Hxs Hacc; simpl.
    - rewrite app_nil_r in Hxs. subst. eauto.
    - destruct (Hstep done x todo acc' Hxs Hacc) as (acc'' & -> & Hacc''). simpl.
      apply (IH (done ++ [x])); [|done]. by rewrite <- app_assoc. }
  by apply (H xs []).
Qed.

Section table.
Import Viterbi ViterbiInvariants.

Variable pointsByColumn : list (list Point).
Hypothesis columns : columnwise pointsByColumn.

Local Abbreviation covers := (ViterbiInvariants.covers pointsByColumn).

Lemma insert_seed_invariant (table : gmap Point Entry) (p : Point) :
  tableInvariant pointsByColumn table →
  p ∈ Common.flatten pointsByColumn →
  tableInvariant pointsByColumn (<[p := seed]> table).
Proof.
  intros [Hcandidate Hprevious Hseed] Hp. split.
  - intros q [Hq|[_ Hq]]%lookup_insert_is_Some; [by subst|by apply Hcandidate].
  - intros q cost r angle Hq.
    apply lookup_insert_Some in Hq as [[_ Hq]|[Hne Hq]]; [done|].
    destruct (Hprevious q cost r angle Hq) as [Hr Hx]. split; [|done].
    apply lookup_insert_is_Some. destruct (decide (p = r)); eauto.
  - intros q entry Hq Hleft.
    apply lookup_insert_Some in Hq as [[_ Hq]|[Hne Hq]]; [done|by eapply Hseed].
Qed.

Lemma insert_step_invariant (table : gmap Point Entry) (p best : Point)
    (cost angle : R) :
  tableInvariant pointsByColumn table →
  p ∈ Common.flatten pointsByColumn →
  best ∈ leftOf pointsByColumn (Z.to_nat (x p)) →
  is_Some (table !! best) →
  tableInvariant pointsByColumn (<[p := (cost, Some best, angle)]> table).
Proof.
  intros [Hcandidate Hprevious Hseed] Hp Hbest Hrecorded. split.
  - intros q [Hq|[_ Hq]]%lookup_insert_is_Some; [by subst|by apply Hcandidate].
  - intros q cost' r angle' Hq.
    apply lookup_insert_Some in Hq as [[<- Hq]|[Hne Hq]].
    + injection Hq as _ <- _. split.
      * apply lookup_insert_is_Some. destruct (decide (p = best)); eauto.
      * apply (leftOf_candidate _ columns) in Hbest as [_ Hx].
        destruct (candidate_column _ columns p Hp) as (Hrange & _). lia.
    + destruct (Hprevious q cost' r angle' Hq) as [Hr Hx]. split; [|done].
      apply lookup_insert_is_Some. destruct (decide (p = r)); eauto.
  - intros q entry Hq Hleft.
    apply lookup_insert_Some in Hq as [[<- Hq]|[Hne Hq]]; [|by eapply Hseed].
    rewrite Hleft in Hbest. by apply elem_of_nil in Hbest.
Qed.

Lemma visit_defined (table : gmap Point Entry) (p : Point) :
  tableInvariant pointsByColumn table →
  covers (Z.to_nat (x p)) table →
  p ∈ Common.flatten pointsByColumn →
  ∃ table', visit pointsByColumn table p = Ok table' ∧
    tableInvariant pointsByColumn table' ∧
    is_Some (table' !! p) ∧
    ∀ q, is_Some (table !! q) → is_Some (table' !! q).
Proof.
  intros Hinv Hcovers Hp.
  destruct (candidate_column _ columns p Hp) as (Hrange & _).
  unfold visit, index.
  destruct (getAdjacent_defined pointsByColumn table (x p) minimumLookBack)
    as (adjacent & -> & Hadjacent & Hempty); [lia|done|]. simpl.
  assert (Hkept : ∀ (entry : Entry) q,
             is_Some (table !! q) → is_Some (<[p := entry]> table !! q)).
  { intros entry q Hq. apply lookup_insert_is_Some.
    destruct (decide (p = q)); eauto. }
  destruct adjacent as [|first others] eqn:Hlist.
  { simpl. eexists. split; [done|]. split; [by apply insert_seed_invariant|].
    split; [|by apply Hkept]. rewrite lookup_insert_eq. eauto. }
  rewrite <- Hlist in *. clear Hempty.
  replace (length adjacent =? 0)%nat with false by (by rewrite Hlist).
  destruct (mapM_defined
              (λ triple : R * Point * R,
                 let '(cadidateScore, candidatePoint, candidateAngle) := triple in
                 s ← score p candidatePoint candidateAngle;
                 Ok ((s + cadidateScore)%R, candidatePoint)) adjacent)
    as (scored & -> & Hscored).
  { intros [[candidateScore candidatePoint] candidateAngle] Hin.
    destruct (Hadjacent _ Hin) as [Hleft _]. simpl in Hleft.
    apply (leftOf_candidate _ columns) in Hleft as [_ Hx].
    destruct (score_defined p candidatePoint candidateAngle) as (cost & ->); [lia|].
    simpl. eauto. }
  simpl.
  destruct (minBy_defined fst scored) as ([bestScore bestPoint] & -> & Hbest).
  { intros ->. apply Forall2_nil_inv_r in Hscored. by rewrite Hlist in Hscored. }
  simpl.
  apply list_elem_of_lookup in Hbest as (i & Hi).
  destruct (Forall2_lookup_r _ _ _ _ _ Hscored Hi)
    as ([[candidateScore candidatePoint] candidateAngle] & Htriple & Hcost).
  apply list_elem_of_lookup_2 in Htriple.
  destruct (Hadjacent _ Htriple) as [Hleft (previous & Hrecorded)].
  simpl in Hleft, Hrecorded.
  apply bind_Ok_inv in Hcost as (cost & _ & Hcost).
  injection Hcost as _ <-.
  pose proof (leftOf_candidate _ columns _ _ Hleft) as [_ Hx].
  destruct (angleBetweenPoints_defined candidatePoint p) as (angle & ->); [lia|].
  simpl. eexists. split; [done|]. split.
  { apply insert_step_invariant; eauto. }
  split; [|by apply Hkept]. rewrite lookup_insert_eq. eauto.
Qed.

Lemma leftOf_next (c : nat) (column : list Point) :
  pointsByColumn !! c = Some column →
  leftOf pointsByColumn (S c) = leftOf pointsByColumn c ++ column.
Proof.
  intros Hc. unfold leftOf, Common.flatten.
  rewrite (take_S_r _ _ _ Hc), join_app. simpl. by rewrite app_nil_r.
Qed.

Lemma visit_column (table : gmap Point Entry) (c : nat) (column : list Point) :
  pointsByColumn !! c = Some column →
  tableInvariant pointsByColumn table → covers c table →
  ∃ table', foldM (visit pointsByColumn) table column = Ok table' ∧
    tableInvariant pointsByColumn table' ∧ covers (S c) table'.
Proof.
  intros Hc Hinv Hcovers.
  destruct (foldM_prefix_invariant (visit pointsByColumn)
              (λ done table, tableInvariant pointsByColumn table ∧
                             covers c table ∧
                             ∀ q, q ∈ done → is_Some (table !! q))
              column table) as (table' & Hrun & Hinv' & Hcovers' & Hdone).
  { split; [done|]. split; [done|]. intros q Hq. by apply elem_of_nil in Hq. }
  { intros done p rest table0 Hsplit (Hinv0 & Hcovers0 & Hdone0).
    assert (Hp : p ∈ column) by (rewrite Hsplit; set_solver).
    assert (Hx : x p = Z.of_nat c) by (by apply (columns c column)).
    destruct (visit_defined table0 p) as (table1 & -> & Hinv1 & Hp1 & Hkept).
    - done.
    - by rewrite Hx, Nat2Z.id.
    - apply elem_of_flatten. exists column. split; [done|].
      by apply list_elem_of_lookup_2 with c.
    - eexists. split; [done|]. split; [done|]. split.
      + intros q Hq. by apply Hkept, Hcovers0.
      + intros q [Hq| ->%list_elem_of_singleton]%elem_of_app; [|done].
        by apply Hkept, Hdone0. }
  exists table'. split; [done|]. split; [done|].
  intros q Hq. rewrite (leftOf_next c column Hc) in Hq.
  apply elem_of_app in Hq as [Hq|Hq]; eauto.
Qed.

Lemma seeds_recorded (points : list Point) (table : gmap Point Entry) (q : Point) :
  foldl (λ table point, <[point := seed]> table) table points !! q
  = if bool_decide (q ∈ points) then Some seed else table !! q.
Proof.
  revert table. induction points as [|p points IH]; intros table; simpl; [done|].
  rewrite IH. destruct (decide (q ∈ points)) as [Hin|Hout].
  - rewrite !bool_decide_eq_true_2; [done|by right|done].
  - rewrite (bool_decide_eq_false_2 (q ∈ points)) by done.
    destruct (decide (p = q)) as [->|Hne].
    + rewrite lookup_insert_eq, bool_decide_eq_true_2; [done|left].
    + rewrite lookup_insert_ne by done.
      rewrite bool_decide_eq_false_2; [done|].
      intros [->|?]%elem_of_cons; done.
Qed.

Lemma buildTable_defined :
  ∃ table, buildTable pointsByColumn = Ok table ∧
    tableInvariant pointsByColumn table ∧
    ∀ p, p ∈ Common.flatten pointsByColumn → is_Some (table !! p).
Proof.
  unfold buildTable. cbv zeta.
  change 1 with (Z.of_nat 1) at 2. rewrite py_slice_from_drop.
  set (base := foldl _ ∅ _).
  assert (Hfirst : Common.flatten (py_slice pointsByColumn 0 1)
                   = leftOf pointsByColumn 1).
  { destruct pointsByColumn as [|column rest]; [done|].
    unfold leftOf. by rewrite slice_from_start by (simpl; lia). }
  assert (Hbase : ∀ q, base !! q
                       = if bool_decide (q ∈ leftOf pointsByColumn 1)
                         then Some seed else None).
  { intros q. unfold base. by rewrite seeds_recorded, Hfirst, lookup_empty. }
  assert (Hinv : tableInvariant pointsByColumn base).
  { split.
    - intros q [entry Hq]. rewrite Hbase in Hq. case_bool_decide; [|done].
      by apply (leftOf_candidate _ columns 1).
    - intros q cost r angle Hq. rewrite Hbase in Hq. by case_bool_decide.
    - intros q entry Hq _. rewrite Hbase in Hq. case_bool_decide; congruence. }
  assert (Hcovers : covers 1 base).
  { intros q Hq. rewrite Hbase, bool_decide_eq_true_2 by done. eauto. }
  rewrite foldM_concat.
  destruct (foldM_prefix_invariant
              (λ table column, foldM (visit pointsByColumn) table column)
              (λ done table, tableInvariant pointsByColumn table ∧
                             covers (1 + length done) table)
              (drop 1 pointsByColumn) base)
    as (table & Hrun & Hinv' & Hcovers').
  { by rewrite Nat.add_0_r. }
  { intros done column rest table0 Hsplit (Hinv0 & Hcovers0).
    assert (Hc : pointsByColumn !! (1 + length done)%nat = Some column).
    { rewrite <- lookup_drop, Hsplit. by rewrite list_lookup_middle. }
    destruct (visit_column table0 _ column Hc Hinv0 Hcovers0)
      as (table1 & -> & Hinv1 & Hcovers1).
    eexists. split; [done|]. split; [done|].
    replace (1 + length (done ++ [column]))%nat with (S (1 + length done)); [done|].
    rewrite length_app. simpl. lia. }
  exists table. split; [done|]. split; [done|].
  intros p Hp.
  destruct (candidate_column _ columns p Hp) as (Hrange & _).
  destruct (decide (length pointsByColumn ≤ 1)%nat) as [Hshort|Hlong].
  - rewrite drop_ge in Hcovers' by lia. simpl in Hcovers'.
    apply Hcovers', (candidate_leftOf _ columns); [done|lia].
  - rewrite length_drop in Hcovers'.
    apply Hcovers', (candidate_leftOf _ columns); [done|lia].
Qed.
End table.

(** ** From the table to the signal *)

Section path.
Import Viterbi ViterbiInvariants.

Variable pointsByColumn : list (list Point).
Hypothesis columns : columnwise pointsByColumn.
Variable table : gmap Point Entry.
Hypothesis invariant : tableInvariant pointsByColumn table.

Lemma recorded_column (p : Point) : is_Some (table !! p) → 0 ≤ x p.
Proof.
  intros Hp. apply (recorded_candidate _ _ invariant) in Hp.
  destruct (candidate_column _ columns p Hp) as (? & _). lia.
Qed.

Lemma traceBack_end (fuel : nat) (walked : list Point) :
  traceBack fuel table None walked = Ok walked.
Proof. by destruct fuel. Qed.

Lemma traceBack_defined (n fuel : nat) (current : Point) (walked : list Point) :
  is_Some (table !! current) → x current ≤ Z.of_nat n → (n < fuel)%nat →
  ∃ rest, traceBack fuel table (Some current) walked
          = Ok (walked ++ current :: rest) ∧
          descending (x current) rest.
Proof.
  revert fuel current walked.
  induction n as [|n IH]; intros fuel current walked Hrecorded Hn Hfuel.
  all: destruct fuel as [|fuel]; [lia|].
  all: pose proof Hrecorded as [[[cost previous] angle] Hentry].
  all: cbn [traceBack]; rewrite Hentry.
  all: destruct previous as [q|];
    [|exists []; by rewrite traceBack_end].
  all: destruct (recorded_previous _ _ invariant _ _ _ _ Hentry) as [Hq Hx].
  all: pose proof (recorded_column q Hq).
  - lia.
  - destruct (IH fuel q (walked ++ [current])) as (rest & -> & Hrest);
      [done|lia|lia|].
    exists (q :: rest). rewrite <- app_assoc. simpl. split; [done|].
    split; [lia|done].
Qed.
End path.

Section emission.
Import Viterbi ViterbiInvariants.

Lemma interpolated_filled (lo : Z) (points : list Point) (signal : list float) :
  Forall (λ q, lo ≤ x q < Z.of_nat (length signal)) points → 0 ≤ lo →
  ∃ signal',
    foldM (λ signal interpolatedPoint,
             py_setitem signal (x interpolatedPoint)
                        (NpFloat.Fin (y interpolatedPoint))) signal points
    = Ok signal' ∧
    length signal' = length signal ∧
    ∀ i : nat, Z.of_nat i < lo → signal' !! i = signal !! i.
Proof.
  intros Hpoints Hlo. revert signal Hpoints.
  induction points as [|q points IH]; intros signal Hpoints; simpl.
  - eauto.
  - apply Forall_cons_1 in Hpoints as [Hq Hpoints].
    rewrite py_setitem_inside by lia. simpl.
    destruct (IH (<[Z.to_nat (x q) := NpFloat.Fin (y q)]> signal))
      as (signal' & -> & Hlen & Hsame).
    { by rewrite length_insert. }
    exists signal'. split; [done|]. rewrite Hlen, length_insert. split; [done|].
    intros i Hi. rewrite Hsame by done. apply list_lookup_insert_ne. lia.
Qed.

Lemma fill_defined (signal : list float) (priorPoint point : Point) :
  0 ≤ x point < x priorPoint → x priorPoint < Z.of_nat (length signal) →
  blankBefore (x priorPoint) signal →
  ∃ signal', fill (signal, priorPoint) point = Ok (signal', point) ∧
    length signal' = length signal ∧ blankBefore (x point) signal'.
Proof.
  intros Hpoint Hprior Hblank. unfold fill, index.
  destruct (py_getitem_inside signal (x point + 1)) as (next & -> & _); [lia|].
  simpl.
  assert (Hfilled : ∃ signal0,
             (if NpFloat.isnan next
              then interpolated ← interpolate point priorPoint;
                   foldM (λ signal interpolatedPoint,
                            py_setitem signal (x interpolatedPoint)
                                       (NpFloat.Fin (y interpolatedPoint)))
                         signal interpolated
              else Ok signal) = Ok signal0 ∧
             length signal0 = length signal ∧
             ∀ i : nat, Z.of_nat i < x point + 1 → signal0 !! i = signal !! i).
  { destruct (NpFloat.isnan next); [|eauto].
    unfold interpolate, index.
    rewrite bool_decide_eq_false_2 by lia. simpl.
    apply interpolated_filled; [|lia].
    apply Forall_forall. intros q Hq%list_elem_of_In.
    apply list_elem_of_fmap in Hq as (column & -> & Hcolumn). simpl.
    unfold py_range in Hcolumn. apply elem_of_seqZ in Hcolumn. lia. }
  destruct Hfilled as (signal0 & -> & Hlen & Hsame). simpl.
  rewrite py_setitem_inside by lia. simpl.
  eexists. split; [done|]. rewrite length_insert. split; [done|].
  intros i Hi Hrange. rewrite length_insert in Hrange.
  rewrite list_lookup_insert_ne by lia.
  rewrite Hsame by lia. apply Hblank; lia.
Qed.

Lemma last_after (rest : list Point) (point priorPoint : Point) :
  List.last (point :: rest) priorPoint = List.last rest point.
Proof.
  revert point priorPoint.
  induction rest as [|q rest IH]; intros point priorPoint; [done|].
  change (List.last (q :: rest) priorPoint = List.last (q :: rest) point).
  by rewrite !IH.
Qed.

Lemma fill_path (rest : list Point) (signal : list float) (priorPoint : Point) :
  0 ≤ x priorPoint < Z.of_nat (length signal) →
  descending (x priorPoint) rest →
  blankBefore (x priorPoint) signal →
  ∃ signal', foldM fill (signal, priorPoint) rest
             = Ok (signal', List.last rest priorPoint) ∧
    length signal' = length signal ∧
    blankBefore (x (List.last rest priorPoint)) signal'.
Proof.
  revert signal priorPoint.
  induction rest as [|point rest IH]; intros signal priorPoint Hprior Hpath Hblank.
  - simpl. eauto.
  - destruct Hpath as [Hpoint Hpath]. rewrite last_after. cbn [foldM].
    destruct (fill_defined signal priorPoint point) as (signal0 & -> & Hlen & Hblank0);
      [lia|lia|done|]. simpl.
    destruct (IH signal0 point) as (signal' & -> & Hlen' & Hblank');
      [lia|done|done|].
    exists signal'. by rewrite Hlen', Hlen.
Qed.

Lemma convertPointsToSignal_defined (firstPoint : Point) (rest : list Point) :
  0 ≤ x firstPoint → descending (x firstPoint) rest →
  ∃ signal, convertPointsToSignal (firstPoint :: rest) None = Ok signal ∧
    Z.of_nat (length signal) = x firstPoint + 1 ∧
    blankBefore (x (List.last rest firstPoint)) signal.
Proof.
  intros Hfirst Hpath. unfold convertPointsToSignal, index.
  destruct (Z.ltb_spec (x firstPoint + 1) 0) as [?|_]; [lia|].
  set (blank := replicate (Z.to_nat (x firstPoint + 1)) NpFloat.NaN).
  assert (Hblank : length blank = Z.to_nat (x firstPoint + 1)).
  { apply length_replicate. }
  rewrite py_setitem_inside by lia. simpl.
  destruct (fill_path rest (<[Z.to_nat (x firstPoint) := NpFloat.Fin (y firstPoint)]> blank)
              firstPoint) as (signal & -> & Hlen & Hleft).
  - rewrite length_insert. lia.
  - done.
  - intros i Hi Hrange. rewrite list_lookup_insert_ne by lia.
    rewrite length_insert, Hblank in Hrange.
    unfold blank. apply lookup_replicate_2. lia.
  - simpl. exists signal. rewrite Hlen, length_insert. split; [done|].
    split; [lia|done].
Qed.
End emission.

(** ** [viterbi.extractSignal] *)

Section extraction.
Import Viterbi ViterbiInvariants.

Variable binary : BinaryImage.

Local Abbreviation pointsByColumn := (getPointLocations binary).

Hypothesis candidates : Common.flatten pointsByColumn ≠ [].

Lemma leftOf_all : leftOf pointsByColumn (width binary) = Common.flatten pointsByColumn.
Proof.
  unfold leftOf. rewrite <- getPointLocations_length. by rewrite firstn_all.
Qed.

(** The whole run of [extractSignal], stage by stage. *)
Lemma extractSignal_stages :
  ∃ table endings ending rest signal,
    buildTable pointsByColumn = Ok table ∧
    tableInvariant pointsByColumn table ∧
    (∀ p, p ∈ Common.flatten pointsByColumn → is_Some (table !! p)) ∧
    getAdjacent pointsByColumn table (Z.of_nat (width binary)) OPTIMAL_ENDING_WIDTH
    = Ok endings ∧
    endings ≠ [] ∧
    bestPath binary = Ok (ending :: rest) ∧
    ending ∈ Common.flatten pointsByColumn ∧
    descending (x ending) rest ∧
    extractSignal binary = Ok (Some signal) ∧
    Z.of_nat (length signal) = x ending + 1 ∧
    blankBefore (x (List.last rest ending)) signal.
Proof.
  pose proof (getPointLocations_columnwise binary) as Hcolumns.
  pose proof (getPointLocations_length binary) as Hwidth.
  destruct (buildTable_defined pointsByColumn Hcolumns)
    as (table & Htable & Hinv & Hall).
  destruct (getAdjacent_defined pointsByColumn table (Z.of_nat (width binary))
              OPTIMAL_ENDING_WIDTH) as (endings & Hendings & Hrecorded & Hempty).
  { lia. }
  { intros q Hq. rewrite Nat2Z.id, leftOf_all in Hq. by apply Hall. }
  rewrite Nat2Z.id, leftOf_all in Hempty, Hrecorded.
  assert (Hsome : endings ≠ []) by (intros ->; by apply candidates, Hempty).
  destruct (minBy_defined fst
              (map (λ triple : R * Point * R, (triple.1.1, triple.1.2)) endings))
    as (best & Hbest & Hin).
  { by destruct endings. }
  apply list_elem_of_fmap in Hin as (triple & Hpair & Hin).
  destruct (Hrecorded triple Hin) as (Hcandidate & previous & Hentry).
  assert (Hending : best.2 = triple.1.2) by (by rewrite Hpair).
  rewrite <- Hending in Hcandidate, Hentry.
  destruct (candidate_column _ Hcolumns _ Hcandidate) as (Hrange & _).
  destruct (traceBack_defined pointsByColumn Hcolumns table Hinv
              (length pointsByColumn) (S (length pointsByColumn)) best.2 [])
    as (rest & Htrace & Hpath); [eauto|lia|lia|].
  assert (Hbest_path : bestPath binary = Ok (best.2 :: rest)).
  { unfold bestPath. cbv zeta. rewrite Htable. simpl.
    rewrite Hendings. simpl. rewrite Hbest. simpl. exact Htrace. }
  destruct (convertPointsToSignal_defined best.2 rest) as (signal & Hsignal & Hlen & Hblank);
    [lia|done|].
  exists table, endings, best.2, rest, signal.
  repeat (split; [done|]). split; [|done].
  unfold extractSignal. cbv zeta.
  destruct (Common.flatten pointsByColumn) as [|p points] eqn:Hpoints; [done|].
  change (length (p :: points) =? 0)%nat with false. cbv iota.
  rewrite Hbest_path, bind_Ok. cbv beta. by rewrite Hsignal.
Qed.

(** C10: on a binary image with at least one candidate point,
    [extractSignal] runs to completion and returns a signal.  The
    table is built without an assertion failing, so every point that
    [getAdjacent] yields is recorded by then; every candidate ends up
    recorded; a candidate with no candidate in any column to its left
    carries the record (0, none, 0); and the final minimisation is
    over a list of ending candidates that is not empty. *)
Theorem extractSignal_completes :
  ∃ table endings signal,
    buildTable pointsByColumn = Ok table ∧
    (∀ p, p ∈ Common.flatten pointsByColumn → is_Some (table !! p)) ∧
    (∀ p, p ∈ Common.flatten pointsByColumn →
          leftOf pointsByColumn (Z.to_nat (x p)) = [] →
          table !! p = Some seed) ∧
    getAdjacent pointsByColumn table (Z.of_nat (width binary)) OPTIMAL_ENDING_WIDTH
    = Ok endings ∧
    endings ≠ [] ∧
    extractSignal binary = Ok (Some signal).
Proof.
  destruct extractSignal_stages
    as (table & endings & ending & rest & signal & Htable & Hinv & Hall &
        Hendings & Hsome & _ & _ & _ & Hsignal & _).
  exists table, endings, signal. repeat (split; [done|]). split; [|done].
  intros p Hp Hleft. destruct (Hall p Hp) as [entry Hentry].
  by rewrite Hentry, (recorded_seed _ _ Hinv p entry Hentry Hleft).
Qed.

(** C3, as the code has it: on a binary trace mask with at least one
    candidate point the returned array ends at the column of the
    selected ending candidate: its length is that column plus one,
    hence at most the width W and equal to W only when the path ends
    in the last column; the samples left of the leftmost point of the
    path hold the not-a-number marker. *)
Theorem extractSignal_length :
  ∃ ending rest signal,
    bestPath binary = Ok (ending :: rest) ∧
    ending ∈ Common.flatten pointsByColumn ∧
    extractSignal binary = Ok (Some signal) ∧
    Z.of_nat (length signal) = x ending + 1 ∧
    (length signal ≤ width binary)%nat ∧
    blankBefore (x (List.last rest ending)) signal.
Proof.
  destruct extractSignal_stages
    as (table & endings & ending & rest & signal & _ & _ & _ & _ & _ &
        Hpath & Hending & _ & Hsignal & Hlen & Hblank).
  exists ending, rest, signal. repeat (split; [done|]). split; [|done].
  destruct (candidate_column _ (getPointLocations_columnwise binary) _ Hending)
    as (Hrange & _).
  rewrite getPointLocations_length in Hrange. lia.
Qed.
End extraction.

(** ** [Conversion.convertECGLeads] *)

Section conversion.
Import Conversion ConversionProperties.

Variable backend : Backend.
Variable inputImage : ColorImage.
Variable parameters : InputParameters.

Lemma mapValues_Forall2 {K A B : Type} (f : K → A → result B)
    (d : list (K * A)) (d' : list (K * B)) :
  mapValues f d = Ok d' →
  Forall2 (λ entry entry', entry'.1 = entry.1 ∧ f entry.1 entry.2 = Ok entry'.2) d d'.
Proof.
  intros Hrun. apply mapM_Forall2 in Hrun.
  eapply Forall2_impl; [|exact Hrun].
  intros [k a] [k' b] Hentry. simpl in *.
  apply bind_Ok_inv in Hentry as (v & Hv & Hentry).
  by injection Hentry as <- <-.
Qed.

(** The stages that a call which returns signals went through. *)
Lemma convertECGLeads_stages (fullSignals : list (LeadId * list float))
    (previews : option (list (LeadId * ColorImage))) :
  convertECGLeads backend inputImage parameters
  = Ok (ReturnedPair (Some fullSignals) previews) →
  ∃ rotatedImage signals gridSpacings scaledSignals samplingPeriod
    paddedSignals longest,
    rotated backend inputImage (rotation parameters) = Ok rotatedImage ∧
    mapValues (λ _ img, digitizeSignal backend img)
              (leadImages rotatedImage parameters) = Ok signals ∧
    mapValues (λ _ image, digitizeGrid backend image)
              (leadImages rotatedImage parameters) = Ok gridSpacings ∧
    mapValues (λ _ signal,
                 scaleSignal (Binary64.value (mean backend (spacingsOf gridSpacings)))
                             (voltScale parameters) signal) signals
    = Ok scaledSignals ∧
    Signal.ecgSignalSamplingPeriod (mean backend (spacingsOf gridSpacings))
                                   (timeScale parameters) (Binary64.of_Z 1)
    = Ok samplingPeriod ∧
    mapValues (λ leadId signal,
                 lead ← lookupLead (leads parameters) leadId;
                 count ← leftPadding (startTime lead) samplingPeriod;
                 Common.padLeft signal count) scaledSignals
    = Ok paddedSignals ∧
    maxLength (map (λ entry, Z.of_nat (length entry.2)) paddedSignals) = Ok longest ∧
    mapValues (λ _ signal,
                 Common.padRight signal (longest - Z.of_nat (length signal)))
              paddedSignals = Ok fullSignals.
Proof.
  unfold convertECGLeads. intros Hrun.
  apply bind_Ok_inv in Hrun as (rotatedImage & Hrotated & Hrun).
  apply bind_Ok_inv in Hrun as (signals & Hsignals & Hrun).
  destruct (forallb isFailure signals.*2); [done|].
  apply bind_Ok_inv in Hrun as (drawn & _ & Hrun).
  apply bind_Ok_inv in Hrun as (gridSpacings & Hgrid & Hrun).
  destruct (length (spacingsOf gridSpacings) =? 0)%nat; [done|].
  apply bind_Ok_inv in Hrun as (scaledSignals & Hscaled & Hrun).
  apply bind_Ok_inv in Hrun as (samplingPeriod & Hperiod & Hrun).
  apply bind_Ok_inv in Hrun as (paddedSignals & Hpadded & Hrun).
  apply bind_Ok_inv in Hrun as (longest & Hlongest & Hrun).
  apply bind_Ok_inv in Hrun as (full & Hfull & Hrun).
  injection Hrun as -> _.
  by exists rotatedImage, signals, gridSpacings, scaledSignals, samplingPeriod,
            paddedSignals, longest.
Qed.

Lemma padRight_length (elements padded : list float) (count : Z) :
  Common.padRight elements count = Ok padded →
  Z.of_nat (length padded) = Z.of_nat (length elements) + count ∧
  ∃ trailing : nat, padded = elements ++ replicate trailing (NpFloat.of_Z 0).
Proof.
  unfold Common.padRight. destruct (Z.ltb_spec count 0); [done|].
  intros [= <-]. rewrite length_app, length_replicate. split; [lia|eauto].
Qed.

Lemma padLeft_shape (elements padded : list float) (count : Z) :
  Common.padLeft elements count = Ok padded →
  0 ≤ count ∧ padded = replicate (Z.to_nat count) (NpFloat.of_Z 0) ++ elements.
Proof.
  unfold Common.padLeft. destruct (Z.ltb_spec count 0); [done|].
  by intros [= <-].
Qed.

(** C6: whenever [convertECGLeads] returns signals, all the arrays of
    the returned mapping have the same length. *)
Theorem convertECGLeads_equal_lengths (fullSignals : list (LeadId * list float))
    (previews : option (list (LeadId * ColorImage))) :
  convertECGLeads backend inputImage parameters
  = Ok (ReturnedPair (Some fullSignals) previews) →
  equalLengths fullSignals.
Proof.
  intros Hrun.
  destruct (convertECGLeads_stages _ _ Hrun)
    as (rotatedImage & signals & gridSpacings & scaledSignals & samplingPeriod &
        paddedSignals & longest & _ & _ & _ & _ & _ & _ & _ & Hfull).
  apply mapValues_Forall2 in Hfull.
  assert (Hlongest : ∀ entry, entry ∈ fullSignals →
                              Z.of_nat (length entry.2) = longest).
  { intros entry Hentry. apply list_elem_of_lookup in Hentry as (i & Hi).
    destruct (Forall2_lookup_r _ _ _ _ _ Hfull Hi) as (source & _ & _ & Hpad).
    apply padRight_length in Hpad as [Hlen _]. lia. }
  intros first second Hfirst Hsecond.
  apply Hlongest in Hfirst, Hsecond. lia.
Qed.

(** [int] of a number: the integer between the number and zero that
    is nearest to the number. *)
Lemma to_int_truncates (q : Qc) (n : Z) :
  NpFloat.to_int (NpFloat.Fin q) = Ok n →
  ((0 ≤ q)%Qc → (Qc_of_Z n ≤ q)%Qc ∧ (q < Qc_of_Z n + 1)%Qc) ∧
  ((q < 0)%Qc → (Qc_of_Z n - 1 < q)%Qc ∧ (q ≤ Qc_of_Z n)%Qc).
Proof.
  unfold NpFloat.to_int. intros [= <-].
  destruct (bool_decide_reflect (0 ≤ q)%Qc) as [Hsign|Hsign]; split.
  - intros _. split.
    + apply Qfloor_le.
    + rewrite <- Z2Qc_inj_1, <- Z2Qc_inj_add. apply Qlt_floor.
  - intros Hneg. by apply Qclt_not_le in Hneg.
  - done.
  - intros _. split.
    + rewrite <- Z2Qc_inj_1, <- Z2Qc_inj_sub. apply Qceiling_lt.
    + apply Qle_ceiling.
Qed.

(** The count that [leftPadding] returns is the binary64 quotient cut
    to an integer. *)
Lemma leftPadding_truncates (startTime samplingPeriod : Binary64.double)
    (count : Z) :
  leftPadding startTime samplingPeriod = Ok count → 0 ≤ count →
  ∃ quotient,
    Binary64.value (PrimFloat.div startTime samplingPeriod) = NpFloat.Fin quotient ∧
    ((Qc_of_Z count ≤ quotient)%Qc ∨ (count = 0 ∧ (-1 < quotient)%Qc)) ∧
    (quotient < Qc_of_Z count + 1)%Qc.
Proof.
  unfold leftPadding, Binary64.to_int. intros Hcount Hnonneg.
  destruct (Binary64.value (PrimFloat.div startTime samplingPeriod))
    as [quotient| | |]; [|done|done|done].
  exists quotient. split; [done|].
  apply to_int_truncates in Hcount as [Hpositive Hnegative].
  destruct (Qclt_le_dec quotient 0) as [Hneg|Hpos].
  - destruct (Hnegative Hneg) as [Hlow Hhigh].
    assert (count = 0) as ->.
    { assert (Hlt : (Qc_of_Z (count - 1) < Qc_of_Z 0)%Qc).
      { rewrite Z2Qc_inj_sub, Z2Qc_inj_1. by apply Qclt_trans with quotient. }
      apply Z2Qc_inj_lt in Hlt. lia. }
    split.
    + right. split; [done|]. exact Hlow.
    + by apply Qclt_trans with 0%Qc.
  - destruct (Hpositive Hpos) as [Hlow Hhigh]. split; [by left|done].
Qed.

(** C5, as the code has it: in a call that returns signals, the number
    of zero samples put in front of a lead's scaled signal is
    [int(startTime / samplingPeriod)]: the binary64 quotient of the
    start time by the sampling period, truncated towards zero and not
    rounded, where the sampling period is the one double computed
    from the mean grid period and the time scale. *)
Theorem convertECGLeads_left_padding (fullSignals : list (LeadId * list float))
    (previews : option (list (LeadId * ColorImage))) :
  convertECGLeads backend inputImage parameters
  = Ok (ReturnedPair (Some fullSignals) previews) →
  ∃ rotatedImage signals gridSpacings samplingPeriod,
    rotated backend inputImage (rotation parameters) = Ok rotatedImage ∧
    mapValues (λ _ img, digitizeSignal backend img)
              (leadImages rotatedImage parameters) = Ok signals ∧
    mapValues (λ _ image, digitizeGrid backend image)
              (leadImages rotatedImage parameters) = Ok gridSpacings ∧
    samplingPeriod
    = PrimFloat.mul
        (PrimFloat.mul
           (PrimFloat.div (Binary64.of_Z 1) (mean backend (spacingsOf gridSpacings)))
           (Binary64.of_Z 1))
        (PrimFloat.div (Binary64.of_Z 1) (timeScale parameters)) ∧
    Forall2 (λ source out,
               out.1 = source.1 ∧
               ∃ lead scaled count quotient,
                 lookupLead (leads parameters) source.1 = Ok lead ∧
                 scaleSignal (Binary64.value (mean backend (spacingsOf gridSpacings)))
                             (voltScale parameters) source.2 = Ok scaled ∧
                 Binary64.value (PrimFloat.div (startTime lead) samplingPeriod)
                 = NpFloat.Fin quotient ∧
                 ((Qc_of_Z count ≤ quotient)%Qc ∨
                  (count = 0 ∧ (-1 < quotient)%Qc)) ∧
                 (quotient < Qc_of_Z count + 1)%Qc ∧
                 paddedFrom count scaled out.2)
            signals fullSignals.
Proof.
  intros Hrun.
  destruct (convertECGLeads_stages _ _ Hrun)
    as (rotatedImage & signals & gridSpacings & scaledSignals & samplingPeriod &
        paddedSignals & longest & Hrotated & Hsignals & Hgrid & Hscaled &
        Hperiod & Hpadded & _ & Hfull).
  exists rotatedImage, signals, gridSpacings, samplingPeriod.
  repeat (split; [done|]).
  split.
  { unfold Signal.ecgSignalSamplingPeriod, Binary64.reciprocal in Hperiod.
    cbv zeta in Hperiod.
    destruct (PrimFloat.eqb (timeScale parameters) PrimFloat.zero); [done|].
    by injection Hperiod as <-. }
  apply mapValues_Forall2 in Hscaled, Hpadded, Hfull.
  apply Forall2_same_length_lookup. split.
  { pose proof (Forall2_length Hscaled). pose proof (Forall2_length Hpadded).
    pose proof (Forall2_length Hfull). congruence. }
  intros i source out Hsource Hout.
  destruct (Forall2_lookup_r _ _ _ _ _ Hfull Hout) as (padded & Hi & Hid3 & Hright).
  destruct (Forall2_lookup_r _ _ _ _ _ Hpadded Hi) as (scaled & Hj & Hid2 & Hleft).
  destruct (Forall2_lookup_r _ _ _ _ _ Hscaled Hj) as (source' & Hk & Hid1 & Hscale).
  assert (source' = source) as -> by congruence.
  split; [congruence|].
  apply bind_Ok_inv in Hleft as (lead & Hlead & Hleft).
  apply bind_Ok_inv in Hleft as (count & Hcount & Hleft).
  apply padLeft_shape in Hleft as [Hnonneg Hleft].
  apply padRight_length in Hright as [_ (trailing & Hright)].
  destruct (leftPadding_truncates _ _ _ Hcount Hnonneg)
    as (quotient & Hquotient & Hlow & Hhigh).
  exists lead, scaled.2, count, quotient. rewrite <- Hid1.
  split; [done|]. split; [done|]. split; [done|]. split; [done|]. split; [done|].
  split; [done|]. exists trailing. by rewrite Hright, Hleft, <- app_assoc.
Qed.

(** C1, as the code has it: when every value of [signals] is a
    [Failure], which holds of an empty lead map, or when the previews
    are drawn and no lead yields a grid period, [convertECGLeads]
    returns the pair (None, None): no [Failure] value, no reason and
    no partial result. *)
Theorem convertECGLeads_none_pair (rotatedImage : ColorImage)
    (signals : list (LeadId * SignalValue)) :
  rotated backend inputImage (rotation parameters) = Ok rotatedImage →
  mapValues (λ _ img, digitizeSignal backend img)
            (leadImages rotatedImage parameters) = Ok signals →
  forallb isFailure signals.*2 = true ∨
  (∃ drawn gridSpacings,
     mapM (λ pair : (LeadId * ColorImage) * (LeadId * SignalValue),
             preview ← overlaySignalOnImage backend pair.2.2 pair.1.2;
             Ok (pair.1.1, preview))
          (zip (leadImages rotatedImage parameters) signals) = Ok drawn ∧
     mapValues (λ _ image, digitizeGrid backend image)
               (leadImages rotatedImage parameters) = Ok gridSpacings ∧
     spacingsOf gridSpacings = []) →
  convertECGLeads backend inputImage parameters = Ok (ReturnedPair None None).
Proof.
  intros Hrotated Hsignals Hcases. unfold convertECGLeads.
  rewrite Hrotated, bind_Ok, Hsignals, bind_Ok.
  destruct (forallb isFailure signals.*2); [done|].
  destruct Hcases as [?|(drawn & gridSpacings & Hdrawn & Hgrid & Hnone)]; [done|].
  by rewrite Hdrawn, bind_Ok, Hgrid, bind_Ok, Hnone.
Qed.

(** C2, where the code leaves it: once the digitisation of some lead
    has come back as [None] the call returns nothing at all, neither
    the other leads nor a failure value; the overlay of that lead
    raises. *)
Theorem convertECGLeads_missing_signal (rotatedImage : ColorImage)
    (signals : list (LeadId * SignalValue)) (leadId : LeadId) :
  rotated backend inputImage (rotation parameters) = Ok rotatedImage →
  mapValues (λ _ img, digitizeSignal backend img)
            (leadImages rotatedImage parameters) = Ok signals →
  (leadId, SignalNone) ∈ signals →
  ∀ returned, convertECGLeads backend inputImage parameters ≠ Ok returned.
Proof.
  intros Hrotated Hsignals Hnone returned. unfold convertECGLeads.
  rewrite Hrotated, bind_Ok, Hsignals, bind_Ok.
  assert (Hcheck : forallb isFailure signals.*2 = false).
  { apply not_true_is_false. intros Hall.
    rewrite forallb_forall in Hall.
    specialize (Hall SignalNone). simpl in Hall. apply Bool.diff_false_true, Hall.
    apply list_elem_of_In, list_elem_of_fmap. by exists (leadId, SignalNone). }
  rewrite Hcheck. intros Hrun.
  apply bind_Ok_inv in Hrun as (drawn & Hdrawn & _).
  apply mapM_Forall2 in Hdrawn.
  apply mapValues_Forall2 in Hsignals.
  apply list_elem_of_lookup in Hnone as (i & Hi).
  destruct (Forall2_lookup_r _ _ _ _ _ Hsignals Hi) as (image & Himage & _).
  assert (Hpair : zip (leadImages rotatedImage parameters) signals !! i
                  = Some (image, (leadId, SignalNone))).
  { apply lookup_zip_with_Some. eauto. }
  destruct (Forall2_lookup_l _ _ _ _ _ Hdrawn Hpair) as (preview & _ & Hraised).
  done.
Qed.
End conversion.

(** ** Worked runs *)

Section runs.
Import Viterbi ViterbiInvariants Conversion ConversionProperties Examples.

Lemma climbingMask_candidates :
  Common.flatten (getPointLocations climbingMask) ≠ [].
Proof. by vm_compute. Qed.

Lemma extractSignal_completes_witness :
  Common.flatten (getPointLocations climbingMask) ≠ [] ∧
  ∃ table endings signal,
    buildTable (getPointLocations climbingMask) = Ok table ∧
    (∀ p, p ∈ Common.flatten (getPointLocations climbingMask) →
          is_Some (table !! p)) ∧
    (∀ p, p ∈ Common.flatten (getPointLocations climbingMask) →
          leftOf (getPointLocations climbingMask) (Z.to_nat (Viterbi.x p)) = [] →
          table !! p = Some seed) ∧
    getAdjacent (getPointLocations climbingMask) table
                (Z.of_nat (Viterbi.width climbingMask)) OPTIMAL_ENDING_WIDTH = Ok endings ∧
    endings ≠ [] ∧
    extractSignal climbingMask = Ok (Some signal).
Proof.
  split; [exact climbingMask_candidates|].
  exact (extractSignal_completes climbingMask climbingMask_candidates).
Defined.

Lemma extractSignal_length_witness :
  Common.flatten (getPointLocations climbingMask) ≠ [] ∧
  ∃ ending rest signal,
    bestPath climbingMask = Ok (ending :: rest) ∧
    ending ∈ Common.flatten (getPointLocations climbingMask) ∧
    extractSignal climbingMask = Ok (Some signal) ∧
    Z.of_nat (length signal) = Viterbi.x ending + 1 ∧
    (length signal ≤ Viterbi.width climbingMask)%nat ∧
    blankBefore (Viterbi.x (List.last rest ending)) signal.
Proof.
  split; [exact climbingMask_candidates|].
  exact (extractSignal_length climbingMask climbingMask_candidates).
Defined.

(** C3, as stated, fails on a mask of width three whose only trace
    pixel is in the first column: the returned array has one sample. *)
Lemma extractSignal_length_counterexample :
  Common.flatten (getPointLocations cornerMask) ≠ [] ∧
  Viterbi.width cornerMask = 3%nat ∧
  extractSignal cornerMask = Ok (Some [NpFloat.of_Z 0]).
Proof. split; [by vm_compute|]. split; by vm_compute. Qed.

(** On the climbing trace the last column of the mask is empty: the
    path ends in column 3 at the latest and the array is shorter than
    the mask is wide. *)
Example climbingMask_signal_short :
  ∃ signal, extractSignal climbingMask = Ok (Some signal) ∧
            (length signal < Viterbi.width climbingMask)%nat.
Proof.
  destruct (extractSignal_stages climbingMask climbingMask_candidates)
    as (_ & _ & ending & _ & signal & _ & _ & _ & _ & _ & _ & Hending & _ &
        Hsignal & Hlen & _).
  exists signal. split; [done|].
  assert (Hcolumns : Forall (λ p, Viterbi.x p ≤ 3)
                            (Common.flatten (getPointLocations climbingMask))).
  { vm_compute. repeat constructor; discriminate. }
  rewrite Forall_forall in Hcolumns.
  apply list_elem_of_In, Hcolumns in Hending.
  change (Viterbi.width climbingMask) with 5%nat. lia.
Qed.

(** The run on the page with lead II starting 3.5 ms late: the grid
    period of 20 px at 25 mm/s gives 2 ms per pixel. *)
Lemma late_lead_run :
  ∃ previews,
    convertECGLeads (sketchBackend gridOfTwentyPixels) page
                    (twoLeads (Q2Qc (35 # 10000)))
    = Ok (ReturnedPair
            (Some [(I, [NpFloat.NaN; NpFloat.NaN; NpFloat.of_Z 0]);
                   (II, [NpFloat.of_Z 0; NpFloat.NaN; NpFloat.NaN])])
            previews).
Proof. eexists. vm_compute. reflexivity. Qed.

Lemma convertECGLeads_equal_lengths_witness :
  ∃ previews,
    convertECGLeads (sketchBackend gridOfTwentyPixels) page
                    (twoLeads (Q2Qc (35 # 10000)))
    = Ok (ReturnedPair
            (Some [(I, [NpFloat.NaN; NpFloat.NaN; NpFloat.of_Z 0]);
                   (II, [NpFloat.of_Z 0; NpFloat.NaN; NpFloat.NaN])])
            previews) ∧
    equalLengths [(I, [NpFloat.NaN; NpFloat.NaN; NpFloat.of_Z 0]);
                  (II, [NpFloat.of_Z 0; NpFloat.NaN; NpFloat.NaN])].
Proof.
  destruct late_lead_run as (previews & Hrun).
  exists previews. split; [exact Hrun|].
  exact (convertECGLeads_equal_lengths _ _ _ _ _ Hrun).
Defined.

Lemma convertECGLeads_left_padding_witness :
  ∃ previews rotatedImage signals gridSpacings samplingPeriod,
    convertECGLeads (sketchBackend gridOfTwentyPixels) page
                    (twoLeads (Q2Qc (35 # 10000)))
    = Ok (ReturnedPair
            (Some [(I, [NpFloat.NaN; NpFloat.NaN; NpFloat.of_Z 0]);
                   (II, [NpFloat.of_Z 0; NpFloat.NaN; NpFloat.NaN])])
            previews) ∧
    mapValues (λ _ img, digitizeSignal (sketchBackend gridOfTwentyPixels) img)
              (leadImages rotatedImage (twoLeads (Q2Qc (35 # 10000)))) = Ok signals ∧
    mapValues (λ _ image, digitizeGrid (sketchBackend gridOfTwentyPixels) image)
              (leadImages rotatedImage (twoLeads (Q2Qc (35 # 10000))))
    = Ok gridSpacings ∧
    samplingPeriod
    = PrimFloat.mul
        (PrimFloat.mul
           (PrimFloat.div (Binary64.of_Z 1)
              (mean (sketchBackend gridOfTwentyPixels) (spacingsOf gridSpacings)))
           (Binary64.of_Z 1))
        (PrimFloat.div (Binary64.of_Z 1) (Binary64.of_Z 25)).
Proof.
  destruct late_lead_run as (previews & Hrun).
  destruct (convertECGLeads_left_padding _ _ _ _ _ Hrun)
    as (rotatedImage & signals & gridSpacings & samplingPeriod &
        _ & Hsignals & Hgrid & Hperiod & _).
  exists previews, rotatedImage, signals, gridSpacings, samplingPeriod.
  split; [exact Hrun|]. split; [exact Hsignals|]. split; [exact Hgrid|exact Hperiod].
Defined.

(** C5, as stated, fails on that run: the binary64 quotient of the
    start time by the sampling period is 1.75, lead II gets one zero
    sample in front of its two samples, and rounding would give
    two. *)
Lemma convertECGLeads_left_padding_counterexample :
  ∃ previews samplingPeriod,
    convertECGLeads (sketchBackend gridOfTwentyPixels) page
                    (twoLeads (Q2Qc (35 # 10000)))
    = Ok (ReturnedPair
            (Some [(I, [NpFloat.NaN; NpFloat.NaN; NpFloat.of_Z 0]);
                   (II, [NpFloat.of_Z 0; NpFloat.NaN; NpFloat.NaN])])
            previews) ∧
    Signal.ecgSignalSamplingPeriod (Binary64.of_Z 20) (Binary64.of_Z 25)
                                   (Binary64.of_Z 1)
    = Ok samplingPeriod ∧
    Binary64.value
      (PrimFloat.div (Binary64.of_Qc (Q2Qc (35 # 10000))) samplingPeriod)
    = NpFloat.Fin (Q2Qc (7 # 4)) ∧
    leftPadding (Binary64.of_Qc (Q2Qc (35 # 10000))) samplingPeriod = Ok 1 ∧
    NpFloat.round (NpFloat.Fin (Q2Qc (7 # 4))) = Ok 2.
Proof.
  destruct late_lead_run as (previews & Hrun).
  exists previews. eexists. split; [exact Hrun|].
  split; [vm_compute; reflexivity|].
  split; [|split; vm_compute; reflexivity].
  vm_compute. apply f_equal. by apply Qc_is_canon.
Qed.

(** Rounding decides the count.  A start time of 0.086 s is 43
    sampling periods of 2 ms, but neither number is a double: the
    binary64 quotient is 42.99999999999999 and 42 samples are put in
    front, where the quotient of the two decimals would give 43. *)
Example leftPadding_below_the_decimal_quotient :
  ∃ samplingPeriod,
    Signal.ecgSignalSamplingPeriod (Binary64.of_Z 20) (Binary64.of_Z 25)
                                   (Binary64.of_Z 1)
    = Ok samplingPeriod ∧
    leftPadding (Binary64.ratio 86 1000) samplingPeriod = Ok 42 ∧
    NpFloat.to_int (NpFloat.div (NpFloat.Fin (Q2Qc (86 # 1000)))
                                (NpFloat.Fin (Q2Qc (1 # 500)))) = Ok 43.
Proof.
  eexists. split; [vm_compute; reflexivity|]. split; vm_compute; reflexivity.
Qed.

Lemma convertECGLeads_none_pair_witness :
  convertECGLeads (sketchBackend noGrid) page (twoLeads 0)
  = Ok (ReturnedPair None None).
Proof.
  eapply (convertECGLeads_none_pair (sketchBackend noGrid) page (twoLeads 0)).
  - vm_compute. reflexivity.
  - vm_compute. reflexivity.
  - right. eexists. eexists. split; [vm_compute; reflexivity|].
    split; vm_compute; reflexivity.
Defined.

(** C1, as stated, fails when no lead yields a grid period: what comes
    back is the pair (None, None), not a [Failure] with a reason. *)
Lemma convertECGLeads_none_pair_counterexample :
  digitizeGrid (sketchBackend noGrid) page = Ok noGrid ∧
  ¬ ∃ failure,
      convertECGLeads (sketchBackend noGrid) page (twoLeads 0)
      = Ok (ReturnedFailure failure).
Proof.
  split; [done|]. intros (failure & Hrun).
  vm_compute in Hrun. discriminate Hrun.
Qed.

Lemma convertECGLeads_missing_signal_witness :
  ∃ signals,
    mapValues (λ _ img, digitizeSignal (sketchBackend gridOfTwentyPixels) img)
              (leadImages page blankSecondLead) = Ok signals ∧
    (II, SignalNone) ∈ signals ∧
    ∀ returned,
      convertECGLeads (sketchBackend gridOfTwentyPixels) page blankSecondLead
      ≠ Ok returned.
Proof.
  eexists. split; [vm_compute; reflexivity|].
  split; [apply list_elem_of_lookup; by exists 1%nat|].
  eapply (convertECGLeads_missing_signal (sketchBackend gridOfTwentyPixels)
            page blankSecondLead page _ II).
  - reflexivity.
  - vm_compute. reflexivity.
  - apply list_elem_of_lookup. by exists 1%nat.
Defined.

(** The failing run of C2 itself. *)
Example blank_lead_raises :
  convertECGLeads (sketchBackend gridOfTwentyPixels) page blankSecondLead
  = Raise AttributeError.
Proof. by vm_compute. Qed.
End runs.

(** * More of the code, verified *)

(** ** The scan of a column *)

Section scan.
Import Viterbi ViterbiPaths.

Local Abbreviation scan :=
  (λ (state : list (Z * Z) * option Z) (entry : Z * Z),
     let '(locations, start) := state in
     let '(index, pixel) := entry in
     match start with
     | None => if 0 <? pixel then (locations, Some index) else (locations, start)
     | Some s =>
         if pixel =? 0 then (locations ++ [(s, index)], None)
         else (locations, start)
     end).

Lemma enumerate_snoc {A : Type} (l : list A) (a : A) :
  enumerate (l ++ [a]) = enumerate l ++ [(Z.of_nat (length l), a)].
Proof.
  unfold enumerate. rewrite imap_app. simpl. by rewrite Nat.add_0_r.
Qed.

Lemma closedRun_extend (seen more : list Z) (first stop : Z) :
  closedRun seen first stop → closedRun (seen ++ more) first stop.
Proof.
  intros (Hrange & (pixel & Hfirst & Hpositive) & Hrun & Hstop).
  split; [done|]. split; [|split].
  - exists pixel. split; [|done]. by apply lookup_app_l_Some.
  - intros i Hi. destruct (Hrun i Hi) as (pixel' & Hi' & Hne).
    exists pixel'. split; [|done]. by apply lookup_app_l_Some.
  - by apply lookup_app_l_Some.
Qed.

Lemma closedRun_restrict (seen more : list Z) (first stop : Z) :
  closedRun (seen ++ more) first stop → stop < Z.of_nat (length seen) →
  closedRun seen first stop.
Proof.
  intros (Hrange & (pixel & Hfirst & Hpositive) & Hrun & Hstop) Hseen.
  split; [done|]. split; [|split].
  - exists pixel. split; [|done]. rewrite lookup_app_l in Hfirst by lia. done.
  - intros i Hi. destruct (Hrun i Hi) as (pixel' & Hi' & Hne).
    exists pixel'. split; [|done]. rewrite lookup_app_l in Hi' by lia. done.
  - rewrite lookup_app_l in Hstop by lia. done.
Qed.

Lemma opensRun_restrict (seen more : list Z) (first : Z) :
  opensRun (seen ++ more) first → first ≤ Z.of_nat (length seen) →
  0 ≤ first → opensRun seen first.
Proof.
  intros [->|Hzero] Hseen Hfirst; [by left|].
  destruct (decide (first = 0)) as [->|Hne]; [by left|].
  right. rewrite lookup_app_l in Hzero by lia. done.
Qed.

Lemma opensRun_extend (seen more : list Z) (first : Z) :
  opensRun seen first → opensRun (seen ++ more) first.
Proof. intros [->|Hzero]; [by left|right]. by apply lookup_app_l_Some. Qed.

Lemma closedRun_stop (seen : list Z) (first stop : Z) :
  closedRun seen first stop → stop < Z.of_nat (length seen).
Proof.
  intros (Hrange & _ & _ & Hstop). apply lookup_lt_Some in Hstop. lia.
Qed.

Lemma scanned_start : scanned [] ([], None).
Proof.
  split; simpl.
  - intros run Hrun. by apply elem_of_nil in Hrun.
  - intros i j earlier later _ Hi. by rewrite lookup_nil in Hi.
  - intros run Hrun. by apply elem_of_nil in Hrun.
  - intros _ run Hrun. by apply elem_of_nil in Hrun.
  - done.
  - done.
  - by left.
  - intros _ first stop Hrun. pose proof (closedRun_stop _ _ _ Hrun) as Hstop.
    destruct Hrun as (Hrange & _). simpl in Hstop. lia.
  - intros _ i pixel Hi. by rewrite lookup_nil in Hi.
Qed.

Lemma scanned_step (seen : list Z) (state : list (Z * Z) * option Z) (pixel : Z) :
  scanned seen state →
  scanned (seen ++ [pixel]) (scan state (Z.of_nat (length seen), pixel)).
Proof.
  destruct state as [locations start].
  intros [Hclosed Hordered Hseen Hopened Hopen Hstart Hshut Hfound Hnone]. simpl in *.
  assert (Hlast : (seen ++ [pixel]) !! length seen = Some pixel).
  { by rewrite list_lookup_middle. }
  assert (Hlen : Z.of_nat (length (seen ++ [pixel])) = Z.of_nat (length seen) + 1).
  { rewrite length_app. simpl. lia. }
  assert (Hnonneg : Forall (λ pixel, 0 ≤ pixel) (seen ++ [pixel]) →
                    Forall (λ pixel, 0 ≤ pixel) seen ∧ 0 ≤ pixel).
  { intros H. apply Forall_app in H as [H1 H2]. split; [done|]. by inversion H2. }
  assert (Hearlier : ∀ first stop,
             closedRun (seen ++ [pixel]) first stop → pixel ≠ 0 →
             stop < Z.of_nat (length seen)).
  { intros first stop Hrun Hne. pose proof (closedRun_stop _ _ _ Hrun) as Hlt.
    destruct Hrun as (Hrange & _ & _ & Hstop).
    destruct (decide (stop = Z.of_nat (length seen))) as [->|]; [|lia].
    rewrite Nat2Z.id, Hlast in Hstop. congruence. }
  destruct start as [first0|].
  - destruct (Hopen first0 eq_refl) as (Hrange0 & Hfirst0 & Hrun0 & Hbefore0).
    destruct (Z.eqb_spec pixel 0) as [->|Hpixel].
    + (* the open run is closed here *)
      split; simpl.
      * intros run [Hrun| ->%list_elem_of_singleton]%elem_of_app.
        { by apply closedRun_extend, Hclosed. }
        simpl. split; [lia|]. split; [|split].
        { destruct Hfirst0 as (pixel0 & H0 & Hpositive). exists pixel0.
          split; [|done]. by apply lookup_app_l_Some. }
        { intros i Hi. destruct (Hrun0 i Hi) as (pixel' & Hi' & Hne).
          exists pixel'. split; [|done]. by apply lookup_app_l_Some. }
        { by rewrite Nat2Z.id. }
      * intros i j earlier later Hij Hi Hj.
        apply lookup_app_Some in Hj as [Hj|[Hge Hj]].
        { rewrite lookup_app_l in Hi by (apply lookup_lt_Some in Hj; lia).
          by apply (Hordered i j). }
        apply list_lookup_singleton_Some in Hj as [Hj0 <-]. simpl.
        rewrite lookup_app_l in Hi by lia.
        apply Hbefore0. by apply list_elem_of_lookup_2 with i.
      * intros run [Hrun| ->%list_elem_of_singleton]%elem_of_app.
        { specialize (Hseen run Hrun). lia. }
        simpl. lia.
      * intros [Hnn _]%Hnonneg run [Hrun| ->%list_elem_of_singleton]%elem_of_app.
        { by apply opensRun_extend, Hopened. }
        by apply opensRun_extend, Hstart.
      * done.
      * done.
      * intros _ _. right. rewrite length_app. simpl.
        replace (length seen + 1 - 1)%nat with (length seen) by lia. done.
      * intros [Hnn _]%Hnonneg first stop Hrun Hopens.
        pose proof (closedRun_stop _ _ _ Hrun) as Hlt.
        destruct (decide (stop = Z.of_nat (length seen))) as [->|Hne].
        { apply elem_of_app. right. apply list_elem_of_singleton. f_equal.
          destruct Hrun as (Hrange & _ & Hrun & _).
          destruct (Z.lt_trichotomy first first0) as [Hlt'|[->|Hgt]]; [|done|].
          - exfalso. destruct (Hstart Hnn first0 eq_refl) as [->|Hzero]; [lia|].
            destruct (Hrun (first0 - 1)) as (pixel' & Hlook & Hne'); [lia|].
            rewrite lookup_app_l in Hlook by lia. congruence.
          - exfalso. destruct Hopens as [->|Hzero]; [lia|].
            rewrite lookup_app_l in Hzero by lia.
            destruct (Hrun0 (first - 1)) as (pixel' & Hlook & Hne'); [lia|].
            congruence. }
        apply elem_of_app. left. apply Hfound; [done| |].
        { apply closedRun_restrict with [0]; [done|lia]. }
        { destruct Hrun as (Hrange & _).
          apply opensRun_restrict with [0]; [done|lia|lia]. }
      * intros Hempty. by apply app_nil in Hempty as [_ ?].
    + (* the open run goes on *)
      split; simpl.
      * intros run Hrun. by apply closedRun_extend, Hclosed.
      * done.
      * intros run Hrun. specialize (Hseen run Hrun). lia.
      * intros [Hnn _]%Hnonneg run Hrun. by apply opensRun_extend, Hopened.
      * intros first [= <-]. split; [lia|]. split; [|split].
        { destruct Hfirst0 as (pixel0 & H0 & Hpositive). exists pixel0.
          split; [|done]. by apply lookup_app_l_Some. }
        { intros i Hi.
          destruct (decide (i = Z.of_nat (length seen))) as [->|Hne].
          - exists pixel. by rewrite Nat2Z.id.
          - destruct (Hrun0 i) as (pixel' & Hi' & Hne'); [lia|].
            exists pixel'. split; [|done]. by apply lookup_app_l_Some. }
        { done. }
      * intros [Hnn _]%Hnonneg first [= <-].
        destruct (Hstart Hnn first0 eq_refl) as [->|Hzero]; [by left|].
        right. by apply lookup_app_l_Some.
      * done.
      * intros [Hnn _]%Hnonneg first stop Hrun Hopens.
        pose proof (Hearlier first stop Hrun Hpixel) as Hlt.
        apply Hfound; [done| |].
        { by apply closedRun_restrict with [pixel]. }
        { destruct Hrun as (Hrange & _).
          apply opensRun_restrict with [pixel]; [done|lia|lia]. }
      * intros Hempty i pixel' Hi Hpositive. exists first0. split; [done|].
        destruct (decide (i = length seen)) as [->|Hne]; [lia|].
        rewrite lookup_app_l in Hi.
        { destruct (Hnone Hempty i pixel' Hi Hpositive) as (first & [= <-] & Hle).
          done. }
        apply lookup_lt_Some in Hi. rewrite length_app in Hi. simpl in Hi. lia.
  - destruct (Z.ltb_spec 0 pixel) as [Hpixel|Hpixel].
    + (* a run opens here *)
      split; simpl.
      * intros run Hrun. by apply closedRun_extend, Hclosed.
      * done.
      * intros run Hrun. specialize (Hseen run Hrun). lia.
      * intros [Hnn _]%Hnonneg run Hrun. by apply opensRun_extend, Hopened.
      * intros first [= <-]. split; [lia|]. split; [|split].
        { exists pixel. by rewrite Nat2Z.id. }
        { intros i Hi. assert (i = Z.of_nat (length seen)) as -> by lia.
          exists pixel. rewrite Nat2Z.id. split; [done|lia]. }
        { done. }
      * intros [Hnn _]%Hnonneg first [= <-].
        destruct (Hshut Hnn eq_refl) as [->|Hzero]; [by left|].
        destruct seen as [|pixel0 seen]; [by left|]. right.
        replace (Z.to_nat (Z.of_nat (length (pixel0 :: seen)) - 1))
          with (length (pixel0 :: seen) - 1)%nat by lia.
        by apply lookup_app_l_Some.
      * done.
      * intros [Hnn _]%Hnonneg first stop Hrun Hopens.
        assert (Hlt : stop < Z.of_nat (length seen)) by (apply (Hearlier first); [done|lia]).
        apply Hfound; [done| |].
        { by apply closedRun_restrict with [pixel]. }
        { destruct Hrun as (Hrange & _).
          apply opensRun_restrict with [pixel]; [done|lia|lia]. }
      * intros Hempty i pixel' Hi Hpositive. exists (Z.of_nat (length seen)).
        split; [done|].
        destruct (decide (i = length seen)) as [->|Hne]; [lia|].
        rewrite lookup_app_l in Hi.
        { by destruct (Hnone Hempty i pixel' Hi Hpositive) as (first & ? & _). }
        apply lookup_lt_Some in Hi. rewrite length_app in Hi. simpl in Hi. lia.
    + (* nothing is open and nothing opens *)
      split; simpl.
      * intros run Hrun. by apply closedRun_extend, Hclosed.
      * done.
      * intros run Hrun. specialize (Hseen run Hrun). lia.
      * intros [Hnn _]%Hnonneg run Hrun. by apply opensRun_extend, Hopened.
      * done.
      * done.
      * intros [Hnn Hpixel']%Hnonneg _. right. rewrite length_app. simpl.
        replace (length seen + 1 - 1)%nat with (length seen) by lia.
        rewrite Hlast. f_equal. lia.
      * intros [Hnn Hpixel']%Hnonneg first stop Hrun Hopens.
        pose proof (closedRun_stop _ _ _ Hrun) as Hlt.
        destruct (decide (stop = Z.of_nat (length seen))) as [->|Hne].
        { exfalso. destruct Hrun as (Hrange & _ & Hrun & _).
          destruct (Hshut Hnn eq_refl) as [->|Hzero]; [simpl in *; lia|].
          destruct (Hrun (Z.of_nat (length seen) - 1)) as (pixel' & Hlook & Hne'); [lia|].
          replace (Z.to_nat (Z.of_nat (length seen) - 1))
            with (length seen - 1)%nat in Hlook by lia.
          rewrite lookup_app_l in Hlook by lia. congruence. }
        apply Hfound; [done| |].
        { apply closedRun_restrict with [pixel]; [done|lia]. }
        { destruct Hrun as (Hrange & _).
          apply opensRun_restrict with [pixel]; [done|lia|lia]. }
      * intros Hempty i pixel' Hi Hpositive.
        destruct (decide (i = length seen)) as [->|Hne].
        { rewrite Hlast in Hi. injection Hi as <-. lia. }
        rewrite lookup_app_l in Hi.
        { by destruct (Hnone Hempty i pixel' Hi Hpositive) as (first & ? & _). }
        apply lookup_lt_Some in Hi. rewrite length_app in Hi. simpl in Hi. lia.
Qed.

Lemma scanned_column (column : list Z) :
  scanned column (foldl scan ([], None) (enumerate column)).
Proof.
  induction column as [|pixel column IH] using rev_ind.
  - apply scanned_start.
  - rewrite enumerate_snoc, foldl_app. simpl. apply (scanned_step _ _ _ IH).
Qed.

Lemma region_found (column : list Z) (run : Z * Z) :
  run ∈ findContiguousRegions column → closedRun column run.1 run.2.
Proof. apply (runs_closed _ _ (scanned_column column)). Qed.

Lemma center_inside (first stop : Z) :
  0 ≤ first < stop → first ≤ (first + stop) `quot` 2 < stop.
Proof.
  intros Hrange. rewrite Z.quot_div_nonneg by lia. split.
  - apply Z.div_le_lower_bound; lia.
  - apply Z.div_lt_upper_bound; lia.
Qed.

Lemma centers_increase (column : list Z) (i j : nat) (above below : Z) :
  (i < j)%nat →
  findContiguousRegionCenters column !! i = Some above →
  findContiguousRegionCenters column !! j = Some below →
  above < below.
Proof.
  intros Hij Hi Hj. unfold findContiguousRegionCenters in *.
  rewrite list_lookup_fmap in Hi, Hj.
  destruct (findContiguousRegions column !! i) as [earlier|] eqn:Hearlier; [|done].
  destruct (findContiguousRegions column !! j) as [later|] eqn:Hlater; [|done].
  simpl in Hi, Hj. injection Hi as <-. injection Hj as <-.
  pose proof (runs_ordered _ _ (scanned_column column) i j earlier later Hij
                Hearlier Hlater) as Hordered.
  apply list_elem_of_lookup_2 in Hearlier, Hlater.
  apply region_found in Hearlier as (Hfirst & _), Hlater as (Hsecond & _).
  pose proof (center_inside _ _ Hfirst). pose proof (center_inside _ _ Hsecond).
  lia.
Qed.

(** X1: on a column of pixels that are not negative, the regions that
    [findContiguousRegions] returns are exactly the runs that open at
    the top of the column or below a zero, hold no zero, and are closed
    by a zero; the second component of a region is the row of that
    closing zero. *)
Theorem findContiguousRegions_closed_runs (column : list Z) (first stop : Z) :
  Forall (λ pixel, 0 ≤ pixel) column →
  (first, stop) ∈ findContiguousRegions column
  ↔ closedRun column first stop ∧ opensRun column first.
Proof.
  intros Hnonneg. pose proof (scanned_column column) as Hscanned. split.
  - intros Hrun. split.
    + apply (runs_closed _ _ Hscanned (first, stop) Hrun).
    + apply (runs_opened _ _ Hscanned Hnonneg (first, stop) Hrun).
  - intros [Hrun Hopens]. by apply (runs_found _ _ Hscanned).
Qed.

Lemma findContiguousRegions_closed_runs_witness :
  Forall (λ pixel, 0 ≤ pixel) [0; 1; 1; 0; 1] ∧
  ((1, 3) ∈ findContiguousRegions [0; 1; 1; 0; 1]
   ↔ closedRun [0; 1; 1; 0; 1] 1 3 ∧ opensRun [0; 1; 1; 0; 1] 1).
Proof.
  assert (H : Forall (λ pixel, 0 ≤ pixel) [0; 1; 1; 0; 1]).
  { repeat constructor; lia. }
  split; [exact H|]. exact (findContiguousRegions_closed_runs _ 1 3 H).
Defined.
End scan.

(** ** The candidate points and the mask *)

Section candidates_on_mask.
Import Viterbi ViterbiInvariants ViterbiPaths.

Lemma Qc_of_Z_inj (a b : Z) : Qc_of_Z a = Qc_of_Z b → a = b.
Proof.
  intros H. apply (f_equal Qcanon.this) in H. simpl in H.
  injection H as H. lia.
Qed.

Lemma candidate_center (binary : BinaryImage) (c : nat) (column : list Point)
    (p : Point) :
  getPointLocations binary !! c = Some column → p ∈ column →
  ∃ pixels first stop,
    swapaxes binary !! c = Some pixels ∧
    closedRun pixels first stop ∧
    p = mkPoint (Z.of_nat c) (Qc_of_Z ((first + stop) `quot` 2)).
Proof.
  intros Hc Hp. unfold getPointLocations, enumerate in Hc.
  rewrite list_lookup_fmap, list_lookup_imap in Hc.
  destruct (swapaxes binary !! c) as [pixels|] eqn:Hpixels; [|done].
  simpl in Hc. injection Hc as <-.
  apply list_elem_of_fmap in Hp as (row & -> & Hrow).
  unfold findContiguousRegionCenters in Hrow.
  apply list_elem_of_fmap in Hrow as ([first stop] & -> & Hrun).
  exists pixels, first, stop. split; [done|]. split; [|done].
  apply (region_found _ _ Hrun).
Qed.

Lemma swapaxes_lookup (binary : BinaryImage) (c : nat) (pixels : list Z)
    (r : nat) (pixel : Z) :
  swapaxes binary !! c = Some pixels → pixels !! r = Some pixel → pixel ≠ 0 →
  (c < width binary)%nat ∧
  ∃ line, binary !! r = Some line ∧ line !! c = Some pixel.
Proof.
  intros Hc Hr Hpixel. unfold swapaxes in Hc.
  rewrite list_lookup_fmap in Hc.
  destruct (seq 0 (width binary) !! c) as [c'|] eqn:Hseq; [|done].
  apply lookup_seq in Hseq as [-> Hlt]. simpl in Hc. injection Hc as <-.
  split; [done|].
  rewrite list_lookup_fmap in Hr.
  apply fmap_Some in Hr as (line & Hline & ->).
  exists line. split; [done|].
  destruct (line !! c) as [pixel|]; done.
Qed.

Lemma candidate_pixel (binary : BinaryImage) (p : Point) :
  p ∈ Common.flatten (getPointLocations binary) →
  ∃ row pixel,
    y p = Qc_of_Z row ∧ 0 ≤ row < Z.of_nat (length binary) ∧
    0 ≤ x p < Z.of_nat (width binary) ∧
    pixelAt binary row (x p) = Some pixel ∧ pixel ≠ 0.
Proof.
  intros Hp. apply elem_of_flatten in Hp as (column & Hp & Hcolumn).
  apply list_elem_of_lookup in Hcolumn as (c & Hc).
  destruct (candidate_center binary c column p Hc Hp)
    as (pixels & first & stop & Hpixels & Hrun & ->).
  destruct Hrun as (Hrange & _ & Hrun & _).
  pose proof (center_inside _ _ Hrange) as Hcenter.
  destruct (Hrun _ Hcenter) as (pixel & Hpixel & Hne).
  destruct (swapaxes_lookup binary c pixels _ pixel Hpixels Hpixel Hne)
    as (Hwidth & line & Hline & Hlook).
  exists ((first + stop) `quot` 2), pixel. simpl.
  split; [done|]. split.
  { apply lookup_lt_Some in Hline. lia. }
  split; [lia|]. split; [|done].
  unfold pixelAt. rewrite Hline. simpl. by rewrite Nat2Z.id.
Qed.

(** X2: every candidate point of [getPointLocations] lies on the
    trace: its ordinate is a row of the mask, its abscissa a column of
    the mask, and the pixel of the mask there is not zero. *)
Theorem candidates_on_trace (binary : BinaryImage) (p : Point) :
  p ∈ Common.flatten (getPointLocations binary) →
  ∃ row pixel,
    y p = Qc_of_Z row ∧ 0 ≤ row < Z.of_nat (length binary) ∧
    0 ≤ x p < Z.of_nat (width binary) ∧
    pixelAt binary row (x p) = Some pixel ∧ pixel ≠ 0.
Proof. apply candidate_pixel. Qed.

Lemma candidates_on_trace_witness :
  mkPoint 2 (Qc_of_Z 1) ∈ Common.flatten (getPointLocations Examples.climbingMask) ∧
  ∃ row pixel,
    Qc_of_Z 1 = Qc_of_Z row ∧ 0 ≤ row < 4 ∧ 0 ≤ 2 < 5 ∧
    pixelAt Examples.climbingMask row 2 = Some pixel ∧ pixel ≠ 0.
Proof.
  assert (H : mkPoint 2 (Qc_of_Z 1)
              ∈ Common.flatten (getPointLocations Examples.climbingMask)).
  { vm_compute. do 2 right. left. }
  split; [exact H|].
  exact (candidates_on_trace Examples.climbingMask (mkPoint 2 (Qc_of_Z 1)) H).
Defined.

Lemma column_distinct (binary : BinaryImage) (c : nat) (column : list Point) :
  getPointLocations binary !! c = Some column → NoDup column.
Proof.
  intros Hc. unfold getPointLocations, enumerate in Hc.
  rewrite list_lookup_fmap, list_lookup_imap in Hc.
  destruct (swapaxes binary !! c) as [pixels|] eqn:Hpixels; [|done].
  simpl in Hc. injection Hc as <-.
  apply NoDup_fmap_2_strong.
  { intros a b _ _ H. apply (f_equal y) in H. by apply Qc_of_Z_inj. }
  apply NoDup_alt. intros i j center Hi Hj.
  destruct (Nat.lt_trichotomy i j) as [Hlt|[->|Hgt]]; [|done|].
  - pose proof (centers_increase pixels i j center center Hlt Hi Hj). lia.
  - pose proof (centers_increase pixels j i center center Hgt Hj Hi). lia.
Qed.

Lemma columns_distinct (pointsByColumn : list (list Point)) (c : nat) :
  columnwise pointsByColumn →
  (∀ i column, pointsByColumn !! i = Some column → NoDup column) →
  NoDup (leftOf pointsByColumn c).
Proof.
  intros Hcolumns Hdistinct. induction c as [|c IH].
  - unfold leftOf. rewrite take_0. constructor.
  - destruct (pointsByColumn !! c) as [column|] eqn:Hc.
    + rewrite (leftOf_next _ c column Hc). apply list.NoDup_app.
      split; [done|]. split; [|by apply (Hdistinct c)].
      intros p Hleft Hp.
      apply (leftOf_candidate _ Hcolumns) in Hleft as [_ Hx].
      rewrite (Hcolumns c column p Hc Hp) in Hx. lia.
    + apply lookup_ge_None in Hc. unfold leftOf in *.
      rewrite take_ge in IH by lia. by rewrite take_ge by lia.
Qed.

(** X3: no candidate point occurs twice: the centres of a column
    increase strictly down the column, and columns do not share
    points.  The points are the keys of the table of best paths, so no
    two candidates share a record. *)
Theorem candidates_distinct (binary : BinaryImage) :
  NoDup (Common.flatten (getPointLocations binary)).
Proof.
  rewrite <- (take_ge (getPointLocations binary) (length (getPointLocations binary)))
    by lia.
  apply (columns_distinct (getPointLocations binary)).
  - apply getPointLocations_columnwise.
  - apply column_distinct.
Qed.
End candidates_on_mask.

(** ** When [extractSignal] returns nothing *)

Section blank_masks.
Import Viterbi ViterbiInvariants ViterbiPaths.

Local Abbreviation scan :=
  (λ (state : list (Z * Z) * option Z) (entry : Z * Z),
     let '(locations, start) := state in
     let '(index, pixel) := entry in
     match start with
     | None => if 0 <? pixel then (locations, Some index) else (locations, start)
     | Some s =>
         if pixel =? 0 then (locations ++ [(s, index)], None)
         else (locations, start)
     end).

Lemma no_region_no_closing_zero (pixels : list Z) (i j : nat) (pixel : Z) :
  findContiguousRegions pixels = [] →
  (i < j)%nat → pixels !! i = Some pixel → 0 < pixel → pixels !! j ≠ Some 0.
Proof.
  intros Hempty Hij Hi Hpositive Hj.
  pose proof (scanned_column pixels) as Hscanned.
  destruct (foldl scan ([], None) (enumerate pixels)) as [locations start] eqn:Hstate.
  assert (Hlocations : locations = []).
  { unfold findContiguousRegions in Hempty. by rewrite Hstate in Hempty. }
  destruct (runs_none _ _ Hscanned Hlocations i pixel Hi Hpositive)
    as (first & Hstart & Hle).
  destruct (run_open _ _ Hscanned first Hstart) as (_ & _ & Hrun & _).
  destruct (Hrun (Z.of_nat j)) as (pixel' & Hj' & Hne).
  { apply lookup_lt_Some in Hj. lia. }
  rewrite Nat2Z.id in Hj'. congruence.
Qed.

Lemma blank_columns (binary : BinaryImage) (pixels : list Z) :
  Common.flatten (getPointLocations binary) = [] →
  pixels ∈ swapaxes binary → findContiguousRegions pixels = [].
Proof.
  intros Hempty Hpixels.
  apply list_elem_of_lookup in Hpixels as (c & Hc).
  destruct (findContiguousRegions pixels) as [|run rest] eqn:Hregions; [done|].
  exfalso.
  assert (Hp : mkPoint (Z.of_nat c) (Qc_of_Z ((run.1 + run.2) `quot` 2))
               ∈ Common.flatten (getPointLocations binary)).
  { apply elem_of_flatten.
    exists (map (λ row, mkPoint (Z.of_nat c) (Qc_of_Z row))
                (findContiguousRegionCenters pixels)).
    split.
    - unfold findContiguousRegionCenters. rewrite Hregions. simpl. left.
    - apply list_elem_of_lookup. exists c.
      unfold getPointLocations, enumerate.
      rewrite list_lookup_fmap, list_lookup_imap, Hc. done. }
  rewrite Hempty in Hp. by apply elem_of_nil in Hp.
Qed.

(** X4: [extractSignal] returns on every mask, and what it returns is
    decided by the columns alone: [None] when no column holds a
    positive pixel above a zero pixel, an array as soon as one column
    does.  A mask whose trace pixels all reach the bottom edge, or a
    mask without a zero pixel, therefore gives [None]. *)
Theorem extractSignal_outcome (binary : BinaryImage) :
  (extractSignal binary = Ok None ∧
   ∀ pixels (i j : nat) pixel,
     pixels ∈ swapaxes binary → (i < j)%nat →
     pixels !! i = Some pixel → 0 < pixel → pixels !! j ≠ Some 0) ∨
  (∃ signal, extractSignal binary = Ok (Some signal) ∧
   ∃ pixels (i j : nat) pixel,
     pixels ∈ swapaxes binary ∧ (i < j)%nat ∧
     pixels !! i = Some pixel ∧ 0 < pixel ∧ pixels !! j = Some 0).
Proof.
  destruct (Common.flatten (getPointLocations binary)) as [|p points] eqn:Hpoints.
  - left. split.
    + unfold extractSignal. cbv zeta. by rewrite Hpoints.
    + intros pixels i j pixel Hpixels.
      apply no_region_no_closing_zero. by apply blank_columns with binary.
  - right.
    assert (Hcandidates : Common.flatten (getPointLocations binary) ≠ [])
      by (by rewrite Hpoints).
    destruct (extractSignal_stages binary Hcandidates)
      as (_ & _ & _ & _ & signal & _ & _ & _ & _ & _ & _ & _ & _ & Hsignal & _).
    exists signal. split; [done|].
    assert (Hp : p ∈ Common.flatten (getPointLocations binary))
      by (rewrite Hpoints; left).
    apply elem_of_flatten in Hp as (column & Hp & Hcolumn).
    apply list_elem_of_lookup in Hcolumn as (c & Hc).
    destruct (candidate_center binary c column p Hc Hp)
      as (pixels & first & stop & Hpixels & Hrun & _).
    destruct Hrun as (Hrange & (pixel & Hfirst & Hpositive) & _ & Hstop).
    exists pixels, (Z.to_nat first), (Z.to_nat stop), pixel.
    split; [by apply list_elem_of_lookup_2 with c|].
    split; [lia|]. done.
Qed.
End blank_masks.

(** ** Bounds on the transition cost *)

Section cost_bounds.
Import Viterbi.
Local Open Scope R_scope.

Lemma quarter_turn (v : R) : -90 <= asin v / PI * 180 <= 90.
Proof.
  pose proof (asin_bound v) as [Hlo Hhi]. pose proof PI_RGT_0 as Hpi.
  assert (Hscale : 0 <= 180 / PI).
  { apply Rlt_le, Rdiv_lt_0_compat; lra. }
  assert (Hform : asin v / PI * 180 = asin v * (180 / PI)) by (field; lra).
  assert (Hquarter : PI / 2 * (180 / PI) = 90) by (field; lra).
  rewrite Hform.
  pose proof (Rmult_le_compat_r _ _ _ Hscale Hlo).
  pose proof (Rmult_le_compat_r _ _ _ Hscale Hhi).
  lra.
Qed.

Lemma angleFromOffsets_value (dx dy : R) :
  dx ≠ 0 →
  angleFromOffsets dx dy = Ok (asin (dy / sqrt (dx * dx + dy * dy)) / PI * 180).
Proof.
  intros Hdx. unfold angleFromOffsets.
  rewrite euclideanDistance_defined. simpl.
  unfold PyMath.truediv.
  destruct (Req_dec_T (sqrt (dx * dx + dy * dy)) 0) as [Hzero|_].
  { pose proof (distance_positive dx dy Hdx). lra. }
  simpl. unfold PyMath.asin.
  destruct (Rle_dec (Rabs (dy / sqrt (dx * dx + dy * dy))) 1) as [_|Hout]; [done|].
  by destruct Hout; apply sine_bounded.
Qed.

Lemma angleFromOffsets_range (dx dy angle : R) :
  angleFromOffsets dx dy = Ok angle → -90 <= angle <= 90.
Proof.
  unfold angleFromOffsets. rewrite euclideanDistance_defined. simpl.
  unfold PyMath.truediv.
  destruct (Req_dec_T (sqrt (dx * dx + dy * dy)) 0) as [|_]; [done|].
  simpl. unfold PyMath.asin.
  destruct (Rle_dec (Rabs (dy / sqrt (dx * dx + dy * dy))) 1) as [_|]; [|done].
  simpl. intros [= <-]. apply quarter_turn.
Qed.

Lemma column_distance (n : Z) (dy : R) :
  n ≠ 0%Z → 1 <= sqrt (IZR n * IZR n + dy * dy).
Proof.
  intros Hn. apply Rle_trans with (Rabs (IZR n)).
  - rewrite <- abs_IZR. apply IZR_le. lia.
  - rewrite <- sqrt_Rsqr_abs. apply sqrt_le_1_alt.
    pose proof (Rle_0_sqr dy). unfold Rsqr in *. lra.
Qed.

Lemma score_value (currentPoint candidatePoint : Point) (candidateAngle : R) :
  x candidatePoint ≠ x currentPoint →
  ∃ currentAngle distance,
    angleBetweenPoints candidatePoint currentPoint = Ok currentAngle ∧
    distanceBetweenPoints currentPoint candidatePoint = Ok distance ∧
    1 <= distance ∧
    score currentPoint candidatePoint candidateAngle
    = Ok (distance / 2 + Rabs (candidateAngle - currentAngle) / 360).
Proof.
  intros Hx. unfold score.
  destruct (angleBetweenPoints_defined candidatePoint currentPoint Hx)
    as (currentAngle & Hangle).
  rewrite Hangle. simpl.
  unfold distanceBetweenPoints. rewrite euclideanDistance_defined. simpl.
  eexists _, _. split; [done|]. split; [done|]. split.
  { apply column_distance. lia. }
  f_equal. unfold angleSimilarity. field.
Qed.

(** X5: between two points of different columns the transition cost
    is defined, and it is half the distance between the points plus
    the change of direction over 360 degrees: at least one half, since
    the columns are at least one pixel apart, and at most half the
    distance plus one half when the incoming angle is within a quarter
    turn. *)
Theorem score_bounds (currentPoint candidatePoint : Point) (candidateAngle : R) :
  x candidatePoint ≠ x currentPoint →
  ∃ cost distance currentAngle,
    score currentPoint candidatePoint candidateAngle = Ok cost ∧
    distanceBetweenPoints currentPoint candidatePoint = Ok distance ∧
    angleBetweenPoints candidatePoint currentPoint = Ok currentAngle ∧
    cost = distance / 2 + Rabs (candidateAngle - currentAngle) / 360 ∧
    1 <= distance ∧ / 2 <= cost ∧ distance / 2 <= cost ∧
    (-90 <= candidateAngle <= 90 → cost <= distance / 2 + / 2).
Proof.
  intros Hx.
  destruct (score_value currentPoint candidatePoint candidateAngle Hx)
    as (currentAngle & distance & Hangle & Hdistance & Hfar & Hscore).
  eexists _, distance, currentAngle.
  split; [exact Hscore|]. split; [done|]. split; [done|]. split; [done|].
  split; [done|].
  pose proof (Rabs_pos (candidateAngle - currentAngle)) as Hturn.
  split; [lra|]. split; [lra|]. intros Hrange.
  apply angleFromOffsets_range in Hangle.
  assert (Rabs (candidateAngle - currentAngle) <= 180).
  { apply Rabs_le. lra. }
  lra.
Qed.

Lemma score_bounds_witness :
  (0 ≠ 1)%Z ∧
  ∃ cost distance currentAngle,
    score (mkPoint 1 0) (mkPoint 0 0) 0 = Ok cost ∧
    distanceBetweenPoints (mkPoint 1 0) (mkPoint 0 0) = Ok distance ∧
    angleBetweenPoints (mkPoint 0 0) (mkPoint 1 0) = Ok currentAngle ∧
    cost = distance / 2 + Rabs (0 - currentAngle) / 360 ∧
    1 <= distance ∧ / 2 <= cost ∧ distance / 2 <= cost ∧
    (-90 <= 0 <= 90 → cost <= distance / 2 + / 2).
Proof.
  split; [lia|]. apply (score_bounds (mkPoint 1 0) (mkPoint 0 0) 0). simpl. lia.
Defined.

(** X6: the angle between two points of different columns is defined,
    stays within a quarter turn either way, and changes sign when the
    two points are exchanged. *)
Theorem angleBetweenPoints_range (firstPoint secondPoint : Point) :
  x firstPoint ≠ x secondPoint →
  ∃ angle,
    angleBetweenPoints firstPoint secondPoint = Ok angle ∧
    -90 <= angle <= 90 ∧
    angleBetweenPoints secondPoint firstPoint = Ok (- angle).
Proof.
  intros Hx. unfold angleBetweenPoints.
  set (dx := IZR (x secondPoint - x firstPoint)).
  set (dy := Q2R (y secondPoint - y firstPoint)%Qc).
  assert (Hdx : dx ≠ 0) by (apply not_0_IZR; lia).
  assert (Hback : IZR (x firstPoint - x secondPoint) = - dx).
  { unfold dx. rewrite <- opp_IZR. f_equal. lia. }
  assert (Hdown : Q2R (y firstPoint - y secondPoint)%Qc = - dy).
  { unfold dy.
    replace (y firstPoint - y secondPoint)%Qc
      with (- (y secondPoint - y firstPoint))%Qc by ring.
    rewrite <- Qreals.Q2R_opp. apply Qreals.Qeq_eqR, Qred_correct. }
  eexists. split; [by apply angleFromOffsets_value|].
  split; [apply quarter_turn|].
  rewrite Hback, Hdown, angleFromOffsets_value by lra.
  f_equal.
  replace (- dx * - dx + - dy * - dy) with (dx * dx + dy * dy) by ring.
  replace (- dy / sqrt (dx * dx + dy * dy))
    with (- (dy / sqrt (dx * dx + dy * dy))).
  - rewrite asin_opp. field. pose proof PI_RGT_0. lra.
  - field. pose proof (distance_positive dx dy Hdx). lra.
Qed.

Lemma angleBetweenPoints_range_witness :
  (0 ≠ 1)%Z ∧
  ∃ angle,
    angleBetweenPoints (mkPoint 0 0) (mkPoint 1 1) = Ok angle ∧
    -90 <= angle <= 90 ∧
    angleBetweenPoints (mkPoint 1 1) (mkPoint 0 0) = Ok (- angle).
Proof.
  split; [lia|]. apply (angleBetweenPoints_range (mkPoint 0 0) (mkPoint 1 1)).
  simpl. lia.
Defined.
End cost_bounds.

(** ** The pairs of points that are scored *)

Section scored_pairs.
Import Viterbi ViterbiInvariants.

(** What [getAdjacent] yields for a column lies left of that column. *)
Lemma getAdjacent_left (pointsByColumn : list (list Point))
    (table : gmap Point Entry) (startingColumn lookBack : Z)
    (adjacent : list (R * Point * R)) :
  columnwise pointsByColumn →
  0 ≤ startingColumn ≤ Z.of_nat (length pointsByColumn) →
  getAdjacent pointsByColumn table startingColumn lookBack = Ok adjacent →
  ∀ triple, triple ∈ adjacent →
    triple.1.2 ∈ Common.flatten pointsByColumn ∧ x triple.1.2 < startingColumn.
Proof.
  intros Hcolumns Hstart. unfold getAdjacent. cbv zeta.
  set (left_ := Common.lowerClamp (startingColumn - lookBack) 0).
  assert (Hleft : 0 ≤ left_).
  { unfold left_, Common.lowerClamp.
    destruct (Z.ltb_spec 0 (startingColumn - lookBack)); lia. }
  destruct (expandLeft_defined pointsByColumn startingColumn (Z.to_nat left_)
              (Z.to_nat left_ + 2)) as (final & Hrun & _); [lia|].
  rewrite Z2Nat.id in Hrun by done. rewrite Hrun, bind_Ok.
  intros Hall%mapM_Forall2 triple Hin.
  apply list_elem_of_lookup in Hin as (i & Hi).
  destruct (Forall2_lookup_r _ _ _ _ _ Hall Hi) as (q & Hq & Hlook).
  apply list_elem_of_lookup_2 in Hq.
  destruct (table !! q) as [[[cost previous] angle]|]; [|done].
  injection Hlook as <-. simpl.
  apply (slice_candidates pointsByColumn final startingColumn q Hstart) in Hq.
  apply (leftOf_candidate pointsByColumn Hcolumns) in Hq as [Hq Hx].
  split; [done|lia].
Qed.

(** C9, as the code has it: the cost of staying at the same point is
    not a number, evaluating it is a division by zero whatever the
    point and the incoming angle; and [extractSignal] never evaluates
    it, since the points that [getAdjacent] yields for a candidate
    point, the only ones that the point is scored against, lie in
    columns strictly to its left, where the cost is defined and at
    least one half. *)
Theorem score_adjacent_points (binary : BinaryImage) (table : gmap Point Entry)
    (point : Point) (adjacent : list (R * Point * R)) :
  point ∈ Common.flatten (getPointLocations binary) →
  getAdjacent (getPointLocations binary) table (index point) minimumLookBack
  = Ok adjacent →
  (∀ a α, score a a α = Raise ZeroDivisionError) ∧
  ∀ cadidateScore candidatePoint candidateAngle,
    (cadidateScore, candidatePoint, candidateAngle) ∈ adjacent →
    x candidatePoint < x point ∧
    ∃ cost,
      score point candidatePoint candidateAngle = Ok cost ∧ (/ 2 <= cost)%R.
Proof.
  intros Hpoint Hadjacent. split; [apply score_same_point|].
  intros cadidateScore candidatePoint candidateAngle Hin.
  pose proof (getPointLocations_columnwise binary) as Hcolumns.
  destruct (candidate_column _ Hcolumns point Hpoint) as [Hrange _].
  assert (Hstart : 0 ≤ index point
                   ≤ Z.of_nat (length (getPointLocations binary))).
  { unfold index. lia. }
  destruct (getAdjacent_left _ _ _ _ _ Hcolumns Hstart Hadjacent _ Hin)
    as [_ Hleft].
  simpl in Hleft. unfold index in Hleft. split; [done|].
  assert (Hcolumn : x candidatePoint ≠ x point) by lia.
  destruct (score_value point candidatePoint candidateAngle Hcolumn)
    as (currentAngle & distance & _ & _ & Hfar & ->).
  eexists. split; [done|].
  pose proof (Rabs_pos (candidateAngle - currentAngle)). lra.
Qed.

Lemma score_adjacent_points_witness :
  mkPoint 1 (Qc_of_Z 2) ∈ Common.flatten (getPointLocations Examples.climbingMask) ∧
  getAdjacent (getPointLocations Examples.climbingMask)
              {[ mkPoint 0 (Qc_of_Z 2) := seed ]} 1 minimumLookBack
  = Ok [(0%R, mkPoint 0 (Qc_of_Z 2), 0%R)] ∧
  0 < 1 ∧
  ∃ cost,
    score (mkPoint 1 (Qc_of_Z 2)) (mkPoint 0 (Qc_of_Z 2)) 0%R = Ok cost ∧
    (/ 2 <= cost)%R.
Proof.
  assert (Hpoint : mkPoint 1 (Qc_of_Z 2)
                   ∈ Common.flatten (getPointLocations Examples.climbingMask)).
  { vm_compute. right. left. }
  assert (Hadjacent : getAdjacent (getPointLocations Examples.climbingMask)
                        {[ mkPoint 0 (Qc_of_Z 2) := seed ]}
                        (index (mkPoint 1 (Qc_of_Z 2))) minimumLookBack
                      = Ok [(0%R, mkPoint 0 (Qc_of_Z 2), 0%R)]).
  { vm_compute. reflexivity. }
  split; [exact Hpoint|]. split; [exact Hadjacent|].
  apply (proj2 (score_adjacent_points Examples.climbingMask
                  {[ mkPoint 0 (Qc_of_Z 2) := seed ]} (mkPoint 1 (Qc_of_Z 2))
                  [(0%R, mkPoint 0 (Qc_of_Z 2), 0%R)] Hpoint Hadjacent)
               0%R (mkPoint 0 (Qc_of_Z 2)) 0%R).
  left.
Defined.

(** C9, as stated, fails at every point: the cost of staying at the
    origin with a level incoming angle is a division by zero, not 0. *)
Lemma score_adjacent_points_counterexample :
  score (mkPoint 0 0) (mkPoint 0 0) 0%R = Raise ZeroDivisionError ∧
  score (mkPoint 0 0) (mkPoint 0 0) 0%R ≠ Ok 0%R.
Proof.
  rewrite (score_same_point (mkPoint 0 0) 0%R). split; [done|discriminate].
Qed.
End scored_pairs.

(** ** Bounds on the table of best paths *)

Section table_bounds.
Import Viterbi ViterbiInvariants ViterbiPaths.

Variable pointsByColumn : list (list Point).
Hypothesis columns : columnwise pointsByColumn.

Local Abbreviation covers := (ViterbiInvariants.covers pointsByColumn).

(** What [visit] writes into the table. *)
Lemma visit_result (table : gmap Point Entry) (p : Point) :
  tableInvariant pointsByColumn table →
  covers (Z.to_nat (x p)) table →
  p ∈ Common.flatten pointsByColumn →
  (visit pointsByColumn table p = Ok (<[p := seed]> table) ∧
   leftOf pointsByColumn (Z.to_nat (x p)) = []) ∨
  (∃ best candidateScore previous candidateAngle cost angle,
     visit pointsByColumn table p
     = Ok (<[p := ((cost + candidateScore)%R, Some best, angle)]> table) ∧
     best ∈ leftOf pointsByColumn (Z.to_nat (x p)) ∧
     table !! best = Some (candidateScore, previous, candidateAngle) ∧
     score p best candidateAngle = Ok cost ∧
     angleBetweenPoints best p = Ok angle).
Proof.
  intros Hinv Hcovers Hp.
  destruct (candidate_column _ columns p Hp) as (Hrange & _).
  unfold visit, index.
  destruct (getAdjacent_defined pointsByColumn table (x p) minimumLookBack)
    as (adjacent & -> & Hadjacent & Hempty); [lia|done|]. simpl.
  destruct adjacent as [|first others] eqn:Hlist.
  { left. simpl. split; [done|]. by apply Hempty. }
  right. rewrite <- Hlist in *. clear Hempty.
  replace (length adjacent =? 0)%nat with false by (by rewrite Hlist).
  destruct (mapM_defined
              (λ triple : R * Point * R,
                 let '(cadidateScore, candidatePoint, candidateAngle) := triple in
                 s ← score p candidatePoint candidateAngle;
                 Ok ((s + cadidateScore)%R, candidatePoint)) adjacent)
    as (scored & -> & Hscored).
  { intros [[candidateScore candidatePoint] candidateAngle] Hin.
    destruct (Hadjacent _ Hin) as [Hleft _]. simpl in Hleft.
    apply (leftOf_candidate _ columns) in Hleft as [_ Hx].
    destruct (score_defined p candidatePoint candidateAngle) as (cost & ->); [lia|].
    simpl. eauto. }
  simpl.
  destruct (minBy_defined fst scored) as ([bestScore bestPoint] & -> & Hbest).
  { intros ->. apply Forall2_nil_inv_r in Hscored. by rewrite Hlist in Hscored. }
  simpl.
  apply list_elem_of_lookup in Hbest as (i & Hi).
  destruct (Forall2_lookup_r _ _ _ _ _ Hscored Hi)
    as ([[candidateScore candidatePoint] candidateAngle] & Htriple & Hcost).
  apply list_elem_of_lookup_2 in Htriple.
  destruct (Hadjacent _ Htriple) as [Hleft (previous & Hrecorded)].
  simpl in Hleft, Hrecorded.
  apply bind_Ok_inv in Hcost as (cost & Hscore & Hcost).
  injection Hcost as <- <-.
  pose proof (leftOf_candidate _ columns _ _ Hleft) as [_ Hx].
  destruct (angleBetweenPoints_defined candidatePoint p) as (angle & Hangle); [lia|].
  rewrite Hangle. simpl.
  exists candidatePoint, candidateScore, previous, candidateAngle, cost, angle.
  done.
Qed.

Lemma bounds_seed (table : gmap Point Entry) (p : Point) :
  tableBounds pointsByColumn table →
  leftOf pointsByColumn (Z.to_nat (x p)) = [] →
  tableBounds pointsByColumn (<[p := seed]> table).
Proof.
  intros [Hstart Hnonneg Hstep Hangle] Hleft. split.
  - intros q cost angle Hq.
    apply lookup_insert_Some in Hq as [[<- Hq]|[_ Hq]]; [|by eapply Hstart].
    by injection Hq as <- <-.
  - intros q cost previous angle Hq.
    apply lookup_insert_Some in Hq as [[<- Hq]|[_ Hq]]; [|by eapply Hnonneg].
    injection Hq as <- _ _. lra.
  - intros q cost r angle Hq.
    apply lookup_insert_Some in Hq as [[_ Hq]|[_ Hq]]; [done|by eapply Hstep].
  - intros q cost previous angle Hq.
    apply lookup_insert_Some in Hq as [[<- Hq]|[_ Hq]]; [|by eapply Hangle].
    injection Hq as _ _ <-. lra.
Qed.

Lemma bounds_step (table : gmap Point Entry) (p best : Point)
    (candidateScore : R) (previous : option Point) (candidateAngle cost angle : R) :
  tableBounds pointsByColumn table →
  table !! best = Some (candidateScore, previous, candidateAngle) →
  x best ≠ x p →
  score p best candidateAngle = Ok cost →
  angleBetweenPoints best p = Ok angle →
  tableBounds pointsByColumn
    (<[p := ((cost + candidateScore)%R, Some best, angle)]> table).
Proof.
  intros [Hstart Hnonneg Hstep Hangle] Hbest Hx Hscore Hturn.
  pose proof (Hnonneg _ _ _ _ Hbest) as Hsofar.
  assert (Hhalf : (/ 2 <= cost)%R).
  { destruct (score_value p best candidateAngle Hx)
      as (currentAngle & distance & _ & _ & Hfar & Hvalue).
    rewrite Hvalue in Hscore. injection Hscore as <-.
    pose proof (Rabs_pos (candidateAngle - currentAngle)). lra. }
  split.
  - intros q cost' angle' Hq.
    apply lookup_insert_Some in Hq as [[_ Hq]|[_ Hq]]; [done|by eapply Hstart].
  - intros q cost' previous' angle' Hq.
    apply lookup_insert_Some in Hq as [[<- Hq]|[_ Hq]]; [|by eapply Hnonneg].
    injection Hq as <- _ _. lra.
  - intros q cost' r angle' Hq.
    apply lookup_insert_Some in Hq as [[<- Hq]|[_ Hq]]; [|by eapply Hstep].
    injection Hq as <- _ _. lra.
  - intros q cost' previous' angle' Hq.
    apply lookup_insert_Some in Hq as [[<- Hq]|[_ Hq]]; [|by eapply Hangle].
    injection Hq as _ _ <-. by apply angleFromOffsets_range in Hturn.
Qed.

Lemma visit_bounds (table table' : gmap Point Entry) (p : Point) :
  tableInvariant pointsByColumn table →
  covers (Z.to_nat (x p)) table →
  p ∈ Common.flatten pointsByColumn →
  tableBounds pointsByColumn table →
  visit pointsByColumn table p = Ok table' →
  tableBounds pointsByColumn table'.
Proof.
  intros Hinv Hcovers Hp Hbounds Hvisit.
  destruct (visit_result table p Hinv Hcovers Hp)
    as [[Hseed Hleft]|(best & candidateScore & previous & candidateAngle & cost &
                       angle & Hstep & Hbest & Hrecorded & Hscore & Hangle)].
  - rewrite Hseed in Hvisit. injection Hvisit as <-. by apply bounds_seed.
  - rewrite Hstep in Hvisit. injection Hvisit as <-.
    apply bounds_step with previous candidateAngle; try done.
    apply (leftOf_candidate _ columns) in Hbest as [_ Hx].
    destruct (candidate_column _ columns p Hp) as (Hrange & _). lia.
Qed.

Lemma visit_column_bounds (table : gmap Point Entry) (c : nat) (column : list Point) :
  pointsByColumn !! c = Some column →
  tableInvariant pointsByColumn table → covers c table →
  tableBounds pointsByColumn table →
  ∃ table', foldM (visit pointsByColumn) table column = Ok table' ∧
    tableInvariant pointsByColumn table' ∧ covers (S c) table' ∧
    tableBounds pointsByColumn table'.
Proof.
  intros Hc Hinv Hcovers Hbounds.
  destruct (foldM_prefix_invariant (visit pointsByColumn)
              (λ done table, tableInvariant pointsByColumn table ∧
                             covers c table ∧
                             tableBounds pointsByColumn table ∧
                             ∀ q, q ∈ done → is_Some (table !! q))
              column table) as (table' & Hrun & Hinv' & Hcovers' & Hbounds' & Hdone).
  { repeat (split; [done|]). intros q Hq. by apply elem_of_nil in Hq. }
  { intros done p rest table0 Hsplit (Hinv0 & Hcovers0 & Hbounds0 & Hdone0).
    assert (Hp : p ∈ column) by (rewrite Hsplit; set_solver).
    assert (Hx : x p = Z.of_nat c) by (by apply (columns c column)).
    assert (Hcandidate : p ∈ Common.flatten pointsByColumn).
    { apply elem_of_flatten. exists column. split; [done|].
      by apply list_elem_of_lookup_2 with c. }
    assert (Hleft : covers (Z.to_nat (x p)) table0) by (by rewrite Hx, Nat2Z.id).
    destruct (visit_defined pointsByColumn columns table0 p Hinv0 Hleft Hcandidate)
      as (table1 & Hvisit & Hinv1 & Hp1 & Hkept).
    pose proof (visit_bounds table0 table1 p Hinv0 Hleft Hcandidate Hbounds0 Hvisit).
    rewrite Hvisit. eexists. split; [done|]. split; [done|]. split.
    - intros q Hq. by apply Hkept, Hcovers0.
    - split; [done|].
      intros q [Hq| ->%list_elem_of_singleton]%elem_of_app; [|done].
      by apply Hkept, Hdone0. }
  exists table'. split; [done|]. split; [done|]. split; [|done].
  intros q Hq. rewrite (leftOf_next _ c column Hc) in Hq.
  apply elem_of_app in Hq as [Hq|Hq]; eauto.
Qed.

Lemma buildTable_bounds :
  ∃ table, buildTable pointsByColumn = Ok table ∧
    tableInvariant pointsByColumn table ∧
    (∀ p, p ∈ Common.flatten pointsByColumn → is_Some (table !! p)) ∧
    tableBounds pointsByColumn table.
Proof.
  destruct (buildTable_defined pointsByColumn columns) as (built & Hbuilt & Hinv0 & Hall).
  exists built. split; [done|]. split; [done|]. split; [done|].
  revert Hbuilt. unfold buildTable. cbv zeta.
  change 1 with (Z.of_nat 1) at 2. rewrite py_slice_from_drop.
  set (base := foldl _ ∅ _).
  assert (Hfirst : Common.flatten (py_slice pointsByColumn 0 1)
                   = leftOf pointsByColumn 1).
  { destruct pointsByColumn as [|column rest]; [done|].
    unfold leftOf. by rewrite slice_from_start by (simpl; lia). }
  assert (Hbase : ∀ q, base !! q
                       = if bool_decide (q ∈ leftOf pointsByColumn 1)
                         then Some seed else None).
  { intros q. unfold base. by rewrite seeds_recorded, Hfirst, lookup_empty. }
  assert (Hinv : tableInvariant pointsByColumn base).
  { split.
    - intros q [entry Hq]. rewrite Hbase in Hq. case_bool_decide; [|done].
      by apply (leftOf_candidate _ columns 1).
    - intros q cost r angle Hq. rewrite Hbase in Hq. by case_bool_decide.
    - intros q entry Hq _. rewrite Hbase in Hq. case_bool_decide; congruence. }
  assert (Hcovers : covers 1 base).
  { intros q Hq. rewrite Hbase, bool_decide_eq_true_2 by done. eauto. }
  assert (Hbounds : tableBounds pointsByColumn base).
  { split.
    - intros q cost angle Hq. rewrite Hbase in Hq. case_bool_decide as Hq'; [|done].
      injection Hq as <- <-. split; [|done].
      apply (leftOf_candidate _ columns) in Hq' as [Hq' Hx].
      destruct (candidate_column _ columns q Hq') as (Hrange & _).
      replace (Z.to_nat (x q)) with 0%nat by lia. done.
    - intros q cost previous angle Hq. rewrite Hbase in Hq.
      case_bool_decide; [|done]. injection Hq as <- _ _. lra.
    - intros q cost r angle Hq. rewrite Hbase in Hq. by case_bool_decide.
    - intros q cost previous angle Hq. rewrite Hbase in Hq.
      case_bool_decide; [|done]. injection Hq as _ _ <-. lra. }
  rewrite foldM_concat.
  destruct (foldM_prefix_invariant
              (λ table column, foldM (visit pointsByColumn) table column)
              (λ done table, tableInvariant pointsByColumn table ∧
                             covers (1 + length done) table ∧
                             tableBounds pointsByColumn table)
              (drop 1 pointsByColumn) base)
    as (table & Hrun & Hinv' & Hcovers' & Hbounds').
  { by rewrite Nat.add_0_r. }
  { intros done column rest table0 Hsplit (Hinv1 & Hcovers1 & Hbounds1).
    assert (Hc : pointsByColumn !! (1 + length done)%nat = Some column).
    { rewrite <- lookup_drop, Hsplit. by rewrite list_lookup_middle. }
    destruct (visit_column_bounds table0 _ column Hc Hinv1 Hcovers1 Hbounds1)
      as (table1 & -> & Hinv2 & Hcovers2 & Hbounds2).
    eexists. split; [done|]. split; [done|]. split; [|done].
    replace (1 + length (done ++ [column]))%nat with (S (1 + length done)); [done|].
    rewrite length_app. simpl. lia. }
  rewrite Hrun. by intros [= <-].
Qed.
End table_bounds.

(** X7: in the table of best paths that [extractSignal] builds from a
    mask, a record without predecessor is the starting record
    (0, none, 0) and belongs to a point with no candidate in any
    column to its left; every cumulative cost is at least zero, and at
    least one half for a point that has a predecessor; every recorded
    angle lies between -90 and 90 degrees. *)
Theorem buildTable_records (binary : Viterbi.BinaryImage) :
  ∃ table,
    Viterbi.buildTable (Viterbi.getPointLocations binary) = Ok table ∧
    ViterbiPaths.tableBounds (Viterbi.getPointLocations binary) table.
Proof.
  destruct (buildTable_bounds (Viterbi.getPointLocations binary)
              (getPointLocations_columnwise binary))
    as (table & Htable & _ & _ & Hbounds).
  by exists table.
Qed.

(** ** The interpolated points *)

Section interpolation.
Import Viterbi ViterbiInvariants ViterbiPaths.

Lemma weighted_between (lo hi a b s t : Qc) :
  (lo ≤ a ≤ hi)%Qc → (lo ≤ b ≤ hi)%Qc → (0 ≤ s)%Qc → (0 ≤ t)%Qc →
  (s + t = 1)%Qc → (lo ≤ a * s + b * t ≤ hi)%Qc.
Proof.
  intros [Ha1 Ha2] [Hb1 Hb2] Hs Ht Hst. split.
  - replace lo with (lo * s + lo * t)%Qc
      by (rewrite <- Qcmult_plus_distr_r, Hst; ring).
    apply Qcplus_le_compat; by apply Qcmult_le_mono_nonneg_r.
  - replace hi with (hi * s + hi * t)%Qc
      by (rewrite <- Qcmult_plus_distr_r, Hst; ring).
    apply Qcplus_le_compat; by apply Qcmult_le_mono_nonneg_r.
Qed.

Lemma interpolated_between (lo hi yf yt : Qc) (xf xt x' : Z) :
  xf < x' < xt → (lo ≤ yf ≤ hi)%Qc → (lo ≤ yt ≤ hi)%Qc →
  (lo ≤ (yt - yf) / Qc_of_Z (xt - xf) * (Qc_of_Z x' - Qc_of_Z xt) + yt ≤ hi)%Qc.
Proof.
  intros Hx Hf Ht.
  assert (Hd : (0 < Qc_of_Z (xt - xf))%Qc).
  { rewrite <- Z2Qc_inj_0. apply (proj1 (Z2Qc_inj_lt _ _)). lia. }
  assert (Hne : Qc_of_Z (xt - xf) ≠ 0%Qc).
  { intros H. rewrite H in Hd. by apply Qclt_not_eq in Hd. }
  replace ((yt - yf) / Qc_of_Z (xt - xf) * (Qc_of_Z x' - Qc_of_Z xt) + yt)%Qc
    with (yt * (Qc_of_Z (x' - xf) / Qc_of_Z (xt - xf))
          + yf * (Qc_of_Z (xt - x') / Qc_of_Z (xt - xf)))%Qc.
  - apply weighted_between; try done.
    + apply Qcmult_nonneg_nonneg.
      * rewrite <- Z2Qc_inj_0. apply (proj1 (Z2Qc_inj_le _ _)). lia.
      * apply Qclt_le_weak, Qcinv_pos, Hd.
    + apply Qcmult_nonneg_nonneg.
      * rewrite <- Z2Qc_inj_0. apply (proj1 (Z2Qc_inj_le _ _)). lia.
      * apply Qclt_le_weak, Qcinv_pos, Hd.
    + rewrite !Z2Qc_inj_sub in *. field. done.
  - rewrite !Z2Qc_inj_sub in *. field. done.
Qed.

Lemma interpolate_points (fromPoint toPoint : Point) :
  x fromPoint < x toPoint →
  ∃ points,
    interpolate fromPoint toPoint = Ok points ∧
    length points = Z.to_nat (x toPoint - x fromPoint - 1) ∧
    ∀ (i : nat) p, points !! i = Some p →
      x p = x fromPoint + 1 + Z.of_nat i ∧ x p < x toPoint ∧
      ∀ lo hi : Qc, (lo ≤ y fromPoint ≤ hi)%Qc → (lo ≤ y toPoint ≤ hi)%Qc →
                    (lo ≤ y p ≤ hi)%Qc.
Proof.
  intros Hx. unfold interpolate, index.
  rewrite bool_decide_eq_false_2 by lia.
  eexists. split; [done|]. split.
  { rewrite length_map. unfold py_range. rewrite length_seqZ. lia. }
  intros i p Hp. rewrite list_lookup_fmap in Hp.
  apply fmap_Some in Hp as (x' & Hx' & ->). simpl.
  unfold py_range in Hx'. apply lookup_seqZ in Hx' as [-> Hi].
  split; [lia|]. split; [lia|].
  intros lo hi Hfrom Hto. apply interpolated_between; [lia|done|done].
Qed.

(** X8: between a point and a point further right [interpolate]
    yields one point for each column strictly between the two, left
    to right, and the ordinate of each lies between the ordinates of
    the two ends. *)
Theorem interpolate_between (fromPoint toPoint : Point) :
  x fromPoint < x toPoint →
  ∃ points,
    interpolate fromPoint toPoint = Ok points ∧
    length points = Z.to_nat (x toPoint - x fromPoint - 1) ∧
    ∀ (i : nat) p, points !! i = Some p →
      x p = x fromPoint + 1 + Z.of_nat i ∧ x p < x toPoint ∧
      ∀ lo hi : Qc, (lo ≤ y fromPoint ≤ hi)%Qc → (lo ≤ y toPoint ≤ hi)%Qc →
                    (lo ≤ y p ≤ hi)%Qc.
Proof. apply interpolate_points. Qed.

Lemma interpolate_between_witness :
  0 < 3 ∧
  ∃ points,
    interpolate (mkPoint 0 0) (mkPoint 3 (Qc_of_Z 6)) = Ok points ∧
    length points = 2%nat ∧
    ∀ (i : nat) p, points !! i = Some p →
      x p = 0 + 1 + Z.of_nat i ∧ x p < 3 ∧
      ∀ lo hi : Qc, (lo ≤ 0 ≤ hi)%Qc → (lo ≤ Qc_of_Z 6 ≤ hi)%Qc →
                    (lo ≤ y p ≤ hi)%Qc.
Proof.
  split; [lia|].
  apply (interpolate_between (mkPoint 0 0) (mkPoint 3 (Qc_of_Z 6))). simpl. lia.
Defined.
End interpolation.

(** ** The samples of the signal *)

Section samples.
Import Viterbi ViterbiInvariants ViterbiPaths.

Variables lo hi : Qc.

Local Abbreviation inside := (λ q : Qc, (lo ≤ q ≤ hi)%Qc).

Lemma interpolated_values (points : list Point) (signal : list float) :
  Forall (λ q, 0 ≤ x q < Z.of_nat (length signal)) points →
  ∃ signal',
    foldM (λ signal interpolatedPoint,
             py_setitem signal (x interpolatedPoint)
                        (NpFloat.Fin (y interpolatedPoint))) signal points
    = Ok signal' ∧
    length signal' = length signal ∧
    (∀ i : nat, (∀ q, q ∈ points → x q ≠ Z.of_nat i) →
                signal' !! i = signal !! i) ∧
    (∀ i : nat, (∃ q, q ∈ points ∧ x q = Z.of_nat i) →
                ∃ q, q ∈ points ∧ signal' !! i = Some (NpFloat.Fin (y q))).
Proof.
  intros Hpoints. revert signal Hpoints.
  induction points as [|q points IH]; intros signal Hpoints; simpl.
  - exists signal. split; [done|]. split; [done|]. split; [done|].
    intros i (q & Hq & _). by apply elem_of_nil in Hq.
  - apply Forall_cons_1 in Hpoints as [Hq Hpoints].
    rewrite py_setitem_inside by lia. simpl.
    destruct (IH (<[Z.to_nat (x q) := NpFloat.Fin (y q)]> signal))
      as (signal' & -> & Hlen & Hsame & Hset).
    { by rewrite length_insert. }
    exists signal'. split; [done|]. rewrite Hlen, length_insert.
    split; [done|]. split.
    + intros i Hi. rewrite Hsame.
      * apply list_lookup_insert_ne. specialize (Hi q ltac:(left)). lia.
      * intros q' Hq'. apply Hi. by right.
    + intros i (q' & Hq' & Hx).
      destruct (decide (Exists (λ r, x r = Z.of_nat i) points)) as [Hlater|Hnot].
      * apply Exists_exists in Hlater as (r & Hr & Hxr).
        destruct (Hset i) as (r' & Hr' & Hvalue).
        { exists r. split; [by apply list_elem_of_In|done]. }
        exists r'. split; [by right|done].
      * assert (Hq'' : q' = q).
        { apply elem_of_cons in Hq' as [->|Hq']; [done|].
          destruct Hnot. apply Exists_exists. exists q'.
          split; [by apply list_elem_of_In|done]. }
        subst q'. exists q. split; [left|].
        rewrite Hsame.
        { replace i with (Z.to_nat (x q)) by lia.
          apply list_lookup_insert_eq. lia. }
        intros r Hr Hxr. destruct Hnot. apply Exists_exists. exists r.
        split; [by apply list_elem_of_In|done].
Qed.

Lemma fill_numbers (signal : list float) (priorPoint point : Point) :
  0 ≤ x point < x priorPoint → x priorPoint < Z.of_nat (length signal) →
  blankBefore (x priorPoint) signal →
  numbersFrom inside (x priorPoint) signal →
  inside (y point) → inside (y priorPoint) →
  ∃ signal', fill (signal, priorPoint) point = Ok (signal', point) ∧
    length signal' = length signal ∧
    blankBefore (x point) signal' ∧
    numbersFrom inside (x point) signal' ∧
    signal' !! Z.to_nat (x point) = Some (NpFloat.Fin (y point)) ∧
    ∀ i : nat, x priorPoint ≤ Z.of_nat i → signal' !! i = signal !! i.
Proof.
  intros Hpoint Hprior Hblank Hnumbers Hy Hyprior. unfold fill, index.
  destruct (py_getitem_inside signal (x point + 1)) as (next & -> & Hnext); [lia|].
  simpl.
  assert (Hfilled : ∃ signal0,
             (if NpFloat.isnan next
              then interpolated ← interpolate point priorPoint;
                   foldM (λ signal interpolatedPoint,
                            py_setitem signal (x interpolatedPoint)
                                       (NpFloat.Fin (y interpolatedPoint)))
                         signal interpolated
              else Ok signal) = Ok signal0 ∧
             length signal0 = length signal ∧
             (∀ i : nat, Z.of_nat i ≤ x point ∨ x priorPoint ≤ Z.of_nat i →
                         signal0 !! i = signal !! i) ∧
             (∀ i : nat, x point < Z.of_nat i < x priorPoint →
                         ∃ q, signal0 !! i = Some (NpFloat.Fin q) ∧ inside q)).
  { destruct (decide (x point + 1 = x priorPoint)) as [Hnear|Hfar].
    - destruct (Hnumbers (Z.to_nat (x point + 1))) as (q & Hq & _); [lia|lia|].
      rewrite Hq in Hnext. injection Hnext as <-. simpl.
      exists signal. split; [done|]. split; [done|]. split; [done|].
      intros i Hi. lia.
    - rewrite (Hblank (Z.to_nat (x point + 1))) in Hnext by lia.
      injection Hnext as <-. simpl.
      destruct (interpolate_points point priorPoint) as (points & -> & Hcount & Hline);
        [lia|].
      simpl.
      destruct (interpolated_values points signal) as (signal0 & -> & Hlen & Hsame & Hset).
      { apply Forall_forall. intros q Hq%list_elem_of_In.
        apply list_elem_of_lookup in Hq as (k & Hk).
        destruct (Hline k q Hk) as (Hxq & Hlt & _). lia. }
      exists signal0. split; [done|]. split; [done|]. split.
      + intros i Hi. apply Hsame. intros q Hq.
        apply list_elem_of_lookup in Hq as (k & Hk).
        destruct (Hline k q Hk) as (Hxq & Hlt & _). lia.
      + intros i Hi.
        assert (Hk : (Z.to_nat (Z.of_nat i - x point - 1) < length points)%nat) by lia.
        apply lookup_lt_is_Some in Hk as [q Hk].
        destruct (Hline _ q Hk) as (Hxq & _ & _).
        destruct (Hset i) as (r & Hr & Hvalue).
        { exists q. split; [by apply list_elem_of_lookup_2 in Hk|lia]. }
        exists (y r). split; [done|].
        apply list_elem_of_lookup in Hr as (k' & Hk').
        destruct (Hline k' r Hk') as (_ & _ & Hbetween).
        by apply Hbetween. }
  destruct Hfilled as (signal0 & -> & Hlen & Hsame & Hset). simpl.
  rewrite py_setitem_inside by lia. simpl.
  eexists. split; [done|]. rewrite length_insert. split; [done|]. split.
  { intros i Hi Hrange. rewrite list_lookup_insert_ne by lia.
    rewrite Hsame by lia. apply Hblank; lia. }
  split.
  { intros i Hi Hrange. rewrite length_insert, Hlen in Hrange.
    destruct (decide (Z.of_nat i = x point)) as [Heq|Hne].
    - exists (y point). split; [|done].
      replace i with (Z.to_nat (x point)) by lia.
      apply list_lookup_insert_eq. lia.
    - rewrite list_lookup_insert_ne by lia.
      destruct (decide (Z.of_nat i < x priorPoint)) as [Hgap|Hkept].
      + apply Hset. lia.
      + rewrite Hsame by lia. apply Hnumbers; lia. }
  split.
  { apply list_lookup_insert_eq. lia. }
  intros i Hi. rewrite list_lookup_insert_ne by lia. apply Hsame. lia.
Qed.

Lemma fill_path_numbers (rest : list Point) (signal : list float)
    (priorPoint : Point) :
  0 ≤ x priorPoint < Z.of_nat (length signal) →
  descending (x priorPoint) rest →
  blankBefore (x priorPoint) signal →
  numbersFrom inside (x priorPoint) signal →
  signal !! Z.to_nat (x priorPoint) = Some (NpFloat.Fin (y priorPoint)) →
  inside (y priorPoint) → (∀ q, q ∈ rest → inside (y q)) →
  ∃ signal', foldM fill (signal, priorPoint) rest
             = Ok (signal', List.last rest priorPoint) ∧
    length signal' = length signal ∧
    blankBefore (x (List.last rest priorPoint)) signal' ∧
    numbersFrom inside (x (List.last rest priorPoint)) signal' ∧
    sampled (priorPoint :: rest) signal' ∧
    ∀ i : nat, x priorPoint < Z.of_nat i → signal' !! i = signal !! i.
Proof.
  revert signal priorPoint.
  induction rest as [|point rest IH];
    intros signal priorPoint Hprior Hpath Hblank Hnumbers Hsample Hy Hrest.
  - simpl. exists signal. repeat (split; [done|]). split; [|done].
    intros p ->%list_elem_of_singleton. done.
  - destruct Hpath as [Hpoint Hpath]. rewrite last_after. cbn [foldM].
    destruct (fill_numbers signal priorPoint point)
      as (signal0 & -> & Hlen & Hblank0 & Hnumbers0 & Hsample0 & Hkept0);
      [lia|lia|done|done|apply Hrest; left|done|].
    simpl.
    destruct (IH signal0 point)
      as (signal' & -> & Hlen' & Hblank' & Hnumbers' & Hsampled' & Hkept');
      [lia|done|done|done|done|apply Hrest; left|intros q Hq; apply Hrest; by right|].
    exists signal'. split; [done|]. rewrite Hlen', Hlen.
    repeat (split; [done|]). split.
    + intros p [->|Hp]%elem_of_cons; [|by apply Hsampled'].
      rewrite Hkept' by lia. rewrite Hkept0 by lia. done.
    + intros i Hi. rewrite Hkept' by lia. apply Hkept0. lia.
Qed.

Lemma convertPointsToSignal_numbers (firstPoint : Point) (rest : list Point) :
  0 ≤ x firstPoint → descending (x firstPoint) rest →
  (∀ q, q ∈ firstPoint :: rest → inside (y q)) →
  ∃ signal, convertPointsToSignal (firstPoint :: rest) None = Ok signal ∧
    Z.of_nat (length signal) = x firstPoint + 1 ∧
    blankBefore (x (List.last rest firstPoint)) signal ∧
    numbersFrom inside (x (List.last rest firstPoint)) signal ∧
    sampled (firstPoint :: rest) signal.
Proof.
  intros Hfirst Hpath Hinside. unfold convertPointsToSignal, index.
  destruct (Z.ltb_spec (x firstPoint + 1) 0) as [?|_]; [lia|].
  set (blank := replicate (Z.to_nat (x firstPoint + 1)) NpFloat.NaN).
  assert (Hblank : length blank = Z.to_nat (x firstPoint + 1)).
  { apply length_replicate. }
  rewrite py_setitem_inside by lia. simpl.
  destruct (fill_path_numbers rest
              (<[Z.to_nat (x firstPoint) := NpFloat.Fin (y firstPoint)]> blank)
              firstPoint)
    as (signal & -> & Hlen & Hleft & Hnumbers & Hsampled & _).
  - rewrite length_insert. lia.
  - done.
  - intros i Hi Hrange. rewrite list_lookup_insert_ne by lia.
    rewrite length_insert, Hblank in Hrange.
    unfold blank. apply lookup_replicate_2. lia.
  - intros i Hi Hrange. rewrite length_insert, Hblank in Hrange.
    exists (y firstPoint). split; [|apply Hinside; left].
    replace i with (Z.to_nat (x firstPoint)) by lia.
    apply list_lookup_insert_eq. lia.
  - apply list_lookup_insert_eq. lia.
  - apply Hinside. left.
  - intros q Hq. apply Hinside. by right.
  - simpl. exists signal. rewrite Hlen, length_insert. split; [done|].
    split; [lia|done].
Qed.
End samples.

(** ** The selected path *)

Section walk.
Import Viterbi ViterbiInvariants ViterbiPaths.

Variable pointsByColumn : list (list Point).
Hypothesis columns : columnwise pointsByColumn.
Variable table : gmap Point Entry.
Hypothesis invariant : tableInvariant pointsByColumn table.

Lemma traceBack_origin (n fuel : nat) (current : Point) (walked : list Point) :
  is_Some (table !! current) → x current ≤ Z.of_nat n → (n < fuel)%nat →
  ∃ rest, traceBack fuel table (Some current) walked
          = Ok (walked ++ current :: rest) ∧
          descending (x current) rest ∧
          (∀ q, q ∈ current :: rest → is_Some (table !! q)) ∧
          ∃ cost angle, table !! List.last rest current = Some (cost, None, angle).
Proof.
  revert fuel current walked.
  induction n as [|n IH]; intros fuel current walked Hrecorded Hn Hfuel.
  all: destruct fuel as [|fuel]; [lia|].
  all: pose proof Hrecorded as [[[cost previous] angle] Hentry].
  all: cbn [traceBack]; rewrite Hentry.
  all: destruct previous as [q|];
    [|exists []; rewrite traceBack_end; split; [done|]; split; [done|];
      split; [by intros q ->%list_elem_of_singleton|by exists cost, angle]].
  all: destruct (recorded_previous _ _ invariant _ _ _ _ Hentry) as [Hq Hx].
  all: pose proof (recorded_column pointsByColumn columns table invariant q Hq).
  - lia.
  - destruct (IH fuel q (walked ++ [current]))
      as (rest & -> & Hrest & Hall & Horigin); [done|lia|lia|].
    exists (q :: rest). rewrite <- app_assoc. cbn [app]. split; [done|].
    split; [split; [lia|done]|]. split.
    + intros r [->|Hr]%elem_of_cons; [done|by apply Hall].
    + destruct Horigin as (cost' & angle' & Horigin).
      exists cost', angle'. by rewrite last_after.
Qed.

Lemma getAdjacent_window (startingColumn lookBack : Z)
    (adjacent : list (R * Point * R)) :
  getAdjacent pointsByColumn table startingColumn lookBack = Ok adjacent →
  Common.flatten (py_slice pointsByColumn
                    (Common.lowerClamp (startingColumn - lookBack) 0)
                    startingColumn) ≠ [] →
  map (λ triple : R * Point * R, triple.1.2) adjacent
  = Common.flatten (py_slice pointsByColumn
                      (Common.lowerClamp (startingColumn - lookBack) 0)
                      startingColumn).
Proof.
  unfold getAdjacent. cbv zeta.
  set (left_ := Common.lowerClamp (startingColumn - lookBack) 0).
  set (found := Common.flatten (py_slice pointsByColumn left_ startingColumn)).
  intros Hrun Hfound.
  replace (Z.to_nat left_ + 2)%nat with (S (Z.to_nat left_ + 1)) in Hrun by lia.
  cbn [expandLeft] in Hrun.
  destruct found as [|p found'] eqn:Hlist; [done|].
  change (length (p :: found') =? 0)%nat with false in Hrun.
  cbn [andb] in Hrun. rewrite bind_Ok in Hrun.
  apply mapM_Forall2 in Hrun.
  clear Hlist Hfound. revert Hrun. generalize (p :: found'). clear.
  intros points Hall. induction Hall as [|q triple points adjacent Hq _ IH]; [done|].
  simpl. rewrite IH. f_equal.
  destruct (table !! q) as [[[cost previous] angle]|]; [|done].
  by injection Hq as <-.
Qed.
End walk.

Section best_path.
Import Viterbi ViterbiInvariants ViterbiPaths.

Variable binary : BinaryImage.

Local Abbreviation pointsByColumn := (getPointLocations binary).

(** The columns in which [extractSignal] looks for the end of the path. *)
Local Abbreviation endingWindow :=
  (Common.flatten
     (py_slice pointsByColumn
        (Common.lowerClamp (Z.of_nat (width binary) - OPTIMAL_ENDING_WIDTH) 0)
        (Z.of_nat (width binary)))).

(** The rows of the mask, as ordinates. *)
Local Abbreviation rows :=
  (λ q : Qc, (0 ≤ q ≤ Qc_of_Z (Z.of_nat (length binary) - 1))%Qc).

Hypothesis candidates : Common.flatten pointsByColumn ≠ [].

Lemma bestPath_stages :
  ∃ table ending rest signal,
    buildTable pointsByColumn = Ok table ∧
    tableBounds pointsByColumn table ∧
    bestPath binary = Ok (ending :: rest) ∧
    (∀ q, q ∈ ending :: rest → q ∈ Common.flatten pointsByColumn) ∧
    descending (x ending) rest ∧
    leftOf pointsByColumn (Z.to_nat (x (List.last rest ending))) = [] ∧
    (endingWindow ≠ [] → ending ∈ endingWindow) ∧
    extractSignal binary = Ok (Some signal) ∧
    Z.of_nat (length signal) = x ending + 1 ∧
    blankBefore (x (List.last rest ending)) signal ∧
    numbersFrom rows (x (List.last rest ending)) signal ∧
    sampled (ending :: rest) signal.
Proof.
  pose proof (getPointLocations_columnwise binary) as Hcolumns.
  pose proof (getPointLocations_length binary) as Hwidth.
  destruct (buildTable_bounds pointsByColumn Hcolumns)
    as (table & Htable & Hinv & Hall & Hbounds).
  destruct (getAdjacent_defined pointsByColumn table (Z.of_nat (width binary))
              OPTIMAL_ENDING_WIDTH) as (endings & Hendings & Hrecorded & Hempty).
  { lia. }
  { intros q Hq. rewrite Nat2Z.id, (leftOf_all binary) in Hq. by apply Hall. }
  rewrite Nat2Z.id, (leftOf_all binary) in Hempty, Hrecorded.
  assert (Hsome : endings ≠ []) by (intros ->; by apply candidates, Hempty).
  destruct (minBy_defined fst
              (map (λ triple : R * Point * R, (triple.1.1, triple.1.2)) endings))
    as (best & Hbest & Hin).
  { by destruct endings. }
  apply list_elem_of_fmap in Hin as (triple & Hpair & Hin).
  destruct (Hrecorded triple Hin) as (Hcandidate & previous & Hentry).
  assert (Hending : best.2 = triple.1.2) by (by rewrite Hpair).
  rewrite <- Hending in Hcandidate, Hentry.
  destruct (candidate_column _ Hcolumns _ Hcandidate) as (Hrange & _).
  destruct (traceBack_origin pointsByColumn Hcolumns table Hinv
              (length pointsByColumn) (S (length pointsByColumn)) best.2 [])
    as (rest & Htrace & Hpath & Hpoints & cost & angle & Horigin); [eauto|lia|lia|].
  assert (Hbest_path : bestPath binary = Ok (best.2 :: rest)).
  { unfold bestPath. cbv zeta. rewrite Htable. simpl.
    rewrite Hendings. simpl. rewrite Hbest. simpl. exact Htrace. }
  assert (Hon : ∀ q, q ∈ best.2 :: rest → q ∈ Common.flatten pointsByColumn).
  { intros q Hq. by apply (recorded_candidate _ _ Hinv), Hpoints. }
  destruct (convertPointsToSignal_numbers 0%Qc
              (Qc_of_Z (Z.of_nat (length binary) - 1)) best.2 rest)
    as (signal & Hsignal & Hlen & Hblank & Hnumbers & Hsampled); [lia|done| |].
  { intros q Hq. destruct (candidate_pixel binary q (Hon q Hq))
      as (row & pixel & -> & Hrow & _).
    split.
    - rewrite <- Z2Qc_inj_0. apply (proj1 (Z2Qc_inj_le _ _)). lia.
    - apply (proj1 (Z2Qc_inj_le _ _)). lia. }
  exists table, best.2, rest, signal.
  split; [done|]. split; [done|]. split; [done|]. split; [done|]. split; [done|].
  split.
  { by apply (start_leftmost _ _ Hbounds _ cost angle). }
  split.
  { intros Hwindow.
    rewrite <- (getAdjacent_window pointsByColumn table _ _ endings Hendings Hwindow).
    apply list_elem_of_fmap. exists triple. split; [done|done]. }
  split; [|done].
  unfold extractSignal. cbv zeta.
  destruct (Common.flatten pointsByColumn) as [|p points] eqn:Hpoints'; [done|].
  change (length (p :: points) =? 0)%nat with false. cbv iota.
  rewrite Hbest_path, bind_Ok. cbv beta. by rewrite Hsignal.
Qed.
End best_path.

Section best_path_properties.
Import Viterbi ViterbiInvariants ViterbiPaths.

(** X9: on a mask with a candidate point, the path that
    [extractSignal] selects runs through candidate points only, from
    its first point leftwards through strictly decreasing columns, and
    does not stop before the leftmost column that holds a candidate. *)
Theorem bestPath_walk (binary : BinaryImage) :
  Common.flatten (getPointLocations binary) ≠ [] →
  ∃ ending rest,
    bestPath binary = Ok (ending :: rest) ∧
    (∀ q, q ∈ ending :: rest → q ∈ Common.flatten (getPointLocations binary)) ∧
    descending (x ending) rest ∧
    ∀ p, p ∈ Common.flatten (getPointLocations binary) →
         x (List.last rest ending) ≤ x p.
Proof.
  intros Hcandidates.
  destruct (bestPath_stages binary Hcandidates)
    as (table & ending & rest & signal & _ & _ & Hpath & Hon & Hdown & Hleft & _).
  exists ending, rest. repeat (split; [done|]).
  intros p Hp.
  destruct (decide (x p < x (List.last rest ending))) as [Hlt|]; [|lia].
  exfalso.
  assert (Hin : p ∈ leftOf (getPointLocations binary)
                      (Z.to_nat (x (List.last rest ending)))).
  { apply (candidate_leftOf _ (getPointLocations_columnwise binary)); [done|].
    destruct (candidate_column _ (getPointLocations_columnwise binary) p Hp)
      as (Hrange & _). lia. }
  rewrite Hleft in Hin. by apply elem_of_nil in Hin.
Qed.

Lemma bestPath_walk_witness :
  Common.flatten (getPointLocations Examples.climbingMask) ≠ [] ∧
  ∃ ending rest,
    bestPath Examples.climbingMask = Ok (ending :: rest) ∧
    (∀ q, q ∈ ending :: rest →
          q ∈ Common.flatten (getPointLocations Examples.climbingMask)) ∧
    descending (x ending) rest ∧
    ∀ p, p ∈ Common.flatten (getPointLocations Examples.climbingMask) →
         x (List.last rest ending) ≤ x p.
Proof.
  split; [apply climbingMask_candidates|].
  exact (bestPath_walk Examples.climbingMask climbingMask_candidates).
Defined.

(** X11: the array that [extractSignal] returns holds the
    not-a-number marker exactly in the columns left of the leftmost
    candidate column, where the path ends; from there on every sample
    is a number between 0 and the last row of the mask, and the
    sample in the column of each point of the path is the ordinate of
    that point. *)
Theorem extractSignal_samples (binary : BinaryImage) :
  Common.flatten (getPointLocations binary) ≠ [] →
  ∃ ending rest signal,
    bestPath binary = Ok (ending :: rest) ∧
    extractSignal binary = Ok (Some signal) ∧
    blankBefore (x (List.last rest ending)) signal ∧
    numbersFrom (λ q : Qc, (0 ≤ q ≤ Qc_of_Z (Z.of_nat (length binary) - 1))%Qc)
                (x (List.last rest ending)) signal ∧
    sampled (ending :: rest) signal.
Proof.
  intros Hcandidates.
  destruct (bestPath_stages binary Hcandidates)
    as (table & ending & rest & signal & _ & _ & Hpath & _ & _ & _ & _ &
        Hsignal & _ & Hblank & Hnumbers & Hsampled).
  by exists ending, rest, signal.
Qed.

Lemma extractSignal_samples_witness :
  Common.flatten (getPointLocations Examples.climbingMask) ≠ [] ∧
  ∃ ending rest signal,
    bestPath Examples.climbingMask = Ok (ending :: rest) ∧
    extractSignal Examples.climbingMask = Ok (Some signal) ∧
    blankBefore (x (List.last rest ending)) signal ∧
    numbersFrom (λ q : Qc, (0 ≤ q ≤ Qc_of_Z (Z.of_nat 4 - 1))%Qc)
                (x (List.last rest ending)) signal ∧
    sampled (ending :: rest) signal.
Proof.
  split; [apply climbingMask_candidates|].
  exact (extractSignal_samples Examples.climbingMask climbingMask_candidates).
Defined.
End best_path_properties.

Section ending_window.
Import Viterbi ViterbiInvariants ViterbiPaths.

Lemma py_slice_elem {A : Type} (l : list A) (lo hi : Z) (i : nat) (a : A) :
  l !! i = Some a →
  slice_bound (Z.of_nat (length l)) lo ≤ Z.of_nat i
    < slice_bound (Z.of_nat (length l)) hi →
  a ∈ py_slice l lo hi.
Proof.
  intros Hi Hrange. unfold py_slice. cbv zeta.
  pose proof (slice_bound_range (Z.of_nat (length l)) lo ltac:(lia)).
  apply list_elem_of_lookup.
  exists (i - Z.to_nat (slice_bound (Z.of_nat (length l)) lo))%nat.
  rewrite lookup_take_lt by lia. rewrite lookup_drop.
  rewrite <- Hi. f_equal. lia.
Qed.

(** X10: when some candidate point lies in the last twenty columns
    of the mask, the selected path starts in those columns, so the
    returned array is less than twenty samples short of the width of
    the mask. *)
Theorem bestPath_ending (binary : BinaryImage) (p : Point) :
  p ∈ Common.flatten (getPointLocations binary) →
  Z.of_nat (width binary) - OPTIMAL_ENDING_WIDTH ≤ x p →
  ∃ ending rest signal,
    bestPath binary = Ok (ending :: rest) ∧
    Z.of_nat (width binary) - OPTIMAL_ENDING_WIDTH ≤ x ending
      < Z.of_nat (width binary) ∧
    extractSignal binary = Ok (Some signal) ∧
    Z.of_nat (width binary) - OPTIMAL_ENDING_WIDTH < Z.of_nat (length signal)
      ≤ Z.of_nat (width binary).
Proof.
  intros Hp Hx.
  pose proof (getPointLocations_columnwise binary) as Hcolumns.
  pose proof (getPointLocations_length binary) as Hwidth.
  assert (Hcandidates : Common.flatten (getPointLocations binary) ≠ []).
  { intros Hnone. rewrite Hnone in Hp. by apply elem_of_nil in Hp. }
  destruct (bestPath_stages binary Hcandidates)
    as (table & ending & rest & signal & _ & _ & Hpath & Hon & _ & _ & Hwindow &
        Hsignal & Hlen & _).
  set (left_ := Common.lowerClamp (Z.of_nat (width binary) - OPTIMAL_ENDING_WIDTH) 0)
    in *.
  assert (Hleft : 0 ≤ left_ ∧ Z.of_nat (width binary) - OPTIMAL_ENDING_WIDTH ≤ left_
                  ∧ (left_ = 0 ∨ left_ = Z.of_nat (width binary) - OPTIMAL_ENDING_WIDTH)).
  { unfold left_, Common.lowerClamp.
    destruct (Z.ltb_spec 0 (Z.of_nat (width binary) - OPTIMAL_ENDING_WIDTH)); lia. }
  destruct (candidate_column _ Hcolumns p Hp) as (Hrange & column & Hcolumn & Hin).
  assert (Hinside : p ∈ Common.flatten
                          (py_slice (getPointLocations binary) left_
                                    (Z.of_nat (width binary)))).
  { apply elem_of_flatten. exists column. split; [done|].
    apply py_slice_elem with (Z.to_nat (x p)); [done|].
    rewrite Hwidth in *. unfold OPTIMAL_ENDING_WIDTH in *.
    rewrite (slice_bound_beyond _ (Z.of_nat (width binary))) by lia.
    rewrite (slice_bound_inside _ left_) by lia. lia. }
  assert (Hending : ending ∈ Common.flatten
                               (py_slice (getPointLocations binary) left_
                                         (Z.of_nat (width binary)))).
  { apply Hwindow. intros Hnone. rewrite Hnone in Hinside.
    by apply elem_of_nil in Hinside. }
  apply elem_of_flatten in Hending as (column' & Hending & Hcolumn').
  apply elem_of_py_slice in Hcolumn' as (c & Hc & Hlo & Hhi).
  rewrite Hwidth in *. unfold OPTIMAL_ENDING_WIDTH in *.
  rewrite slice_bound_inside in Hlo by lia.
  rewrite slice_bound_beyond in Hhi by lia.
  pose proof (Hcolumns c column' ending Hc Hending) as Hxe.
  exists ending, rest, signal. split; [done|]. split; [lia|]. split; [done|]. lia.
Qed.

Lemma bestPath_ending_witness :
  mkPoint 24 (Qc_of_Z 0) ∈ Common.flatten (getPointLocations Examples.farApartMask) ∧
  25 - 20 ≤ 24 ∧
  ∃ ending rest signal,
    bestPath Examples.farApartMask = Ok (ending :: rest) ∧
    25 - 20 ≤ x ending < 25 ∧
    extractSignal Examples.farApartMask = Ok (Some signal) ∧
    25 - 20 < Z.of_nat (length signal) ≤ 25.
Proof.
  assert (H : mkPoint 24 (Qc_of_Z 0)
              ∈ Common.flatten (getPointLocations Examples.farApartMask)).
  { vm_compute. right. left. }
  split; [exact H|]. split; [lia|].
  apply (bestPath_ending Examples.farApartMask (mkPoint 24 (Qc_of_Z 0)) H).
  vm_compute. discriminate.
Defined.
End ending_window.

(** ** [convertPointsToSignal] with a given width *)

Section given_width.
Import Viterbi ViterbiInvariants ViterbiPaths.

Lemma py_getitem_app_l {A : Type} (l more : list A) (i : Z) :
  0 ≤ i < Z.of_nat (length l) → py_getitem (l ++ more) i = py_getitem l i.
Proof.
  intros Hi. unfold py_getitem.
  rewrite !py_position_inside by (rewrite ?length_app; lia). simpl.
  by rewrite lookup_app_l by lia.
Qed.

Lemma py_setitem_app_l {A : Type} (l more : list A) (i : Z) (v : A) :
  0 ≤ i < Z.of_nat (length l) →
  py_setitem (l ++ more) i v = Ok (<[Z.to_nat i := v]> l ++ more).
Proof.
  intros Hi. rewrite py_setitem_inside by (rewrite length_app; lia).
  by rewrite insert_app_l by lia.
Qed.

Lemma setitems_frame (points : list Point) (signal more : list float) :
  Forall (λ q, 0 ≤ x q < Z.of_nat (length signal)) points →
  foldM (λ signal interpolatedPoint,
           py_setitem signal (x interpolatedPoint)
                      (NpFloat.Fin (y interpolatedPoint))) (signal ++ more) points
  = signal' ← foldM (λ signal interpolatedPoint,
                       py_setitem signal (x interpolatedPoint)
                                  (NpFloat.Fin (y interpolatedPoint))) signal points;
    Ok (signal' ++ more).
Proof.
  intros Hpoints. revert signal Hpoints.
  induction points as [|q points IH]; intros signal Hpoints; simpl; [done|].
  apply Forall_cons_1 in Hpoints as [Hq Hpoints].
  rewrite py_setitem_app_l, py_setitem_inside by lia. simpl.
  apply IH. by rewrite length_insert.
Qed.

Lemma fill_frame (signal more : list float) (priorPoint point : Point) :
  0 ≤ x point < x priorPoint → x priorPoint < Z.of_nat (length signal) →
  blankBefore (x priorPoint) signal →
  ∃ signal', fill (signal, priorPoint) point = Ok (signal', point) ∧
    fill (signal ++ more, priorPoint) point = Ok (signal' ++ more, point) ∧
    length signal' = length signal ∧ blankBefore (x point) signal'.
Proof.
  intros Hpoint Hprior Hblank.
  destruct (fill_defined signal priorPoint point Hpoint Hprior Hblank)
    as (signal' & Hfill & Hlen & Hblank').
  exists signal'. split; [done|]. split; [|done].
  revert Hfill. unfold fill, index.
  rewrite py_getitem_app_l by lia.
  destruct (py_getitem signal (x point + 1)) as [next| |]; simpl; [|done|done].
  destruct (NpFloat.isnan next).
  - destruct (interpolate_points point priorPoint) as (points & -> & _ & Hline);
      [lia|].
    simpl. rewrite setitems_frame.
    + destruct (foldM _ signal points) as [signal0| |] eqn:Hset; simpl; [|done|done].
      destruct (interpolated_filled 0 points signal) as (signal1 & Hset' & Hlen1 & _).
      { apply Forall_forall. intros q Hq%list_elem_of_In.
        apply list_elem_of_lookup in Hq as (k & Hk).
        destruct (Hline k q Hk) as (Hxq & Hlt & _). lia. }
      { lia. }
      rewrite Hset in Hset'. injection Hset' as <-.
      rewrite py_setitem_app_l, py_setitem_inside by lia. simpl.
      by intros [= <-].
    + apply Forall_forall. intros q Hq%list_elem_of_In.
      apply list_elem_of_lookup in Hq as (k & Hk).
      destruct (Hline k q Hk) as (Hxq & Hlt & _). lia.
  - simpl. rewrite py_setitem_app_l, py_setitem_inside by lia. simpl.
    by intros [= <-].
Qed.

Lemma fill_path_frame (rest : list Point) (signal more : list float)
    (priorPoint : Point) :
  0 ≤ x priorPoint < Z.of_nat (length signal) →
  descending (x priorPoint) rest →
  blankBefore (x priorPoint) signal →
  ∃ signal', foldM fill (signal, priorPoint) rest
             = Ok (signal', List.last rest priorPoint) ∧
    foldM fill (signal ++ more, priorPoint) rest
    = Ok (signal' ++ more, List.last rest priorPoint).
Proof.
  revert signal priorPoint.
  induction rest as [|point rest IH]; intros signal priorPoint Hprior Hpath Hblank.
  - simpl. eauto.
  - destruct Hpath as [Hpoint Hpath]. rewrite last_after. cbn [foldM].
    destruct (fill_frame signal more priorPoint point)
      as (signal0 & -> & -> & Hlen & Hblank0); [lia|lia|done|].
    simpl. apply IH; [lia|done|done].
Qed.

(** X12: on a path that walks leftwards from its first point,
    [convertPointsToSignal] with a width above the column of the first
    point returns the array it returns without a width, followed by
    not-a-number markers up to that width; with a positive width that
    does not reach the first point it raises [IndexError].  Called with
    the width of the mask, as the commented-out argument of
    [extractSignal] would, the array has the width of the mask. *)
Theorem convertPointsToSignal_width (firstPoint : Point) (rest : list Point)
    (width : Z) :
  0 ≤ x firstPoint → descending (x firstPoint) rest → 0 < width →
  ∃ signal,
    convertPointsToSignal (firstPoint :: rest) None = Ok signal ∧
    convertPointsToSignal (firstPoint :: rest) (Some width)
    = if x firstPoint <? width
      then Ok (signal ++ replicate (Z.to_nat (width - x firstPoint - 1)) NpFloat.NaN)
      else Raise IndexError.
Proof.
  intros Hfirst Hpath Hwidth.
  destruct (convertPointsToSignal_defined firstPoint rest Hfirst Hpath)
    as (signal & Hsignal & _).
  exists signal. split; [done|].
  revert Hsignal. unfold convertPointsToSignal, index.
  destruct (Z.eqb_spec width 0) as [?|_]; [lia|].
  destruct (Z.ltb_spec (x firstPoint + 1) 0) as [?|_]; [lia|].
  destruct (Z.ltb_spec width 0) as [?|_]; [lia|].
  destruct (Z.ltb_spec (x firstPoint) width) as [Hlt|Hge].
  - replace (replicate (Z.to_nat width) NpFloat.NaN)
      with (replicate (Z.to_nat (x firstPoint + 1)) NpFloat.NaN
            ++ replicate (Z.to_nat (width - x firstPoint - 1)) NpFloat.NaN).
    2:{ rewrite <- replicate_add. f_equal. lia. }
    set (blank := replicate (Z.to_nat (x firstPoint + 1)) NpFloat.NaN).
    assert (Hblank : length blank = Z.to_nat (x firstPoint + 1)).
    { apply length_replicate. }
    rewrite py_setitem_app_l, py_setitem_inside by lia. simpl.
    destruct (fill_path_frame rest
                (<[Z.to_nat (x firstPoint) := NpFloat.Fin (y firstPoint)]> blank)
                (replicate (Z.to_nat (width - x firstPoint - 1)) NpFloat.NaN)
                firstPoint) as (signal' & -> & ->).
    + rewrite length_insert. lia.
    + done.
    + intros i Hi Hrange. rewrite list_lookup_insert_ne by lia.
      rewrite length_insert, Hblank in Hrange.
      unfold blank. apply lookup_replicate_2. lia.
    + simpl. by intros [= <-].
  - intros _. unfold py_setitem, py_position. rewrite length_replicate.
    destruct (Z.leb_spec 0 (x firstPoint)); [|lia].
    destruct (Z.ltb_spec (x firstPoint) (Z.of_nat (Z.to_nat width))); [lia|].
    destruct (Z.ltb_spec (x firstPoint) 0); [lia|].
    rewrite !andb_false_r. reflexivity.
Qed.

Lemma convertPointsToSignal_width_witness :
  0 ≤ 2 ∧ descending 2 [mkPoint 0 (Qc_of_Z 4)] ∧ 0 < 5 ∧
  ∃ signal,
    convertPointsToSignal [mkPoint 2 0; mkPoint 0 (Qc_of_Z 4)] None = Ok signal ∧
    convertPointsToSignal [mkPoint 2 0; mkPoint 0 (Qc_of_Z 4)] (Some 5)
    = if 2 <? 5
      then Ok (signal ++ replicate (Z.to_nat (5 - 2 - 1)) NpFloat.NaN)
      else Raise IndexError.
Proof.
  assert (Hpath : descending 2 [mkPoint 0 (Qc_of_Z 4)]).
  { simpl. split; [lia|done]. }
  split; [lia|]. split; [exact Hpath|]. split; [lia|].
  apply (convertPointsToSignal_width (mkPoint 2 0) [mkPoint 0 (Qc_of_Z 4)] 5);
    [simpl; lia|exact Hpath|lia].
Defined.
End given_width.

(** ** What the hill climb of [otsuThreshold] returns *)

Section climb_outcome.
Variable score : Z → float.

Local Abbreviation xs := (py_range 0 Otsu.L).

Lemma climbFrom_outcome (fuel : nat) (c : Z) :
  0 ≤ c ≤ 255 →
  match Otsu.climbFrom NpFloat.gtb xs score fuel c (score c) with
  | Ok k =>
      1 ≤ k ≤ 254 ∧
      NpFloat.gtb (score (k - 1)) (score k) = false ∧
      NpFloat.gtb (score (k + 1)) (score k) = false
  | Raise e => e = NotImplementedError
  | OutOfFuel => True
  end.
Proof.
  revert c. induction fuel as [|fuel IH]; intros c Hc; [done|].
  rewrite climbFrom_unfold, neighbors_range.
  destruct (Z.ltb_spec 0 c); [|done].
  destruct (Z.ltb_spec c 255); [|done].
  rewrite !py_getitem_range by (unfold Otsu.L; lia). rewrite !bind_Ok.
  destruct (NpFloat.gtb (score (c - 1)) (score c)) eqn:Hleft.
  { apply IH. lia. }
  destruct (NpFloat.gtb (score (c + 1)) (score c)) eqn:Hright.
  { apply IH. lia. }
  split; [lia|]. done.
Qed.

Lemma climb1dHill_outcome :
  (∃ k, Otsu.climb1dHill NpFloat.gtb xs score = Ok k ∧
        1 ≤ k ≤ 254 ∧
        NpFloat.gtb (score (k - 1)) (score k) = false ∧
        NpFloat.gtb (score (k + 1)) (score k) = false) ∨
  Otsu.climb1dHill NpFloat.gtb xs score = Raise NotImplementedError.
Proof.
  pose proof (climb1dHill_terminates score) as Hends.
  revert Hends. unfold Otsu.climb1dHill.
  replace (length xs) with 256%nat by (by vm_compute).
  change (Z.of_nat 256 `div` 2) with 128.
  rewrite py_getitem_range by (unfold Otsu.L; lia). rewrite bind_Ok.
  pose proof (climbFrom_outcome 256 128 ltac:(lia)) as Houtcome.
  destruct (Otsu.climbFrom NpFloat.gtb xs score 256 128 (score 128)) as [k|e|].
  - intros _. left. by exists k.
  - intros _. right. by rewrite Houtcome.
  - done.
Qed.

Lemma climb1dHill_flat :
  NpFloat.gtb (score 127) (score 128) = false →
  NpFloat.gtb (score 129) (score 128) = false →
  Otsu.climb1dHill NpFloat.gtb xs score = Ok 128.
Proof.
  intros Hleft Hright. unfold Otsu.climb1dHill.
  replace (length xs) with 256%nat by (by vm_compute).
  change (Z.of_nat 256 `div` 2) with 128.
  rewrite py_getitem_range by (unfold Otsu.L; lia). rewrite bind_Ok.
  change 256%nat with (S 255). rewrite climbFrom_unfold, neighbors_range.
  change (0 <? 128) with true. change (128 <? 255) with true. cbv iota.
  rewrite !py_getitem_range by (unfold Otsu.L; lia). rewrite !bind_Ok.
  change (128 - 1) with 127. change (128 + 1) with 129.
  by rewrite Hleft, Hright.
Qed.
End climb_outcome.

(** X13: [otsuThreshold] has two outcomes only.  It returns a
    threshold between 1 and 254 at which the between-class variance
    is a local peak, neither neighbour scoring higher, or the climb
    reaches level 0 or 255 and [NotImplementedError] is raised; no
    threshold 0 or 255 is ever returned, and no other exception. *)
Theorem otsuThreshold_outcome (image : Otsu.GrayscaleImage) :
  (∃ k, Otsu.otsuThreshold image = Ok k ∧
        1 ≤ k ≤ 254 ∧
        NpFloat.gtb (Otsu.σ_B (Otsu.probabilities image) (k - 1))
                    (Otsu.σ_B (Otsu.probabilities image) k) = false ∧
        NpFloat.gtb (Otsu.σ_B (Otsu.probabilities image) (k + 1))
                    (Otsu.σ_B (Otsu.probabilities image) k) = false) ∨
  Otsu.otsuThreshold image = Raise NotImplementedError.
Proof. apply climb1dHill_outcome. Qed.

(** X15: on a list of fewer than three levels [climb1dHill] cannot
    start: the empty list has no middle element, and the middle of a
    list of one or two has no neighbour on one side. *)
Theorem climb1dHill_short {S : Type} (gt : S → S → bool) (xs : list Z)
    (evaluate : Z → S) :
  (length xs ≤ 2)%nat →
  Otsu.climb1dHill gt xs evaluate
  = match xs with
    | [] => Raise IndexError
    | _ => Raise NotImplementedError
    end.
Proof.
  intros Hshort.
  destruct xs as [|a [|b [|c xs]]]; [done|done|done|simpl in Hshort; lia].
Qed.

Lemma climb1dHill_short_witness :
  (length [7; 9] ≤ 2)%nat ∧
  Otsu.climb1dHill Z.gtb [7; 9] (λ x, x) = Raise NotImplementedError.
Proof.
  split; [simpl; lia|].
  apply (climb1dHill_short Z.gtb [7; 9] (λ x, x)). simpl. lia.
Defined.

(** ** An image without the two middle levels *)

Section middle_gap.

Lemma add_zero_r (a : float) : NpFloat.add a (NpFloat.Fin 0%Qc) = a.
Proof. destruct a; simpl; try done. by rewrite Qcplus_0_r. Qed.

Lemma add_nan_r (a : float) : NpFloat.add a NpFloat.NaN = NpFloat.NaN.
Proof. by destruct a. Qed.

Lemma sum_of_nan (l : list float) : foldl NpFloat.add NpFloat.NaN l = NpFloat.NaN.
Proof. induction l as [|a l IH]; [done|]. simpl. by destruct a. Qed.

Lemma sum_with_nan (l : list float) (a : float) :
  NpFloat.NaN ∈ l → foldl NpFloat.add a l = NpFloat.NaN.
Proof.
  revert a. induction l as [|b l IH]; intros a Hin.
  - by apply elem_of_nil in Hin.
  - simpl. apply elem_of_cons in Hin as [<-|Hin].
    + rewrite add_nan_r. apply sum_of_nan.
    + by apply IH.
Qed.

Variable p : list float.
Hypothesis bins : length p = 255%nat.

Lemma slice_next (k : nat) (p_k : float) :
  p !! k = Some p_k →
  py_slice p 0 (Z.of_nat k + 1) = py_slice p 0 (Z.of_nat k) ++ [p_k].
Proof.
  intros Hk. pose proof (lookup_lt_Some _ _ _ Hk) as Hlt.
  unfold py_slice. cbv zeta.
  rewrite !slice_bound_inside by lia.
  change (Z.to_nat 0) with 0%nat. rewrite drop_0.
  replace (Z.to_nat (Z.of_nat k + 1 - 0)) with (S k) by lia.
  replace (Z.to_nat (Z.of_nat k - 0)) with k by lia.
  by apply take_S_r.
Qed.

Lemma slice_length (k : nat) :
  (k ≤ 255)%nat → length (py_slice p 0 (Z.of_nat k)) = k.
Proof.
  intros Hk. unfold py_slice. cbv zeta.
  rewrite !slice_bound_inside by lia.
  change (Z.to_nat 0) with 0%nat. rewrite drop_0, length_take. lia.
Qed.

Lemma ω_next (k : nat) (p_k : float) :
  p !! k = Some p_k →
  Otsu.ω p (Z.of_nat k + 1) = NpFloat.add (Otsu.ω p (Z.of_nat k)) p_k.
Proof.
  intros Hk. unfold Otsu.ω, NpFloat.sum.
  by rewrite (slice_next k p_k Hk), foldl_app.
Qed.

Lemma μ_next (k : nat) (p_k : float) :
  p !! k = Some p_k →
  Otsu.μ p (Z.of_nat k + 1)
  = NpFloat.add (Otsu.μ p (Z.of_nat k))
                (NpFloat.mul (NpFloat.of_Z (Z.of_nat k + 1)) p_k).
Proof.
  intros Hk. pose proof (lookup_lt_Some _ _ _ Hk) as Hlt.
  unfold Otsu.μ, NpFloat.sum.
  rewrite (slice_next k p_k Hk), imap_app, foldl_app. simpl.
  by rewrite slice_length, Nat.add_0_r by lia.
Qed.

Lemma σ_B_zero_step (k : nat) :
  p !! k = Some (NpFloat.Fin 0%Qc) →
  Otsu.σ_B p (Z.of_nat k + 1) = Otsu.σ_B p (Z.of_nat k).
Proof.
  intros Hk. unfold Otsu.σ_B. cbv zeta.
  rewrite (ω_next k _ Hk), (μ_next k _ Hk), add_zero_r.
  replace (NpFloat.mul (NpFloat.of_Z (Z.of_nat k + 1)) (NpFloat.Fin 0%Qc))
    with (NpFloat.Fin 0%Qc).
  - by rewrite add_zero_r.
  - simpl. by rewrite Qcmult_0_r.
Qed.

Lemma σ_B_nan (k : Z) : NpFloat.NaN ∈ p → Otsu.σ_B p k = NpFloat.NaN.
Proof.
  intros Hin. unfold Otsu.σ_B. cbv zeta.
  assert (Hall : py_slice p 0 Otsu.L = p).
  { unfold py_slice, Otsu.L. cbv zeta.
    rewrite (slice_bound_inside _ 0), (slice_bound_beyond _ 256) by lia.
    change (Z.to_nat 0) with 0%nat. rewrite drop_0. apply take_ge. lia. }
  assert (Hμ : Otsu.μ p Otsu.L = NpFloat.NaN).
  { unfold Otsu.μ, NpFloat.sum. rewrite Hall. apply sum_with_nan.
    apply list_elem_of_lookup in Hin as (i & Hi).
    apply list_elem_of_lookup. exists i.
    rewrite list_lookup_imap, Hi. done. }
  rewrite Hμ. done.
Qed.
End middle_gap.

Lemma filter_none {A : Type} (P : A → Prop) `{!∀ a, Decision (P a)} (l : list A) :
  Forall (λ a, ¬ P a) l → filter P l = [].
Proof.
  induction 1 as [|a l Ha _ IH]; [done|].
  by rewrite filter_cons_False.
Qed.

Lemma histogram_gap (image : Otsu.GrayscaleImage) (level : nat) :
  (level < 254)%nat →
  Forall (Forall (λ pixel, pixel ≠ Z.of_nat level)) image →
  Otsu.histogram image !! level = Some 0.
Proof.
  intros Hlevel Hnone. unfold Otsu.histogram.
  rewrite list_lookup_fmap, lookup_seq_lt by lia. simpl.
  rewrite filter_none; [done|].
  apply Forall_concat. eapply List.Forall_impl; [|exact Hnone].
  intros row Hrow. eapply List.Forall_impl; [|exact Hrow].
  intros pixel Hpixel. simpl in Hpixel. unfold Otsu.bin.
  destruct ((0 <=? pixel) && (pixel <? 255)) eqn:Hin.
  - apply andb_true_iff in Hin as [Hlow%Z.leb_le Hhigh%Z.ltb_lt].
    intros [= Hbin]. lia.
  - destruct (pixel =? 255); [|done]. intros [= Hbin]. lia.
Qed.

Lemma probability_of_none (image : Otsu.GrayscaleImage) (level : nat) :
  Otsu.histogram image !! level = Some 0 →
  Otsu.probabilities image !! level = Some (NpFloat.Fin 0%Qc) ∨
  Otsu.probabilities image !! level = Some NpFloat.NaN.
Proof.
  intros Hlevel. unfold Otsu.probabilities. cbv zeta.
  rewrite list_lookup_fmap, Hlevel. simpl.
  unfold NpFloat.of_Z. simpl.
  case_bool_decide as Hzero; [by right|left].
  do 2 f_equal. rewrite Z2Qc_inj_0. unfold Qcdiv. apply Qcmult_0_l.
Qed.

(** X14: on an image that has no pixel of intensity 127 and none of
    intensity 128, [otsuThreshold] returns 128 whatever the rest of
    the histogram is: the between-class variance is the same at 127,
    128 and 129, so the climb stops where it starts. *)
Theorem otsuThreshold_middle_gap (image : Otsu.GrayscaleImage) :
  Forall (Forall (λ pixel, pixel ≠ 127)) image →
  Forall (Forall (λ pixel, pixel ≠ 128)) image →
  Otsu.otsuThreshold image = Ok 128.
Proof.
  intros Hlower Hupper. unfold Otsu.otsuThreshold.
  set (p := Otsu.probabilities image).
  assert (Hbins : length p = 255%nat).
  { unfold p, Otsu.probabilities, Otsu.histogram. cbv zeta.
    by rewrite !length_map, length_seq. }
  pose proof (probability_of_none image 127
                (histogram_gap image 127 ltac:(lia) Hlower)) as H127.
  pose proof (probability_of_none image 128
                (histogram_gap image 128 ltac:(lia) Hupper)) as H128.
  fold p in H127, H128.
  apply climb1dHill_flat.
  - destruct H127 as [H127|H127].
    + change 128 with (Z.of_nat 127 + 1).
      rewrite (σ_B_zero_step p Hbins 127 H127). apply gtb_irreflexive.
    + rewrite (σ_B_nan p Hbins 127); [done|]. by apply list_elem_of_lookup_2 in H127.
  - destruct H128 as [H128|H128].
    + change 129 with (Z.of_nat 128 + 1).
      rewrite (σ_B_zero_step p Hbins 128 H128). apply gtb_irreflexive.
    + rewrite (σ_B_nan p Hbins 129); [done|]. by apply list_elem_of_lookup_2 in H128.
Qed.

Lemma otsuThreshold_middle_gap_witness :
  Forall (Forall (λ pixel, pixel ≠ 127)) [[10; 200]; [30; 250]] ∧
  Forall (Forall (λ pixel, pixel ≠ 128)) [[10; 200]; [30; 250]] ∧
  Otsu.otsuThreshold [[10; 200]; [30; 250]] = Ok 128.
Proof.
  assert (H127 : Forall (Forall (λ pixel, pixel ≠ 127)) [[10; 200]; [30; 250]]).
  { repeat constructor; lia. }
  assert (H128 : Forall (Forall (λ pixel, pixel ≠ 128)) [[10; 200]; [30; 250]]).
  { repeat constructor; lia. }
  split; [exact H127|]. split; [exact H128|].
  exact (otsuThreshold_middle_gap _ H127 H128).
Defined.

(** ** [common.shiftedPairs] with a given limit *)

Section shifted_pairs.
Context {A : Type}.

(** X16: with a limit above half the length of the signal
    [shiftedPairs] raises [ValueError]; with any other limit it yields
    one pair per offset below the limit, none for a limit that is zero
    or negative, and the pair at offset k is the signal without its
    last k samples beside the signal without its first k samples, two
    lists of one length. *)
Theorem shiftedPairs_limit (signal : list A) (limit : Z) :
  let shifts :=
    map (λ k : nat, (take (length signal - k) signal, drop k signal))
        (seq 0 (Z.to_nat limit)) in
  Common.shiftedPairs signal (Some limit)
  = (if Z.of_nat (length signal) `div` 2 <? limit then Raise ValueError
     else Ok shifts) ∧
  Forall (λ pair : list A * list A, length pair.1 = length pair.2) shifts.
Proof.
  assert (Hhalf : Z.of_nat (length signal) `div` 2
                  = Z.of_nat (length signal `div` 2)).
  { by rewrite (Nat2Z.inj_div (length signal) 2). }
  pose proof (Nat.Div0.mul_div_le (length signal) 2) as Hle.
  cbv zeta. split.
  - unfold Common.shiftedPairs. cbv zeta.
    change (default (Z.of_nat (length signal) `div` 2) (Some limit)) with limit.
    destruct (Z.ltb_spec (Z.of_nat (length signal) `div` 2) limit) as [|Hlimit];
      [done|].
    f_equal. apply list_eq. intros k.
    rewrite !list_lookup_fmap. unfold py_range.
    destruct (decide (k < Z.to_nat limit)%nat) as [Hk|Hk].
    + rewrite (lookup_seqZ_lt _ _ k), lookup_seq_lt by lia. simpl.
      destruct (Z.eqb_spec (0 + Z.of_nat k) 0) as [Hz|Hnz]; simpl.
      { assert (k = 0%nat) as -> by lia.
        rewrite Nat.sub_0_r. by rewrite firstn_all. }
      rewrite Z.add_0_l.
      rewrite py_slice_to_end by lia. by rewrite py_slice_from_drop.
    + rewrite lookup_seqZ_ge, lookup_seq_ge by lia. done.
  - apply Forall_forall. intros pair Hpair%list_elem_of_In.
    apply list_elem_of_fmap in Hpair as (k & -> & _). simpl.
    rewrite length_take, length_drop. lia.
Qed.
End shifted_pairs.

(** ** [common.mode] *)

Section mode.
Import CommonSequences.

Lemma eqb_eq (a b : float) :
  NpFloat.eqb a b = true → a = b ∧ NpFloat.isnan a = false.
Proof.
  destruct a as [p| | |], b as [q| | |]; simpl; try done.
  intros ->%bool_decide_eq_true. done.
Qed.

Lemma eqb_refl (a : float) : NpFloat.isnan a = false → NpFloat.eqb a a = true.
Proof. destruct a; simpl; try done. intros _. by apply bool_decide_eq_true. Qed.

Lemma occurrences_snoc (value : float) (data : list float) (sample : float) :
  occurrences value (data ++ [sample])
  = occurrences value data + (if NpFloat.eqb sample value then 1 else 0).
Proof.
  unfold occurrences. rewrite list.filter_app, length_app.
  destruct (NpFloat.eqb sample value) eqn:Heq.
  - rewrite filter_cons_True by done. simpl. lia.
  - rewrite filter_cons_False by (by rewrite Heq). simpl. lia.
Qed.

Lemma occurrences_positive (value : float) (data : list float) :
  value ∈ data → NpFloat.isnan value = false → 1 ≤ occurrences value data.
Proof.
  intros Hin Hnumber. unfold occurrences.
  assert (Hkept : value ∈ filter (λ sample, NpFloat.eqb sample value = true) data).
  { apply list_elem_of_filter. split; [by apply eqb_refl|done]. }
  destruct (filter _ data); [by apply elem_of_nil in Hkept|]. simpl. lia.
Qed.

Lemma occurrences_none (value : float) (data : list float) :
  (∀ sample, sample ∈ data → NpFloat.eqb sample value = false) →
  occurrences value data = 0.
Proof.
  intros Hnone. unfold occurrences. rewrite filter_none; [done|].
  apply Forall_forall. intros sample Hsample%list_elem_of_In.
  by rewrite (Hnone sample Hsample).
Qed.

(** What [countInsert] does to the counts. *)
Lemma countInsert_spec (x : float) (counts : list (float * Z)) :
  (∃ (i : nat) n,
     counts !! i = Some (x, n) ∧ NpFloat.isnan x = false ∧
     Common.countInsert x counts = <[i := (x, n + 1)]> counts) ∨
  ((∀ (i : nat) key n, counts !! i = Some (key, n) → NpFloat.eqb key x = false) ∧
   Common.countInsert x counts = counts ++ [(x, 1)]).
Proof.
  induction counts as [|[key n] counts IH]; simpl.
  - right. split; [|done]. intros i key n Hi. by rewrite lookup_nil in Hi.
  - destruct (NpFloat.eqb key x) eqn:Heq.
    + apply eqb_eq in Heq as [-> Hnumber]. left. exists 0%nat, n. done.
    + destruct IH as [(i & m & Hi & Hnumber & ->)|[Hnone ->]].
      * left. exists (S i), m. done.
      * right. split; [|done]. intros [|i] key' n' Hi.
        { by injection Hi as <- <-. }
        by apply (Hnone i key' n').
Qed.

Lemma counted_step (data : list float) (counts : list (float * Z)) (x : float) :
  counted data counts → counted (data ++ [x]) (Common.countInsert x counts).
Proof.
  intros [Hkey Honce Hall].
  destruct (countInsert_spec x counts) as [(i & n & Hi & Hnumber & ->)|[Hnone ->]].
  - (* the count of [x] goes up *)
    pose proof (lookup_lt_Some _ _ _ Hi) as Hlt.
    destruct (Hkey i x n Hi) as [Hin Hcount]. rewrite Hnumber in Hcount.
    split.
    + intros j key m Hj.
      apply list_lookup_insert_Some in Hj as [(<- & [= <- <-] & _)|[Hne Hj]].
      * split; [apply elem_of_app; by left|]. rewrite Hnumber, occurrences_snoc.
        rewrite eqb_refl by done. lia.
      * destruct (Hkey j key m Hj) as [Hin' Hcount'].
        split; [apply elem_of_app; by left|].
        destruct (NpFloat.isnan key) eqn:Hnan; [done|].
        rewrite occurrences_snoc, Hcount'.
        destruct (NpFloat.eqb x key) eqn:Heq; [|lia].
        apply eqb_eq in Heq as [<- _]. destruct Hne.
        by apply (Honce i j x n m).
    + intros j1 j2 key m1 m2 Hj1 Hj2 Hnan.
      assert (Hold : ∀ j m, <[i := (x, n + 1)]> counts !! j = Some (key, m) →
                            ∃ m', counts !! j = Some (key, m')).
      { intros j m Hj.
        apply list_lookup_insert_Some in Hj as [(<- & [= <- <-] & _)|[_ Hj]]; eauto. }
      destruct (Hold _ _ Hj1) as (m1' & Hj1'). destruct (Hold _ _ Hj2) as (m2' & Hj2').
      by apply (Honce j1 j2 key m1' m2').
    + intros value Hvalue Hnan.
      assert (Hsome : ∃ j m, counts !! j = Some (value, m)).
      { apply elem_of_app in Hvalue as [Hvalue| ->%list_elem_of_singleton]; eauto. }
      destruct Hsome as (j & m & Hj).
      destruct (decide (i = j)) as [<-|Hne].
      * rewrite Hi in Hj. injection Hj as <- <-. exists i, (n + 1).
        by apply list_lookup_insert_eq.
      * exists j, m. by rewrite list_lookup_insert_ne.
  - (* [x] becomes a new key *)
    assert (Hfresh : NpFloat.isnan x = false → occurrences x data = 0).
    { intros Hnumber. apply occurrences_none. intros sample Hsample.
      destruct (NpFloat.eqb sample x) eqn:Heq; [|done].
      apply eqb_eq in Heq as [-> _].
      destruct (Hall x Hsample Hnumber) as (i & n & Hi).
      pose proof (eqb_refl x Hnumber) as Hself.
      by rewrite (Hnone i x n Hi) in Hself. }
    split.
    + intros j key m Hj.
      apply lookup_app_Some in Hj as [Hj|[_ Hj]].
      * destruct (Hkey j key m Hj) as [Hin Hcount].
        split; [apply elem_of_app; by left|].
        destruct (NpFloat.isnan key) eqn:Hnan; [done|].
        rewrite occurrences_snoc, Hcount.
        destruct (NpFloat.eqb x key) eqn:Heq; [|lia].
        apply eqb_eq in Heq as [<- Hnumber].
        pose proof (eqb_refl x Hnumber) as Hself.
        by rewrite (Hnone j x m Hj) in Hself.
      * apply list_lookup_singleton_Some in Hj as [_ [= <- <-]].
        split; [apply elem_of_app; right; by apply list_elem_of_singleton|].
        destruct (NpFloat.isnan x) eqn:Hnan; [done|].
        rewrite occurrences_snoc, Hfresh, eqb_refl by done. lia.
    + intros j1 j2 key m1 m2 Hj1 Hj2 Hnan.
      apply lookup_app_Some in Hj1 as [Hj1|[Hge1 Hj1]],
            Hj2 as [Hj2|[Hge2 Hj2]].
      * by apply (Honce j1 j2 key m1 m2).
      * apply list_lookup_singleton_Some in Hj2 as [_ [= <- <-]].
        pose proof (eqb_refl x Hnan) as Hself.
        by rewrite (Hnone j1 x m1 Hj1) in Hself.
      * apply list_lookup_singleton_Some in Hj1 as [_ [= <- <-]].
        pose proof (eqb_refl x Hnan) as Hself.
        by rewrite (Hnone j2 x m2 Hj2) in Hself.
      * apply list_lookup_singleton_Some in Hj1 as [Hj1 _], Hj2 as [Hj2 _]. lia.
    + intros value Hvalue Hnan.
      apply elem_of_app in Hvalue as [Hvalue| ->%list_elem_of_singleton].
      * destruct (Hall value Hvalue Hnan) as (j & m & Hj).
        exists j, m. by apply lookup_app_l_Some.
      * exists (length counts), 1. by rewrite list_lookup_middle.
Qed.

Lemma counted_Counter (data : list float) : counted data (Common.Counter data).
Proof.
  unfold Common.Counter.
  induction data as [|x data IH] using rev_ind.
  - split; simpl.
    + intros i key n Hi. by rewrite lookup_nil in Hi.
    + intros i j key n m Hi. by rewrite lookup_nil in Hi.
    + intros value Hvalue. by apply elem_of_nil in Hvalue.
  - rewrite foldl_app. simpl. by apply counted_step.
Qed.

(** The first entry of highest count. *)
Lemma most_common1_spec (counts : list (float * Z)) :
  match Common.most_common1 counts with
  | None => counts = []
  | Some best =>
      ∃ i : nat, counts !! i = Some best ∧
        (∀ (j : nat) entry, counts !! j = Some entry → entry.2 ≤ best.2) ∧
        (∀ (j : nat) entry, (j < i)%nat → counts !! j = Some entry →
                            entry.2 < best.2)
  end.
Proof.
  unfold Common.most_common1.
  induction counts as [|entry counts IH] using rev_ind; [done|].
  rewrite foldl_app. simpl.
  destruct (foldl _ None counts) as [best|].
  - destruct IH as (i & Hi & Hmax & Hfirst).
    pose proof (lookup_lt_Some _ _ _ Hi) as Hlt.
    destruct (Z.ltb_spec best.2 entry.2) as [Hless|Hmore].
    + exists (length counts). split; [by rewrite list_lookup_middle|]. split.
      * intros j entry' Hj. apply lookup_app_Some in Hj as [Hj|[_ Hj]].
        { specialize (Hmax j entry' Hj). lia. }
        apply list_lookup_singleton_Some in Hj as [_ <-]. lia.
      * intros j entry' Hj Hentry. rewrite lookup_app_l in Hentry by lia.
        specialize (Hmax j entry' Hentry). lia.
    + exists i. split; [by apply lookup_app_l_Some|]. split.
      * intros j entry' Hj. apply lookup_app_Some in Hj as [Hj|[_ Hj]].
        { by apply (Hmax j). }
        apply list_lookup_singleton_Some in Hj as [_ <-]. lia.
      * intros j entry' Hj Hentry. rewrite lookup_app_l in Hentry by lia.
        by apply (Hfirst j).
  - subst counts. exists 0%nat. split; [done|]. split.
    + intros [|j] entry' Hj; [|done]. injection Hj as <-. lia.
    + intros j entry' Hj. lia.
Qed.

Lemma mode_value (data : list float) :
  data ≠ [] →
  ∃ value,
    Common.mode data = Ok value ∧ value ∈ data ∧
    if NpFloat.isnan value
    then ∀ other, occurrences other data ≤ 1
    else ∀ other, occurrences other data ≤ occurrences value data.
Proof.
  intros Hdata. unfold Common.mode.
  pose proof (counted_Counter data) as [Hkey Honce Hall].
  pose proof (most_common1_spec (Common.Counter data)) as Hbest.
  destruct (Common.most_common1 (Common.Counter data)) as [[value n]|].
  - destruct Hbest as (i & Hi & Hmax & _). simpl in Hmax.
    destruct (Hkey i value n Hi) as [Hin Hcount].
    exists value. split; [done|]. split; [done|].
    assert (Hbound : ∀ other, occurrences other data ≤ n).
    { intros other.
      destruct (decide (occurrences other data = 0)) as [->|Hsome].
      { destruct (NpFloat.isnan value); [lia|].
        rewrite Hcount. unfold occurrences. lia. }
      assert (Hfound : ∃ sample, sample ∈ data ∧ NpFloat.eqb sample other = true).
      { unfold occurrences in Hsome.
        destruct (filter _ data) as [|sample kept] eqn:Hkept; [done|].
        assert (Hsample : sample ∈ filter (λ s, NpFloat.eqb s other = true) data)
          by (rewrite Hkept; left).
        apply list_elem_of_filter in Hsample as [? ?]. eauto. }
      destruct Hfound as (sample & Hsample & Heq).
      apply eqb_eq in Heq as [-> Hnumber].
      destruct (Hall other Hsample Hnumber) as (j & m & Hj).
      destruct (Hkey j other m Hj) as [_ Hm]. rewrite Hnumber in Hm.
      specialize (Hmax j (other, m) Hj). simpl in Hmax. lia. }
    destruct (NpFloat.isnan value); [by subst n|by subst n].
  - destruct data as [|x data]; [done|].
    destruct (NpFloat.isnan x) eqn:Hnan.
    + exfalso. clear -Hbest. unfold Common.Counter in Hbest. simpl in Hbest.
      assert (Hgrows : ∀ (l : list float) counts,
                 counts ≠ [] →
                 foldl (λ counts x, Common.countInsert x counts) counts l ≠ []).
      { induction l as [|a l IH]; intros counts Hcounts; [done|].
        simpl. apply IH.
        destruct (countInsert_spec a counts) as [(i & n & Hi & _ & ->)|[_ ->]].
        - intros Hnil. apply (f_equal length) in Hnil.
          rewrite length_insert in Hnil. by destruct counts.
        - by destruct counts. }
      by apply (Hgrows data [(x, 1)]).
    + destruct (Hall x ltac:(left) Hnan) as (i & n & Hi).
      rewrite Hbest in Hi. by rewrite lookup_nil in Hi.
Qed.

(** X17: [mode] of an empty collection raises [IndexError].  On any
    other collection it returns one of the samples; when that sample
    is a number, no value occurs more often in the data; when it is
    the not-a-number marker, no value occurs twice. *)
Theorem mode_most_frequent (data : list float) :
  match data with
  | [] => Common.mode data = Raise IndexError
  | _ =>
      ∃ value,
        Common.mode data = Ok value ∧ value ∈ data ∧
        if NpFloat.isnan value
        then ∀ other, occurrences other data ≤ 1
        else ∀ other, occurrences other data ≤ occurrences value data
  end.
Proof.
  destruct data as [|x data]; [done|]. by apply mode_value.
Qed.

Lemma counter_head (data : list float) (tail : list (float * Z)) :
  foldl (λ counts x, Common.countInsert x counts) ((NpFloat.NaN, 1) :: tail) data
  = (NpFloat.NaN, 1) :: foldl (λ counts x, Common.countInsert x counts) tail data.
Proof.
  revert tail. induction data as [|x data IH]; intros tail; [done|].
  simpl. apply IH.
Qed.

Lemma mode_nan_first (rest : list float) :
  (∀ value, occurrences value rest ≤ 1) →
  Common.mode (NpFloat.NaN :: rest) = Ok NpFloat.NaN.
Proof.
  intros Honce. unfold Common.mode, Common.Counter. simpl.
  rewrite counter_head. fold (Common.Counter rest).
  pose proof (counted_Counter rest) as [Hkey _ _].
  pose proof (most_common1_spec ((NpFloat.NaN, 1) :: Common.Counter rest)) as Hbest.
  destruct (Common.most_common1 _) as [[value n]|]; [|done].
  destruct Hbest as (i & Hi & Hmax & Hfirst). simpl in Hmax, Hfirst.
  destruct i as [|i].
  { by injection Hi as <- <-. }
  exfalso. simpl in Hi.
  specialize (Hfirst 0%nat (NpFloat.NaN, 1) ltac:(lia) eq_refl). simpl in Hfirst.
  destruct (Hkey i value n Hi) as [_ Hn].
  destruct (NpFloat.isnan value); [lia|].
  specialize (Honce value). lia.
Qed.

(** X18: when a signal begins with the not-a-number marker and no
    value occurs twice in it, [zeroECGSignal] takes the marker as the
    baseline, and every sample of the zeroed signal is the marker. *)
Theorem zeroECGSignal_nan_first (rest : list float) :
  (∀ value, occurrences value rest ≤ 1) →
  Signal.zeroECGSignal (NpFloat.NaN :: rest)
  = Ok (replicate (S (length rest)) NpFloat.NaN).
Proof.
  intros Honce. unfold Signal.zeroECGSignal.
  rewrite (mode_nan_first rest Honce). simpl. do 2 f_equal.
  clear Honce. induction rest as [|sample rest IH]; [done|].
  simpl. rewrite IH. f_equal. by destruct sample.
Qed.

Lemma zeroECGSignal_nan_first_witness :
  (∀ value, occurrences value [NpFloat.of_Z 3; NpFloat.of_Z 4] ≤ 1) ∧
  Signal.zeroECGSignal [NpFloat.NaN; NpFloat.of_Z 3; NpFloat.of_Z 4]
  = Ok [NpFloat.NaN; NpFloat.NaN; NpFloat.NaN].
Proof.
  assert (Honce : ∀ value, occurrences value [NpFloat.of_Z 3; NpFloat.of_Z 4] ≤ 1).
  { intros value. unfold occurrences.
    destruct (NpFloat.eqb (NpFloat.of_Z 3) value) eqn:Hthree.
    - destruct (NpFloat.eqb (NpFloat.of_Z 4) value) eqn:Hfour.
      + apply eqb_eq in Hthree as [<- _]. apply eqb_eq in Hfour as [Hfour _].
        discriminate Hfour.
      + rewrite filter_cons_True, filter_cons_False by (by rewrite ?Hfour).
        simpl. lia.
    - rewrite filter_cons_False by (by rewrite Hthree).
      destruct (NpFloat.eqb (NpFloat.of_Z 4) value) eqn:Hfour.
      + rewrite filter_cons_True by done. simpl. lia.
      + rewrite filter_cons_False by (by rewrite Hfour). simpl. lia. }
  split; [exact Honce|].
  exact (zeroECGSignal_nan_first [NpFloat.of_Z 3; NpFloat.of_Z 4] Honce).
Defined.
End mode.

(** ** What [convertECGLeads] returns *)

Section conversion_results.
Import Conversion ConversionProperties.

Variable backend : Backend.
Variable inputImage : ColorImage.
Variable parameters : InputParameters.

Lemma mapValues_keys {K A B : Type} (f : K → A → result B)
    (d : list (K * A)) (d' : list (K * B)) :
  mapValues f d = Ok d' → d'.*1 = d.*1.
Proof.
  intros Hrun. apply mapValues_Forall2 in Hrun.
  induction Hrun as [|entry entry' d d' [Hkey _] _ IH]; [done|].
  rewrite !fmap_cons. by f_equal.
Qed.

Lemma leadImages_keys (rotatedImage : ColorImage) :
  (leadImages rotatedImage parameters).*1 = (leads parameters).*1.
Proof.
  unfold leadImages. induction (leads parameters) as [|entry rest IH]; [done|].
  rewrite !fmap_cons. by f_equal.
Qed.

Lemma previews_keys {A B C : Type} (f : B → A → result C)
    (images : list (LeadId * A)) (signals : list (LeadId * B))
    (drawn : list (LeadId * C)) :
  mapM (λ pair : (LeadId * A) * (LeadId * B),
          preview ← f pair.2.2 pair.1.2; Ok (pair.1.1, preview))
       (zip images signals) = Ok drawn →
  length signals = length images →
  drawn.*1 = images.*1.
Proof.
  intros Hrun Hlen. apply mapM_Forall2 in Hrun.
  revert signals drawn Hrun Hlen.
  induction images as [|image images IH]; intros signals drawn Hrun Hlen.
  - destruct signals; [|done]. simpl in Hrun. by inversion Hrun.
  - destruct signals as [|signal signals]; [done|]. simpl in Hrun.
    inversion Hrun as [|pair entry pairs drawn' Hentry Hrest]; subst.
    apply bind_Ok_inv in Hentry as (preview & _ & Hentry).
    injection Hentry as <-. rewrite !fmap_cons. f_equal.
    apply (IH signals); [done|]. simpl in Hlen. lia.
Qed.

(** The stages of a call, previews included. *)
Lemma convertECGLeads_returned (returned : Returned) :
  convertECGLeads backend inputImage parameters = Ok returned →
  returned = ReturnedPair None None ∨
  ∃ fullSignals previews,
    returned = ReturnedPair (Some fullSignals) (Some previews) ∧
    fullSignals.*1 = (leads parameters).*1 ∧
    previews.*1 = (leads parameters).*1 ∧
    leads parameters ≠ [].
Proof.
  unfold convertECGLeads. intros Hrun.
  apply bind_Ok_inv in Hrun as (rotatedImage & Hrotated & Hrun).
  apply bind_Ok_inv in Hrun as (signals & Hsignals & Hrun).
  destruct (forallb isFailure signals.*2) eqn:Hfailed.
  { left. by injection Hrun as <-. }
  apply bind_Ok_inv in Hrun as (drawn & Hdrawn & Hrun).
  apply bind_Ok_inv in Hrun as (gridSpacings & Hgrid & Hrun).
  destruct (length (spacingsOf gridSpacings) =? 0)%nat.
  { left. by injection Hrun as <-. }
  apply bind_Ok_inv in Hrun as (scaledSignals & Hscaled & Hrun).
  apply bind_Ok_inv in Hrun as (samplingPeriod & Hperiod & Hrun).
  apply bind_Ok_inv in Hrun as (paddedSignals & Hpadded & Hrun).
  apply bind_Ok_inv in Hrun as (longest & Hlongest & Hrun).
  apply bind_Ok_inv in Hrun as (full & Hfull & Hrun).
  injection Hrun as <-. right. exists full, drawn. split; [done|].
  pose proof (mapValues_keys _ _ _ Hsignals) as Hkeys.
  rewrite leadImages_keys in Hkeys.
  split; [|split].
  - rewrite (mapValues_keys _ _ _ Hfull), (mapValues_keys _ _ _ Hpadded),
      (mapValues_keys _ _ _ Hscaled). done.
  - rewrite (previews_keys _ _ _ _ Hdrawn), leadImages_keys; [done|].
    apply (f_equal length) in Hkeys. rewrite !length_fmap in Hkeys.
    unfold leadImages. by rewrite length_map.
  - intros Hnone. rewrite Hnone in Hkeys. destruct signals; [|done].
    done.
Qed.

(** X19: what [convertECGLeads] returns, when it returns, is the
    pair (None, None) or a pair of two dictionaries, never a
    [Failure] and never one dictionary beside [None]; the two
    dictionaries have the keys of [parameters.leads], in that order,
    and there is at least one lead. *)
Theorem convertECGLeads_returns (returned : Returned) :
  convertECGLeads backend inputImage parameters = Ok returned →
  returned = ReturnedPair None None ∨
  ∃ fullSignals previews,
    returned = ReturnedPair (Some fullSignals) (Some previews) ∧
    fullSignals.*1 = (leads parameters).*1 ∧
    previews.*1 = (leads parameters).*1 ∧
    leads parameters ≠ [].
Proof. apply convertECGLeads_returned. Qed.

Lemma maxLength_attained (lengths : list Z) (longest : Z) :
  maxLength lengths = Ok longest →
  longest ∈ lengths ∧ Forall (λ n, n ≤ longest) lengths.
Proof.
  destruct lengths as [|n rest]; [done|]. simpl. intros [= <-].
  revert n. induction rest as [|m rest IH]; intros n; simpl.
  - split; [left|]. constructor; [lia|constructor].
  - destruct (IH (Z.max n m)) as [Hin Hall].
    apply Forall_cons_1 in Hall as [Hfirst Hall].
    split.
    + apply elem_of_cons in Hin as [Hin|Hin]; [|by do 2 right].
      destruct (Z.max_spec n m) as [[_ Hmax]|[_ Hmax]]; rewrite Hin, Hmax.
      * right. left.
      * left.
    + constructor; [lia|]. constructor; [lia|done].
Qed.

(** X20: in the dictionary of signals that [convertECGLeads] returns,
    every array has one length, the largest of the lengths that the
    leads have once they are padded on the left: each lead is its
    left padding, its scaled samples and the zeros that bring it to
    that length, no lead is longer than it before the zeros are
    appended, and at least one lead attains it and is returned with no
    zero appended.  The left padding is the truncated binary64
    quotient of the start time by the sampling period. *)
Theorem convertECGLeads_longest_lead (fullSignals : list (LeadId * list float))
    (previews : option (list (LeadId * ColorImage))) :
  convertECGLeads backend inputImage parameters
  = Ok (ReturnedPair (Some fullSignals) previews) →
  ∃ rotatedImage signals gridSpacings samplingPeriod longest,
    rotated backend inputImage (rotation parameters) = Ok rotatedImage ∧
    mapValues (λ _ img, digitizeSignal backend img)
              (leadImages rotatedImage parameters) = Ok signals ∧
    mapValues (λ _ image, digitizeGrid backend image)
              (leadImages rotatedImage parameters) = Ok gridSpacings ∧
    Signal.ecgSignalSamplingPeriod (mean backend (spacingsOf gridSpacings))
                                   (timeScale parameters) (Binary64.of_Z 1)
    = Ok samplingPeriod ∧
    Forall2 (λ source out,
               out.1 = source.1 ∧
               ∃ lead scaled count,
                 lookupLead (leads parameters) source.1 = Ok lead ∧
                 scaleSignal (Binary64.value (mean backend (spacingsOf gridSpacings)))
                             (voltScale parameters) source.2 = Ok scaled ∧
                 Binary64.to_int (PrimFloat.div (startTime lead) samplingPeriod)
                 = Ok count ∧
                 0 ≤ count ∧
                 count + Z.of_nat (length scaled) ≤ longest ∧
                 Z.of_nat (length out.2) = longest ∧
                 out.2 = replicate (Z.to_nat count) (NpFloat.of_Z 0) ++ scaled
                         ++ replicate (Z.to_nat (longest - count
                                                 - Z.of_nat (length scaled)))
                                      (NpFloat.of_Z 0))
            signals fullSignals ∧
    ∃ leadId source lead scaled count,
      (leadId, source) ∈ signals ∧
      lookupLead (leads parameters) leadId = Ok lead ∧
      scaleSignal (Binary64.value (mean backend (spacingsOf gridSpacings)))
                  (voltScale parameters) source = Ok scaled ∧
      Binary64.to_int (PrimFloat.div (startTime lead) samplingPeriod) = Ok count ∧
      count + Z.of_nat (length scaled) = longest ∧
      (leadId, replicate (Z.to_nat count) (NpFloat.of_Z 0) ++ scaled) ∈ fullSignals.
Proof.
  intros Hrun.
  destruct (convertECGLeads_stages backend inputImage parameters _ _ Hrun)
    as (rotatedImage & signals & gridSpacings & scaledSignals & samplingPeriod &
        paddedSignals & longest & Hrotated & Hsignals & Hgrid & Hscaled &
        Hperiod & Hpadded & Hlongest & Hfull).
  apply maxLength_attained in Hlongest as [Hin Hmax].
  apply mapValues_Forall2 in Hscaled, Hpadded, Hfull.
  exists rotatedImage, signals, gridSpacings, samplingPeriod, longest.
  repeat (split; [done|]). split.
  - apply Forall2_same_length_lookup. split.
    { pose proof (Forall2_length Hscaled). pose proof (Forall2_length Hpadded).
      pose proof (Forall2_length Hfull). congruence. }
    intros i source out Hsource Hout.
    destruct (Forall2_lookup_r _ _ _ _ _ Hfull Hout)
      as (padded & Hi & Hid3 & Hright).
    destruct (Forall2_lookup_r _ _ _ _ _ Hpadded Hi)
      as (scaled & Hj & Hid2 & Hleft).
    destruct (Forall2_lookup_r _ _ _ _ _ Hscaled Hj)
      as (source' & Hk & Hid1 & Hscale).
    assert (source' = source) as -> by congruence.
    split; [congruence|].
    apply bind_Ok_inv in Hleft as (lead & Hlead & Hleft).
    apply bind_Ok_inv in Hleft as (count & Hcount & Hleft).
    apply padLeft_shape in Hleft as [Hnonneg Hleft].
    assert (Hbound : Z.of_nat (length padded.2) ≤ longest).
    { rewrite Forall_forall in Hmax. apply Hmax, list_elem_of_In.
      apply list_elem_of_fmap. exists padded. split; [done|].
      by apply list_elem_of_lookup_2 with i. }
    rewrite Hleft, length_app, length_replicate in Hbound.
    exists lead, scaled.2, count. rewrite <- Hid1.
    split; [done|]. split; [done|]. split; [done|]. split; [done|].
    split; [lia|].
    unfold Common.padRight in Hright.
    destruct (Z.ltb_spec (longest - Z.of_nat (length padded.2)) 0); [done|].
    injection Hright as <-.
    rewrite Hleft, !length_app, !length_replicate. split; [lia|].
    rewrite <- app_assoc. do 3 f_equal. lia.
  - apply list_elem_of_fmap in Hin as ([leadId padded] & Hlen & Hin).
    simpl in Hlen. apply list_elem_of_lookup in Hin as (i & Hi).
    destruct (Forall2_lookup_r _ _ _ _ _ Hpadded Hi)
      as ([leadId' scaled] & Hi' & Hkey & Hpad). simpl in Hkey, Hpad.
    subst leadId'.
    destruct (Forall2_lookup_r _ _ _ _ _ Hscaled Hi')
      as ([leadId' source] & Hi'' & Hkey & Hscale). simpl in Hkey, Hscale.
    subst leadId'.
    destruct (Forall2_lookup_l _ _ _ _ _ Hfull Hi)
      as ([leadId' full] & Hfulli & Hkey & Hright). simpl in Hkey, Hright.
    subst leadId'.
    apply bind_Ok_inv in Hpad as (lead & Hlead & Hpad).
    apply bind_Ok_inv in Hpad as (count & Hcount & Hpad).
    apply padLeft_shape in Hpad as [Hnonneg ->].
    exists leadId, source, lead, scaled, count.
    split; [by apply list_elem_of_lookup_2 with i|].
    repeat (split; [done|]).
    split.
    { rewrite Hlen, length_app, length_replicate. lia. }
    apply list_elem_of_lookup_2 with i. rewrite Hfulli. do 2 f_equal.
    unfold Common.padRight in Hright.
    rewrite Hlen, Z.sub_diag in Hright. simpl in Hright.
    injection Hright as <-. by rewrite app_nil_r.
Qed.
End conversion_results.

Section conversion_results_runs.
Import Conversion ConversionProperties Examples.

Lemma convertECGLeads_returns_witness :
  ∃ previews,
    convertECGLeads (sketchBackend gridOfTwentyPixels) page
                    (twoLeads (Q2Qc (35 # 10000)))
    = Ok (ReturnedPair
            (Some [(I, [NpFloat.NaN; NpFloat.NaN; NpFloat.of_Z 0]);
                   (II, [NpFloat.of_Z 0; NpFloat.NaN; NpFloat.NaN])])
            previews) ∧
    (ReturnedPair
       (Some [(I, [NpFloat.NaN; NpFloat.NaN; NpFloat.of_Z 0]);
              (II, [NpFloat.of_Z 0; NpFloat.NaN; NpFloat.NaN])])
       previews = ReturnedPair None None ∨
     ∃ fullSignals previews',
       ReturnedPair
         (Some [(I, [NpFloat.NaN; NpFloat.NaN; NpFloat.of_Z 0]);
                (II, [NpFloat.of_Z 0; NpFloat.NaN; NpFloat.NaN])])
         previews = ReturnedPair (Some fullSignals) (Some previews') ∧
       fullSignals.*1 = [I; II] ∧ previews'.*1 = [I; II] ∧
       leads (twoLeads (Q2Qc (35 # 10000))) ≠ []).
Proof.
  destruct late_lead_run as (previews & Hrun).
  exists previews. split; [exact Hrun|].
  exact (convertECGLeads_returns _ _ _ _ Hrun).
Defined.

Lemma convertECGLeads_longest_lead_witness :
  ∃ previews rotatedImage signals gridSpacings samplingPeriod longest,
    convertECGLeads (sketchBackend gridOfTwentyPixels) page
                    (twoLeads (Q2Qc (35 # 10000)))
    = Ok (ReturnedPair
            (Some [(I, [NpFloat.NaN; NpFloat.NaN; NpFloat.of_Z 0]);
                   (II, [NpFloat.of_Z 0; NpFloat.NaN; NpFloat.NaN])])
            previews) ∧
    mapValues (λ _ img, digitizeSignal (sketchBackend gridOfTwentyPixels) img)
              (leadImages rotatedImage (twoLeads (Q2Qc (35 # 10000)))) = Ok signals ∧
    mapValues (λ _ image, digitizeGrid (sketchBackend gridOfTwentyPixels) image)
              (leadImages rotatedImage (twoLeads (Q2Qc (35 # 10000))))
    = Ok gridSpacings ∧
    ∃ leadId source lead scaled count,
      (leadId, source) ∈ signals ∧
      lookupLead (leads (twoLeads (Q2Qc (35 # 10000)))) leadId = Ok lead ∧
      scaleSignal
        (Binary64.value
           (mean (sketchBackend gridOfTwentyPixels) (spacingsOf gridSpacings)))
        (Qc_of_Z 10) source
      = Ok scaled ∧
      Binary64.to_int (PrimFloat.div (startTime lead) samplingPeriod) = Ok count ∧
      count + Z.of_nat (length scaled) = longest ∧
      (leadId, replicate (Z.to_nat count) (NpFloat.of_Z 0) ++ scaled)
        ∈ [(I, [NpFloat.NaN; NpFloat.NaN; NpFloat.of_Z 0]);
           (II, [NpFloat.of_Z 0; NpFloat.NaN; NpFloat.NaN])].
Proof.
  destruct late_lead_run as (previews & Hrun).
  destruct (convertECGLeads_longest_lead _ _ _ _ _ Hrun)
    as (rotatedImage & signals & gridSpacings & samplingPeriod & longest &
        _ & Hsignals & Hgrid & _ & _ & Hattained).
  exists previews, rotatedImage, signals, gridSpacings, samplingPeriod, longest.
  split; [exact Hrun|]. split; [exact Hsignals|]. split; [exact Hgrid|].
  exact Hattained.
Defined.
End conversion_results_runs.

(** ** [Conversion.exportSignals] *)

Section export.
Import Conversion ConversionProperties Exporting.

Lemma zipDict_items {K V : Type} (dictionary : list (K * V)) :
  CommonSequences.zipDict dictionary = dictionary.
Proof.
  unfold CommonSequences.zipDict.
  induction dictionary as [|[key item] rest IH]; [done|].
  simpl. by rewrite IH.
Qed.

Lemma insertByValue_perm {A : Type} (pair : LeadId * A) (leads : list (LeadId * A)) :
  insertByValue pair leads ≡ₚ pair :: leads.
Proof.
  induction leads as [|other rest IH]; [done|]. simpl.
  destruct (value other.1 <=? value pair.1); [|done].
  rewrite IH. apply Permutation_swap.
Qed.

Lemma sortByValue_perm {A : Type} (leads : list (LeadId * A)) :
  sortByValue leads ≡ₚ leads.
Proof.
  induction leads as [|pair rest IH]; [done|]. simpl.
  by rewrite insertByValue_perm, IH.
Qed.

Lemma insertByValue_ascending {A : Type} (pair : LeadId * A)
    (leads : list (LeadId * A)) :
  ascending leads → ascending (insertByValue pair leads).
Proof.
  induction leads as [|other rest IH]; intros Hsorted; simpl.
  - split; [constructor|done].
  - destruct Hsorted as [Hleast Hsorted].
    destruct (Z.leb_spec (value other.1) (value pair.1)) as [Hle|Hgt].
    + split; [|by apply IH].
      rewrite insertByValue_perm. by constructor.
    + split; [|by split]. constructor; [lia|].
      eapply List.Forall_impl; [|exact Hleast]. intros entry Hentry.
      simpl in Hentry. lia.
Qed.

Lemma sortByValue_ascending {A : Type} (leads : list (LeadId * A)) :
  ascending (sortByValue leads).
Proof.
  induction leads as [|pair rest IH]; [done|]. simpl.
  by apply insertByValue_ascending.
Qed.

Lemma value_inj (first second : LeadId) : value first = value second → first = second.
Proof. destruct first, second; simpl; intros H; by try discriminate H. Qed.

Lemma ascending_unique {A : Type} (first second : list (LeadId * A)) :
  ascending first → ascending second → first ≡ₚ second → NoDup first.*1 →
  first = second.
Proof.
  revert second. induction first as [|a first IH]; intros second Ha Hb Hperm Hkeys.
  - by apply Permutation_nil_l in Hperm.
  - destruct second as [|b second].
    { by apply Permutation_nil_r in Hperm. }
    destruct Ha as [Hleast Ha]. destruct Hb as [Hleast' Hb].
    assert (Hequal : a = b).
    { assert (Hb_in : b ∈ a :: first) by (rewrite Hperm; left).
      assert (Ha_in : a ∈ b :: second) by (rewrite <- Hperm; left).
      apply elem_of_cons in Hb_in as [->|Hb_in]; [done|].
      apply elem_of_cons in Ha_in as [->|Ha_in]; [done|].
      rewrite Forall_forall in Hleast, Hleast'.
      apply list_elem_of_In, Hleast in Hb_in as Hle.
      apply list_elem_of_In, Hleast' in Ha_in as Hge.
      assert (Hkey : a.1 = b.1) by (apply value_inj; lia).
      exfalso. rewrite fmap_cons in Hkeys. apply list.NoDup_cons in Hkeys as [Hfresh _].
      apply Hfresh. rewrite Hkey. apply list_elem_of_fmap. exists b.
      split; [done|]. by apply list_elem_of_In. }
    subst b. f_equal. apply IH; [done|done| |].
    + by apply Permutation_cons_inv in Hperm.
    + rewrite fmap_cons in Hkeys. by apply list.NoDup_cons in Hkeys as [_ ?].
Qed.

Section lines.
Variable str : float → string.

Lemma exportSignals_lines (leadSignals : list (LeadId * list float))
    (separator : string) (n : nat) :
  leadSignals ≠ [] →
  Forall (λ entry : LeadId * list float, length entry.2 = n) leadSignals →
  ∃ lines, exportSignals str leadSignals separator = Ok lines ∧ length lines = n.
Proof.
  intros Hsome Hall. unfold exportSignals. cbv zeta. rewrite zipDict_items.
  pose proof (sortByValue_perm leadSignals) as Hperm.
  destruct (sortByValue leadSignals) as [|first leads] eqn:Hsorted.
  { apply Permutation_nil_l in Hperm. by subst. }
  simpl length. change (1 <=? S (length leads))%nat with true. cbv iota.
  change (py_getitem (first :: leads) 0) with (Ok (A := LeadId * list float) first).
  rewrite bind_Ok.
  assert (Hall' : Forall (λ entry : LeadId * list float, length entry.2 = n)
                         (first :: leads)).
  { by rewrite Hperm. }
  assert (Hfirst : length first.2 = n) by (by apply Forall_cons_1 in Hall' as [? _]).
  replace (forallb _ (first :: leads)) with true.
  - simpl. eexists. split; [done|].
    unfold swapaxes. by rewrite !length_map, length_seq.
  - symmetry. apply forallb_forall. rewrite Forall_forall in Hall'.
    intros entry Hentry. apply Hall' in Hentry. apply Nat.eqb_eq. lia.
Qed.

(** X21: [exportSignals] fails its first assertion on an empty
    dictionary and its second as soon as two signals differ in
    length; on a dictionary that is not empty and whose signals all
    have n samples it writes n lines. *)
Theorem exportSignals_outcome (leadSignals : list (LeadId * list float))
    (separator : string) :
  (leadSignals = [] →
   exportSignals str leadSignals separator = Raise AssertionError) ∧
  (∀ first second, first ∈ leadSignals → second ∈ leadSignals →
                   length first.2 ≠ length second.2 →
                   exportSignals str leadSignals separator = Raise AssertionError) ∧
  (∀ n : nat, leadSignals ≠ [] →
     Forall (λ entry : LeadId * list float, length entry.2 = n) leadSignals →
     ∃ lines, exportSignals str leadSignals separator = Ok lines ∧
              length lines = n).
Proof.
  split; [by intros ->|]. split; [|apply exportSignals_lines].
  intros first second Hfirst Hsecond Hdiffer.
  unfold exportSignals. cbv zeta. rewrite zipDict_items.
  pose proof (sortByValue_perm leadSignals) as Hperm.
  destruct (sortByValue leadSignals) as [|head leads] eqn:Hsorted.
  { done. }
  simpl length. change (1 <=? S (length leads))%nat with true. cbv iota.
  change (py_getitem (head :: leads) 0) with (Ok (A := LeadId * list float) head).
  rewrite bind_Ok.
  destruct (forallb _ (head :: leads)) eqn:Hequal; [|done].
  exfalso. rewrite forallb_forall in Hequal.
  rewrite <- Hperm in Hfirst, Hsecond.
  apply list_elem_of_In, Hequal, Nat.eqb_eq in Hfirst.
  apply list_elem_of_In, Hequal, Nat.eqb_eq in Hsecond. lia.
Qed.

(** X23: the lines that [exportSignals] writes do not depend on the
    order of the dictionary: two dictionaries with the same items and
    no key twice give the same outcome, the columns of the file
    following the numbering of [LeadId]. *)
Theorem exportSignals_order (first second : list (LeadId * list float))
    (separator : string) :
  NoDup first.*1 → first ≡ₚ second →
  exportSignals str first separator = exportSignals str second separator.
Proof.
  intros Hkeys Hperm.
  assert (Hsame : sortByValue first = sortByValue second).
  { apply ascending_unique.
    - apply sortByValue_ascending.
    - apply sortByValue_ascending.
    - by rewrite !sortByValue_perm.
    - by rewrite sortByValue_perm. }
  unfold exportSignals. cbv zeta. by rewrite !zipDict_items, Hsame.
Qed.

End lines.

Variable backend : Backend.
Variable inputImage : ColorImage.
Variable parameters : InputParameters.

(** X22: whatever dictionary of signals [convertECGLeads] returns,
    [exportSignals] accepts it: neither assertion fails, and the file
    gets one line per sample of the common length. *)
Theorem exportSignals_after_conversion (str : float → string)
    (fullSignals : list (LeadId * list float))
    (previews : option (list (LeadId * ColorImage))) (separator : string) :
  convertECGLeads backend inputImage parameters
  = Ok (ReturnedPair (Some fullSignals) previews) →
  ∃ lines,
    exportSignals str fullSignals separator = Ok lines ∧
    Forall (λ entry : LeadId * list float, length entry.2 = length lines)
           fullSignals.
Proof.
  intros Hrun.
  destruct (convertECGLeads_returned backend inputImage parameters _ Hrun)
    as [|(full & drawn & [= <- _] & Hkeys & _ & Hleads)]; [done|].
  destruct (convertECGLeads_stages backend inputImage parameters _ _ Hrun)
    as (_ & _ & _ & _ & _ & paddedSignals & longest & _ & _ & _ & _ & _ & _ &
        Hlongest & Hfull).
  assert (Hall : Forall (λ entry : LeadId * list float,
                           length entry.2 = Z.to_nat longest) fullSignals).
  { apply mapValues_Forall2 in Hfull.
    apply Forall_forall. intros [key out] Hout%list_elem_of_In.
    apply list_elem_of_lookup in Hout as (j & Hj).
    destruct (Forall2_lookup_r _ _ _ _ _ Hfull Hj)
      as ([key' padded'] & Hj' & _ & Hright). simpl in Hright.
    apply padRight_length in Hright as [Hlen _]. simpl. lia. }
  destruct (exportSignals_lines str fullSignals separator (Z.to_nat longest))
    as (lines & Hlines & Hcount); [|done|].
  { intros ->. by destruct (leads parameters). }
  exists lines. split; [done|]. by rewrite Hcount.
Qed.
End export.

Section export_runs.
Import Conversion ConversionProperties Exporting Examples.

Lemma exportSignals_after_conversion_witness :
  ∃ previews lines,
    convertECGLeads (sketchBackend gridOfTwentyPixels) page
                    (twoLeads (Q2Qc (35 # 10000)))
    = Ok (ReturnedPair
            (Some [(I, [NpFloat.NaN; NpFloat.NaN; NpFloat.of_Z 0]);
                   (II, [NpFloat.of_Z 0; NpFloat.NaN; NpFloat.NaN])])
            previews) ∧
    exportSignals (λ _, "0")
      [(I, [NpFloat.NaN; NpFloat.NaN; NpFloat.of_Z 0]);
       (II, [NpFloat.of_Z 0; NpFloat.NaN; NpFloat.NaN])] "," = Ok lines ∧
    length lines = 3%nat.
Proof.
  destruct late_lead_run as (previews & Hrun).
  destruct (exportSignals_after_conversion _ _ _ (λ _, "0") _ _ "," Hrun)
    as (lines & Hlines & Hall).
  exists previews, lines. split; [exact Hrun|]. split; [exact Hlines|].
  apply Forall_cons_1 in Hall as [Hfirst _]. simpl in Hfirst. by rewrite <- Hfirst.
Defined.
Lemma exportSignals_outcome_witness :
  [(II, [NpFloat.of_Z 1; NpFloat.of_Z 2]); (I, [NpFloat.of_Z 3; NpFloat.of_Z 4])]
    ≠ [] ∧
  Forall (λ entry : LeadId * list float, length entry.2 = 2%nat)
         [(II, [NpFloat.of_Z 1; NpFloat.of_Z 2]); (I, [NpFloat.of_Z 3; NpFloat.of_Z 4])] ∧
  ∃ lines,
    exportSignals (λ _, "0")
      [(II, [NpFloat.of_Z 1; NpFloat.of_Z 2]); (I, [NpFloat.of_Z 3; NpFloat.of_Z 4])]
      "," = Ok lines ∧
    length lines = 2%nat.
Proof.
  assert (Hall : Forall (λ entry : LeadId * list float, length entry.2 = 2%nat)
                   [(II, [NpFloat.of_Z 1; NpFloat.of_Z 2]);
                    (I, [NpFloat.of_Z 3; NpFloat.of_Z 4])]).
  { repeat constructor. }
  assert (Hsome : [(II, [NpFloat.of_Z 1; NpFloat.of_Z 2]);
                   (I, [NpFloat.of_Z 3; NpFloat.of_Z 4])] ≠ []) by done.
  split; [exact Hsome|]. split; [exact Hall|].
  exact (proj2 (proj2 (exportSignals_outcome (λ _, "0") _ ",")) 2%nat Hsome Hall).
Defined.

Lemma exportSignals_order_witness :
  NoDup [II; I] ∧
  [(II, [NpFloat.of_Z 1]); (I, [NpFloat.of_Z 3])]
    ≡ₚ [(I, [NpFloat.of_Z 3]); (II, [NpFloat.of_Z 1])] ∧
  exportSignals (λ _, "0") [(II, [NpFloat.of_Z 1]); (I, [NpFloat.of_Z 3])] ","
  = exportSignals (λ _, "0") [(I, [NpFloat.of_Z 3]); (II, [NpFloat.of_Z 1])] ",".
Proof.
  assert (Hkeys : NoDup [II; I]).
  { apply list.NoDup_cons. split; [|apply NoDup_singleton].
    intros Hin. apply list_elem_of_singleton in Hin. discriminate Hin. }
  assert (Hperm : [(II, [NpFloat.of_Z 1]); (I, [NpFloat.of_Z 3])]
                    ≡ₚ [(I, [NpFloat.of_Z 3]); (II, [NpFloat.of_Z 1])]).
  { apply Permutation_swap. }
  split; [exact Hkeys|]. split; [exact Hperm|].
  exact (exportSignals_order (λ _, "0") [(II, [NpFloat.of_Z 1]); (I, [NpFloat.of_Z 3])]
           [(I, [NpFloat.of_Z 3]); (II, [NpFloat.of_Z 1])] "," Hkeys Hperm).
Defined.
End export_runs.

(** ** From pixels to microvolts *)

Section microvolts.
Import Conversion.

(** X24: with a grid period and a voltage scale that are not zero,
    and a baseline (the mode of the samples) that is a number,
    the zeroing and the vertical scaling of [convertECGLeads] together
    send a sample q to (baseline - q) * 1000 / (grid * scale): rows
    above the baseline become positive microvolts, the baseline itself
    becomes 0, and a not-a-number marker stays what it is. *)
Theorem scaleSignal_microvolts (samples : list float) (grid scale baseline : Qc) :
  grid ≠ 0%Qc → scale ≠ 0%Qc →
  Common.mode samples = Ok (NpFloat.Fin baseline) →
  ∃ scaled,
    scaleSignal (NpFloat.Fin grid) scale (SignalArray samples) = Ok scaled ∧
    length scaled = length samples ∧
    ∀ i : nat,
      (∀ q, samples !! i = Some (NpFloat.Fin q) →
            scaled !! i
            = Some (NpFloat.Fin ((baseline - q) * Qc_of_Z 1000 / (grid * scale))%Qc)) ∧
      (samples !! i = Some NpFloat.NaN → scaled !! i = Some NpFloat.NaN).
Proof.
  intros Hgrid Hscale Hmode.
  unfold scaleSignal, Signal.zeroECGSignal. rewrite Hmode, bind_Ok.
  unfold Signal.verticallyScaleECGSignal, Signal.reciprocal. cbv zeta.
  rewrite bool_decide_eq_false_2 by done. rewrite bind_Ok.
  eexists. split; [reflexivity|]. split.
  { by rewrite !length_map. }
  intros i. split.
  - intros q Hq. rewrite !list_lookup_fmap, Hq. simpl.
    rewrite bool_decide_eq_false_2 by done. simpl. do 2 f_equal.
    rewrite Z2Qc_inj_1.
    replace (Qc_of_Z (-1)) with (- (1))%Qc by (by rewrite <- Z2Qc_inj_1, <- Z2Qc_inj_opp).
    field. done.
  - intros Hnan. rewrite !list_lookup_fmap, Hnan. done.
Qed.

Lemma scaleSignal_microvolts_witness :
  Qc_of_Z 20 ≠ 0%Qc ∧ Qc_of_Z 10 ≠ 0%Qc ∧
  Common.mode [NpFloat.of_Z 5; NpFloat.of_Z 7; NpFloat.of_Z 5]
  = Ok (NpFloat.Fin (Qc_of_Z 5)) ∧
  ∃ scaled,
    scaleSignal (NpFloat.Fin (Qc_of_Z 20)) (Qc_of_Z 10)
                (SignalArray [NpFloat.of_Z 5; NpFloat.of_Z 7; NpFloat.of_Z 5])
    = Ok scaled ∧
    length scaled = 3%nat.
Proof.
  assert (Hgrid : Qc_of_Z 20 ≠ 0%Qc) by done.
  assert (Hscale : Qc_of_Z 10 ≠ 0%Qc) by done.
  assert (Hmode : Common.mode [NpFloat.of_Z 5; NpFloat.of_Z 7; NpFloat.of_Z 5]
                  = Ok (NpFloat.Fin (Qc_of_Z 5))).
  { by vm_compute. }
  split; [exact Hgrid|]. split; [exact Hscale|]. split; [exact Hmode|].
  destruct (scaleSignal_microvolts _ _ _ _ Hgrid Hscale Hmode)
    as (scaled & Hscaled & Hlen & _).
  exists scaled. split; [exact Hscaled|exact Hlen].
Defined.
End microvolts.

(** ** [ecgdigitize.estimateRotationAngle] *)

Section rotation.
Import Rotation.
Local Open Scope R_scope.

Lemma pymod_range (a b : R) : 0 < b → 0 <= pymod a b < b.
Proof.
  intros Hb. unfold pymod.
  destruct (base_Int_part (a / b)) as [Hfloor Hnext].
  assert (Ha : a = a / b * b) by (field; lra).
  split.
  - pose proof (Rmult_le_compat_r b _ _ (Rlt_le _ _ Hb) Hfloor). lra.
  - assert (Hlt : a / b < IZR (Int_part (a / b)) + 1) by lra.
    pose proof (Rmult_lt_compat_r b _ _ Hb Hlt). lra.
Qed.

Lemma sum_bounds (lower upper : R) (values : list R) :
  Forall (λ v, lower <= v < upper) values →
  INR (length values) * lower <= foldr Rplus 0 values ∧
  (values ≠ [] → foldr Rplus 0 values < INR (length values) * upper).
Proof.
  induction 1 as [|v values [Hlow Hhigh] Hall [IHlow IHhigh]].
  - simpl. split; [lra|done].
  - change (length (v :: values)) with (S (length values)).
    rewrite S_INR. simpl foldr. split; [lra|]. intros _.
    destruct values as [|w values].
    + simpl in *. lra.
    + specialize (IHhigh ltac:(done)). lra.
Qed.

Lemma mean_bounds (lower upper : R) (values : list R) :
  values ≠ [] → Forall (λ v, lower <= v < upper) values →
  lower <= mean values < upper.
Proof.
  intros Hsome Hall. destruct (sum_bounds lower upper values Hall) as [Hlow Hhigh].
  specialize (Hhigh Hsome). unfold mean.
  assert (Hn : 0 < INR (length values)).
  { destruct values; [done|]. apply lt_0_INR. simpl. lia. }
  pose proof (Rinv_0_lt_compat _ Hn) as Hinv. unfold Rdiv. split.
  - apply Rle_trans with (INR (length values) * lower * / INR (length values)).
    + right. field. lra.
    + apply Rmult_le_compat_r; [lra|done].
  - apply Rlt_le_trans with (INR (length values) * upper * / INR (length values)).
    + by apply Rmult_lt_compat_r.
    + right. field. lra.
Qed.

Variable thresholdApproach : Conversion.ColorImage → result Viterbi.BinaryImage.
Variable houghLines : Viterbi.BinaryImage → Z → list (R * R).

(** X25: an angle that [estimateRotationAngle] returns is the mean of
    at least two offsets in [0, 30) and lies in [0, 30) itself: the
    offsets are taken modulo 90, which is never negative, so a tilt the
    other way shows as an offset just below 90 and is discarded. *)
Theorem estimateRotationAngle_range (image : Conversion.ColorImage)
    (houghThresholdFraction : Qc) (angle : R) :
  estimateRotationAngle thresholdApproach houghLines image houghThresholdFraction
  = Ok (Some angle) →
  0 <= angle < 30.
Proof.
  unfold estimateRotationAngle. intros Hrun.
  apply bind_Ok_inv in Hrun as (binaryImage & _ & Hrun).
  apply bind_Ok_inv in Hrun as (houghThreshold & _ & Hrun).
  cbv zeta in Hrun.
  set (candidates := List.filter _ _) in Hrun.
  destruct (Nat.ltb_spec 1 (length candidates)) as [Hmany|]; [|done].
  injection Hrun as <-. apply mean_bounds.
  { intros Hnone. rewrite Hnone in Hmany. simpl in Hmany. lia. }
  apply Forall_forall. intros offset Hoffset.
  apply filter_In in Hoffset as [Hoffset Hclose].
  apply in_map_iff in Hoffset as (direction & <- & _).
  pose proof (pymod_range direction 90 ltac:(lra)) as [Hlow _].
  destruct (Rlt_dec (Rabs (pymod direction 90)) 30) as [Hlt|]; [|done].
  rewrite Rabs_pos_eq in Hlt by done. lra.
Qed.
End rotation.

Section rotation_run.
Import Rotation.
Local Open Scope R_scope.

Lemma level_lines_run :
  estimateRotationAngle (λ _, Ok []) (λ _ _, [(0, 0); (0, 0)]) [] (Q2Qc (1 # 4))
  = Ok (Some 0).
Proof.
  unfold estimateRotationAngle. rewrite bind_Ok.
  assert (Hthreshold :
            NpFloat.to_int
              (NpFloat.Fin (Qc_of_Z (Z.of_nat (length (hd [] (@nil (list (Z * Z * Z))))))
                            * Q2Qc (1 # 4))%Qc) = Ok 0%Z).
  { by vm_compute. }
  rewrite Hthreshold, bind_Ok. cbv zeta.
  assert (Hoffset : pymod (houghLineToAngle (0, 0)) 90 = 0).
  { unfold pymod, houghLineToAngle.
    replace (0 * 180 / PI) with 0 by (unfold Rdiv; ring).
    replace (0 / 90) with (INR 0) by (simpl; lra).
    rewrite Int_part_INR. change (Z.of_nat 0) with 0%Z. lra. }
  cbn [map]. rewrite Hoffset. cbn [List.filter].
  destruct (Rlt_dec (Rabs 0) 30) as [_|Hfar].
  - cbn [length]. change (1 <? 2)%nat with true. cbv iota.
    do 2 f_equal. unfold mean. cbn [foldr length].
    change (INR 2) with (1 + 1). lra.
  - destruct Hfar. rewrite Rabs_R0. lra.
Qed.

Lemma estimateRotationAngle_range_witness :
  estimateRotationAngle (λ _, Ok []) (λ _ _, [(0, 0); (0, 0)]) [] (Q2Qc (1 # 4))
  = Ok (Some 0) ∧
  0 <= 0 < 30.
Proof.
  split; [exact level_lines_run|].
  exact (estimateRotationAngle_range _ _ _ _ _ level_lines_run).
Defined.
End rotation_run.

(** ** The grid period and the adaptive threshold *)

Section grid_period.
Import Grid.
Context {C : Type} (corrcoef : list Z → list Z → C).
Variable findFirstPeak : list C → option Z.
Variable refinePeak : list C → Z → result float.

Lemma autocorrelation_defined (signal : list Z) :
  ∃ strengths, Common.autocorrelation corrcoef signal None = Ok strengths.
Proof.
  unfold Common.autocorrelation, Common.shiftedPairs. cbv zeta.
  change (default (Z.of_nat (length signal) `div` 2) None)
    with (Z.of_nat (length signal) `div` 2).
  rewrite Z.ltb_irrefl. simpl. eauto.
Qed.

(** X26: a period that [estimateFrequencyViaAutocorrelation] returns
    is never zero and never [None].  It is the peak location of the column densities whenever that
    exists and is not zero, and the one of the row densities only
    otherwise; a [Failure] is returned only when both are [None] or
    zero.  The column estimate exists exactly when [_gridIsDetectable]
    holds of the same mask: on a mask that [adaptive] stops at because
    the grid is no longer detectable, the period can only come from
    the rows. *)
Theorem estimateFrequencyViaAutocorrelation_period
    (binaryImage : Viterbi.BinaryImage) (value : Conversion.GridValue) :
  estimateFrequencyViaAutocorrelation corrcoef findFirstPeak refinePeak binaryImage
  = Ok value →
  ∃ columnStrengths rowStrengths columnFrequency rowFrequency,
    Common.autocorrelation corrcoef (columnDensity binaryImage) None
    = Ok columnStrengths ∧
    Common.autocorrelation corrcoef (rowDensity binaryImage) None
    = Ok rowStrengths ∧
    estimateFirstPeakLocation findFirstPeak refinePeak columnStrengths true
    = Ok columnFrequency ∧
    estimateFirstPeakLocation findFirstPeak refinePeak rowStrengths true
    = Ok rowFrequency ∧
    gridIsDetectable corrcoef findFirstPeak refinePeak binaryImage
    = Ok (bool_decide (columnFrequency ≠ None)) ∧
    match value with
    | Conversion.GridPeriod period =>
        NpFloat.eqb period (NpFloat.of_Z 0) = false ∧
        (columnFrequency = Some period ∨
         (truthy columnFrequency = false ∧ rowFrequency = Some period))
    | Conversion.GridFailure failure =>
        failure = unableToEstimate ∧
        truthy columnFrequency = false ∧ truthy rowFrequency = false
    end.
Proof.
  unfold estimateFrequencyViaAutocorrelation, gridIsDetectable. cbv zeta.
  intros Hrun.
  apply bind_Ok_inv in Hrun as (columnStrengths & Hcolumns & Hrun).
  apply bind_Ok_inv in Hrun as (rowStrengths & Hrows & Hrun).
  apply bind_Ok_inv in Hrun as (columnFrequency & Hcolumn & Hrun).
  apply bind_Ok_inv in Hrun as (rowFrequency & Hrow & Hrun).
  exists columnStrengths, rowStrengths, columnFrequency, rowFrequency.
  repeat (split; [done|]). split.
  - rewrite Hcolumns, bind_Ok.
    unfold estimateFirstPeakLocation in *.
    destruct (findFirstPeak columnStrengths) as [index|].
    + apply bind_Ok_inv in Hcolumn as (newPeak & _ & Hcolumn).
      injection Hcolumn as <-. done.
    + injection Hcolumn as <-. done.
  - destruct columnFrequency as [column|], rowFrequency as [row|];
      unfold truthy in *; simpl in Hrun.
    + destruct (NpFloat.eqb column (NpFloat.of_Z 0)) eqn:Hzero;
        destruct (NpFloat.eqb row (NpFloat.of_Z 0)) eqn:Hzero';
        simpl in Hrun; injection Hrun as <-; simpl; rewrite ?Hzero, ?Hzero'.
      * done.
      * split; [done|]. right. done.
      * split; [done|]. by left.
      * split; [done|]. by left.
    + destruct (NpFloat.eqb column (NpFloat.of_Z 0)) eqn:Hzero;
        simpl in Hrun; injection Hrun as <-; simpl; rewrite ?Hzero.
      * done.
      * split; [done|]. by left.
    + destruct (NpFloat.eqb row (NpFloat.of_Z 0)) eqn:Hzero;
        simpl in Hrun; injection Hrun as <-; simpl; rewrite ?Hzero.
      * done.
      * split; [done|]. by right.
    + injection Hrun as <-. done.
Qed.

Lemma gridIsDetectable_defined (image : Viterbi.BinaryImage) :
  ∃ detectable,
    gridIsDetectable corrcoef findFirstPeak refinePeak image = Ok detectable.
Proof.
  unfold gridIsDetectable. cbv zeta.
  destruct (autocorrelation_defined (columnDensity image)) as (strengths & ->).
  rewrite bind_Ok. unfold estimateFirstPeakLocation.
  destruct (findFirstPeak strengths); simpl; eauto.
Qed.
End grid_period.

(** Two rows of four pixels: two column strengths and one row
    strength, so that the stand-in peak finder, which answers the
    number of strengths, tells the two directions apart. *)
Lemma estimateFrequencyViaAutocorrelation_period_witness :
  Grid.estimateFrequencyViaAutocorrelation (λ _ _ : list Z, tt)
    (λ strengths, Some (Z.of_nat (length strengths)))
    (λ _ index, Ok (NpFloat.of_Z index)) [[1; 0; 1; 0]; [1; 0; 1; 0]]
  = Ok (Conversion.GridPeriod (NpFloat.of_Z 2)) ∧
  ∃ columnStrengths rowStrengths columnFrequency rowFrequency,
    Common.autocorrelation (λ _ _ : list Z, tt)
      (Grid.columnDensity [[1; 0; 1; 0]; [1; 0; 1; 0]]) None
    = Ok columnStrengths ∧
    Common.autocorrelation (λ _ _ : list Z, tt)
      (Grid.rowDensity [[1; 0; 1; 0]; [1; 0; 1; 0]]) None
    = Ok rowStrengths ∧
    Grid.estimateFirstPeakLocation
      (λ strengths, Some (Z.of_nat (length strengths)))
      (λ _ index, Ok (NpFloat.of_Z index)) columnStrengths true
    = Ok columnFrequency ∧
    Grid.estimateFirstPeakLocation
      (λ strengths, Some (Z.of_nat (length strengths)))
      (λ _ index, Ok (NpFloat.of_Z index)) rowStrengths true
    = Ok rowFrequency ∧
    Grid.gridIsDetectable (λ _ _ : list Z, tt)
      (λ strengths, Some (Z.of_nat (length strengths)))
      (λ _ index, Ok (NpFloat.of_Z index)) [[1; 0; 1; 0]; [1; 0; 1; 0]]
    = Ok (bool_decide (columnFrequency ≠ None)) ∧
    NpFloat.eqb (NpFloat.of_Z 2) (NpFloat.of_Z 0) = false ∧
    (columnFrequency = Some (NpFloat.of_Z 2) ∨
     (Grid.truthy columnFrequency = false ∧ rowFrequency = Some (NpFloat.of_Z 2))).
Proof.
  assert (Hrun : Grid.estimateFrequencyViaAutocorrelation (λ _ _ : list Z, tt)
                   (λ strengths, Some (Z.of_nat (length strengths)))
                   (λ _ index, Ok (NpFloat.of_Z index))
                   [[1; 0; 1; 0]; [1; 0; 1; 0]]
                 = Ok (Conversion.GridPeriod (NpFloat.of_Z 2))) by reflexivity.
  split; [exact Hrun|].
  exact (estimateFrequencyViaAutocorrelation_period (λ _ _ : list Z, tt)
           (λ strengths, Some (Z.of_nat (length strengths)))
           (λ _ index, Ok (NpFloat.of_Z index)) [[1; 0; 1; 0]; [1; 0; 1; 0]]
           (Conversion.GridPeriod (NpFloat.of_Z 2)) Hrun).
Defined.

(** On that mask the rows alone would give a period of 1: the
    estimate of the columns is the one returned. *)
Example estimateFrequencyViaAutocorrelation_prefers_columns :
  Grid.estimateFirstPeakLocation
    (λ strengths : list unit, Some (Z.of_nat (length strengths)))
    (λ _ index, Ok (NpFloat.of_Z index)) [tt] true
  = Ok (Some (NpFloat.of_Z 1)) ∧
  Common.autocorrelation (λ _ _ : list Z, tt)
    (Grid.rowDensity [[1; 0; 1; 0]; [1; 0; 1; 0]]) None = Ok [tt].
Proof. split; reflexivity. Qed.

Section hedging.
Import Detection.

Variable toGrayscale : Conversion.ColorImage → Otsu.GrayscaleImage.
Variable toBinary : Otsu.GrayscaleImage → double → Viterbi.BinaryImage.
Variable gridIsDetectable : Viterbi.BinaryImage → result bool.
Variable denoise : Viterbi.BinaryImage → Viterbi.BinaryImage.

Hypothesis detection_returns :
  ∀ binary, ∃ detectable, gridIsDetectable binary = Ok detectable.

Lemma hedge_chain (grayscaleImage : Otsu.GrayscaleImage) (otsuThreshold : Z)
    (rest : list double) (hedging : double) (fuel : nat) :
  let binaryAt := λ factor : double,
    toBinary grayscaleImage (PrimFloat.mul (of_int otsuThreshold) factor) in
  hedgingChain hedging rest → (length rest < fuel)%nat →
  ∃ (i : nat) applied,
    (hedging :: rest) !! i = Some applied ∧
    hedge toBinary gridIsDetectable fuel grayscaleImage otsuThreshold hedging
          (binaryAt hedging)
    = Ok (binaryAt applied) ∧
    (∀ (j : nat) earlier, (j < i)%nat → (hedging :: rest) !! j = Some earlier →
       gridIsDetectable (binaryAt earlier) = Ok true) ∧
    (gridIsDetectable (binaryAt applied) = Ok false ∨ i = length rest).
Proof.
  intros binaryAt. revert hedging fuel.
  induction rest as [|next rest IH]; intros hedging fuel Hchain Hfuel.
  all: destruct fuel as [|fuel]; [simpl in Hfuel; lia|].
  all: cbn [hedge].
  all: destruct (detection_returns (binaryAt hedging)) as ([|] & Hdetect).
  all: rewrite Hdetect, bind_Ok.
  - simpl in Hchain. cbv zeta. rewrite Hchain.
    exists 0%nat, hedging. split; [done|]. split; [done|]. split; [|by right].
    intros j earlier Hj. lia.
  - exists 0%nat, hedging. split; [done|]. split; [done|]. split; [|by left].
    intros j earlier Hj. lia.
  - destruct Hchain as (Hnext & Habove & Hchain). cbv zeta.
    rewrite <- Hnext, Habove.
    destruct (IH next fuel Hchain) as (i & applied & Hi & Hrun & Hearlier & Hlast).
    { simpl in Hfuel. lia. }
    exists (S i), applied. split; [done|]. split; [done|]. split.
    + intros [|j] earlier Hj Hlook.
      * by injection Hlook as <-.
      * apply (Hearlier j); [lia|done].
    + destruct Hlast as [Hlast| ->]; [by left|by right].
  - exists 0%nat, hedging. split; [done|]. split; [done|]. split; [|by left].
    intros j earlier Hj. lia.
Qed.

Lemma hedges_chain : hedgingChain maxHedge (tail hedges).
Proof. repeat split; by vm_compute. Qed.

(** X27: [adaptive] ends after at most eight thresholdings.  The
    mask it returns is the image thresholded at the Otsu threshold
    times one of the eight factors 1.0, 0.95, ... that the doubles
    give, the first one whose mask shows no grid, or the eighth when
    all of them do; every factor is above 0.6, so the factor 0.6
    itself, which eight exact steps of 0.05 would reach, is never
    applied.  An exception of [otsuThreshold] is passed on. *)
Theorem adaptive_hedging (image : Conversion.ColorImage) (fuel : nat) :
  (8 ≤ fuel)%nat →
  length hedges = 8%nat ∧
  Forall (λ hedging, PrimFloat.ltb minHedge hedging = true) hedges ∧
  match Otsu.otsuThreshold (toGrayscale image) with
  | Ok threshold =>
      ∃ (i : nat) applied,
        hedges !! i = Some applied ∧
        adaptive toGrayscale toBinary gridIsDetectable denoise fuel image false
        = Ok (toBinary (toGrayscale image)
                       (PrimFloat.mul (of_int threshold) applied)) ∧
        (∀ (j : nat) earlier, (j < i)%nat → hedges !! j = Some earlier →
           gridIsDetectable
             (toBinary (toGrayscale image)
                       (PrimFloat.mul (of_int threshold) earlier)) = Ok true) ∧
        (gridIsDetectable
           (toBinary (toGrayscale image)
                     (PrimFloat.mul (of_int threshold) applied)) = Ok false ∨
         i = 7%nat)
  | Raise e =>
      adaptive toGrayscale toBinary gridIsDetectable denoise fuel image false
      = Raise e
  | OutOfFuel => False
  end.
Proof.
  intros Hfuel. split; [done|]. split.
  { repeat constructor. }
  pose proof (otsuThreshold_terminates (toGrayscale image)) as Hends.
  unfold adaptive. cbv zeta.
  destruct (Otsu.otsuThreshold (toGrayscale image)) as [threshold|e|];
    [|done|done].
  rewrite bind_Ok.
  destruct (hedge_chain (toGrayscale image) threshold (tail hedges) maxHedge
              fuel hedges_chain)
    as (i & applied & Hi & Hrun & Hearlier & Hlast).
  { change (length (tail hedges)) with 7%nat. lia. }
  rewrite Hrun, bind_Ok. by exists i, applied.
Qed.
End hedging.

Lemma adaptive_hedging_witness :
  (8 ≤ 8)%nat ∧
  length Detection.hedges = 8%nat ∧
  Forall (λ hedging, PrimFloat.ltb Detection.minHedge hedging = true)
         Detection.hedges ∧
  match Otsu.otsuThreshold [[0; 255]] with
  | Ok threshold =>
      ∃ (i : nat) applied,
        Detection.hedges !! i = Some applied ∧
        Detection.adaptive (λ _, [[0; 255]]) (λ _ _, [[1; 0]; [1; 0]])
          (Grid.gridIsDetectable (λ _ _ : list Z, tt) (λ _, Some 1)
             (λ _ _, Ok (NpFloat.of_Z 2)))
          (λ binary, binary) 8 [] false
        = Ok [[1; 0]; [1; 0]] ∧
        (∀ (j : nat) earlier, (j < i)%nat →
           Detection.hedges !! j = Some earlier →
           Grid.gridIsDetectable (λ _ _ : list Z, tt) (λ _, Some 1)
             (λ _ _, Ok (NpFloat.of_Z 2)) [[1; 0]; [1; 0]] = Ok true) ∧
        (Grid.gridIsDetectable (λ _ _ : list Z, tt) (λ _, Some 1)
           (λ _ _, Ok (NpFloat.of_Z 2)) [[1; 0]; [1; 0]] = Ok false ∨
         i = 7%nat)
  | Raise e =>
      Detection.adaptive (λ _, [[0; 255]]) (λ _ _, [[1; 0]; [1; 0]])
        (Grid.gridIsDetectable (λ _ _ : list Z, tt) (λ _, Some 1)
           (λ _ _, Ok (NpFloat.of_Z 2)))
        (λ binary, binary) 8 [] false
      = Raise e
  | OutOfFuel => False
  end.
Proof.
  split; [lia|].
  exact (adaptive_hedging (λ _, [[0; 255]]) (λ _ _, [[1; 0]; [1; 0]])
           (Grid.gridIsDetectable (λ _ _ : list Z, tt) (λ _, Some 1)
              (λ _ _, Ok (NpFloat.of_Z 2)))
           (λ binary, binary)
           (gridIsDetectable_defined (λ _ _ : list Z, tt) (λ _, Some 1)
              (λ _ _, Ok (NpFloat.of_Z 2)))
           [] 8 (le_n 8)).
Defined.

(** ** The naive extraction *)

Section naive.
Import CommonSequences Naive.

Lemma firstPositive_spec (iterator : list (Z * Z)) :
  match firstPositive iterator with
  | None => Forall (λ entry, entry.2 ≤ 0) iterator
  | Some index =>
      ∃ (k : nat) pixel,
        iterator !! k = Some (index, pixel) ∧ 0 < pixel ∧
        ∀ (j : nat) entry, (j < k)%nat → iterator !! j = Some entry → entry.2 ≤ 0
  end.
Proof.
  induction iterator as [|[index pixel] rest IH]; simpl; [constructor|].
  destruct (Z.ltb_spec 0 pixel) as [Hpixel|Hpixel].
  - exists 0%nat, pixel. split; [done|]. split; [done|]. intros j entry Hj. lia.
  - destruct (firstPositive rest) as [found|].
    + destruct IH as (k & pixel' & Hk & Hpositive & Hbefore).
      exists (S k), pixel'. split; [done|]. split; [done|].
      intros [|j] entry Hj Hentry.
      * injection Hentry as <-. done.
      * apply (Hbefore j); [lia|done].
    + by constructor.
Qed.

Lemma enumerate_lookup {A : Type} (l : list A) (k : nat) (index : Z) (a : A) :
  Viterbi.enumerate l !! k = Some (index, a) ↔
  index = Z.of_nat k ∧ l !! k = Some a.
Proof.
  unfold Viterbi.enumerate. rewrite list_lookup_imap.
  destruct (l !! k) as [b|]; simpl; split.
  - intros H. injection H as <- <-. done.
  - intros [-> H]. injection H as <-. done.
  - done.
  - by intros [_ ?].
Qed.

Lemma reversedRange_next (n : nat) :
  reversedRange (Z.of_nat (S n)) = Z.of_nat n :: reversedRange (Z.of_nat n).
Proof.
  unfold reversedRange, py_range_down.
  replace (Z.of_nat (S n) - 1 - -1) with (Z.succ (Z.of_nat n)) by lia.
  replace (Z.of_nat n - 1 - -1) with (Z.of_nat n) by lia.
  rewrite seqZ_cons by lia. cbn [map]. f_equal; [lia|].
  replace (Z.pred (Z.succ (Z.of_nat n))) with (Z.of_nat n) by lia.
  change (Z.succ 0) with (1 + 0). rewrite <- (fmap_add_seqZ 1 0).
  change (map ?f ?l) with (f <$> l).
  rewrite <- list_fmap_compose. apply list_fmap_ext.
  intros i x Hx. simpl. lia.
Qed.

Lemma reversedRange_inside (n : nat) (index : Z) :
  index ∈ reversedRange (Z.of_nat n) → 0 ≤ index < Z.of_nat n.
Proof.
  unfold reversedRange, py_range_down. intros Hin.
  change (map ?f ?l) with (f <$> l) in Hin.
  apply list_elem_of_fmap in Hin as (i & -> & Hi).
  apply elem_of_seqZ in Hi. lia.
Qed.

Lemma mapM_ext {A B : Type} (f g : A → result B) (xs : list A) :
  (∀ x, x ∈ xs → f x = g x) → mapM f xs = mapM g xs.
Proof.
  induction xs as [|x xs IH]; intros Hfg; simpl; [done|].
  rewrite (Hfg x) by left. rewrite IH; [done|].
  intros z Hz. apply Hfg. by right.
Qed.

Lemma reverseEnumerate_reverse (array : list Z) :
  reverseEnumerate array = Ok (reverse (Viterbi.enumerate array)).
Proof.
  induction array as [|pixel array IH] using rev_ind; [done|].
  unfold reverseEnumerate in *.
  rewrite length_app, Nat.add_comm. cbn [length Nat.add].
  rewrite reversedRange_next. cbn [mapM].
  destruct (py_getitem_inside (array ++ [pixel]) (Z.of_nat (length array)))
    as (a & -> & Ha).
  { rewrite length_app. simpl. lia. }
  rewrite Nat2Z.id, lookup_app_r, Nat.sub_diag in Ha by lia.
  injection Ha as <-. rewrite bind_Ok, bind_Ok.
  rewrite (mapM_ext _ (λ index, pixel ← py_getitem array index; Ok (index, pixel))).
  - rewrite IH, bind_Ok, enumerate_snoc, reverse_app. done.
  - intros index Hindex. apply reversedRange_inside in Hindex.
    by rewrite py_getitem_app_l.
Qed.

Lemma findFirstLastNonZeroPixels_value (oneDimImage : list Z) :
  findFirstLastNonZeroPixels oneDimImage
  = Ok (firstPositive (Viterbi.enumerate oneDimImage),
        firstPositive (reverse (Viterbi.enumerate oneDimImage))).
Proof.
  unfold findFirstLastNonZeroPixels, findFirstNonZero.
  by rewrite !bind_Ok, reverseEnumerate_reverse, !bind_Ok.
Qed.

Lemma findFirstLastNonZeroPixels_spec (oneDimImage : list Z) :
  ∃ top bottom,
    findFirstLastNonZeroPixels oneDimImage = Ok (top, bottom) ∧
    match top, bottom with
    | None, None => Forall (λ pixel, pixel ≤ 0) oneDimImage
    | Some top, Some bottom =>
        0 ≤ top ≤ bottom ∧
        (∃ pixel, oneDimImage !! Z.to_nat top = Some pixel ∧ 0 < pixel) ∧
        (∃ pixel, oneDimImage !! Z.to_nat bottom = Some pixel ∧ 0 < pixel) ∧
        ∀ (i : nat) pixel, oneDimImage !! i = Some pixel →
          Z.of_nat i < top ∨ bottom < Z.of_nat i → pixel ≤ 0
    | _, _ => False
    end.
Proof.
  eexists _, _. split; [apply findFirstLastNonZeroPixels_value|].
  pose proof (firstPositive_spec (Viterbi.enumerate oneDimImage)) as Htop.
  pose proof (firstPositive_spec (reverse (Viterbi.enumerate oneDimImage)))
    as Hbottom.
  assert (Hlen : length (Viterbi.enumerate oneDimImage) = length oneDimImage).
  { unfold Viterbi.enumerate. by rewrite length_imap. }
  assert (Hblank : Forall (λ entry : Z * Z, entry.2 ≤ 0)
                     (Viterbi.enumerate oneDimImage) →
                   Forall (λ pixel, pixel ≤ 0) oneDimImage).
  { intros Hall. apply Forall_lookup_2. intros i pixel Hi.
    apply (Forall_lookup_1 _ _ i (Z.of_nat i, pixel)) in Hall; [done|].
    by apply enumerate_lookup. }
  assert (Hback : ∀ (k : nat) index pixel,
             reverse (Viterbi.enumerate oneDimImage) !! k = Some (index, pixel) →
             (k < length oneDimImage)%nat ∧
             index = Z.of_nat (length oneDimImage - S k) ∧
             oneDimImage !! (length oneDimImage - S k)%nat = Some pixel).
  { intros k index pixel Hk.
    assert (k < length oneDimImage)%nat as Hrange.
    { apply lookup_lt_Some in Hk. by rewrite length_reverse, Hlen in Hk. }
    rewrite reverse_lookup, Hlen in Hk by lia.
    apply enumerate_lookup in Hk. by split. }
  destruct (firstPositive (Viterbi.enumerate oneDimImage)) as [top|].
  - destruct Htop as (k & pixel & Hk & Hpixel & Hbefore).
    apply enumerate_lookup in Hk as [-> Hk].
    destruct (firstPositive (reverse _)) as [bottom|].
    + destruct Hbottom as (k' & pixel' & Hk' & Hpixel' & Hafter).
      apply Hback in Hk' as (Hrange & -> & Hk').
      assert (Hbelow : ∀ (i : nat) q, oneDimImage !! i = Some q →
                (length oneDimImage - S k' < i)%nat → q ≤ 0).
      { intros i q Hi Hlate.
        pose proof (lookup_lt_Some _ _ _ Hi) as Hin.
        apply (Hafter (length oneDimImage - S i)%nat (Z.of_nat i, q)); [lia|].
        rewrite reverse_lookup, Hlen by lia.
        replace (length oneDimImage - S (length oneDimImage - S i))%nat
          with i by lia.
        by apply enumerate_lookup. }
      assert (Habove : ∀ (i : nat) q, oneDimImage !! i = Some q →
                (i < k)%nat → q ≤ 0).
      { intros i q Hi Hearly.
        apply (Hbefore i (Z.of_nat i, q)); [done|]. by apply enumerate_lookup. }
      split; [|split; [|split]].
      * split; [lia|].
        destruct (decide (length oneDimImage - S k' < k)%nat) as [Hlate|]; [|lia].
        pose proof (Hbelow k pixel Hk Hlate). lia.
      * exists pixel. by rewrite Nat2Z.id.
      * exists pixel'. by rewrite Nat2Z.id.
      * intros i q Hi [Hearly|Hlate].
        -- apply (Habove i q Hi). lia.
        -- apply (Hbelow i q Hi). lia.
    + pose proof (lookup_lt_Some _ _ _ Hk) as Hin.
      apply (Forall_lookup_1 _ _ (length oneDimImage - S k)%nat
               (Z.of_nat k, pixel)) in Hbottom; [simpl in Hbottom; lia|].
      rewrite reverse_lookup, Hlen by lia.
      replace (length oneDimImage - S (length oneDimImage - S k))%nat
        with k by lia.
      by apply enumerate_lookup.
  - destruct (firstPositive (reverse _)) as [bottom|]; [|by apply Hblank].
    destruct Hbottom as (k' & pixel' & Hk' & Hpixel' & _).
    apply Hback in Hk' as (_ & _ & Hk').
    apply Hblank in Htop.
    apply (Forall_lookup_1 _ _ _ _ Htop) in Hk'. lia.
Qed.

(** X28: [findFirstLastNonZeroPixels] raises nothing and returns
    either two [None]s, when no pixel of the column is positive, or two
    indices [top <= bottom] of positive pixels with no positive pixel
    above [top] or below [bottom]; one index together with a [None] is
    never returned. *)
Theorem findFirstLastNonZeroPixels_outcome (oneDimImage : list Z) :
  ∃ top bottom,
    findFirstLastNonZeroPixels oneDimImage = Ok (top, bottom) ∧
    match top, bottom with
    | None, None => Forall (λ pixel, pixel ≤ 0) oneDimImage
    | Some top, Some bottom =>
        0 ≤ top ≤ bottom ∧
        (∃ pixel, oneDimImage !! Z.to_nat top = Some pixel ∧ 0 < pixel) ∧
        (∃ pixel, oneDimImage !! Z.to_nat bottom = Some pixel ∧ 0 < pixel) ∧
        ∀ (i : nat) pixel, oneDimImage !! i = Some pixel →
          Z.of_nat i < top ∨ bottom < Z.of_nat i → pixel ≤ 0
    | _, _ => False
    end.
Proof. apply findFirstLastNonZeroPixels_spec. Qed.

Lemma extract_samples (image : Viterbi.BinaryImage) :
  ∃ output,
    extract image = Ok output ∧
    length output = length (Viterbi.swapaxes image) ∧
    ∀ (i : nat) column, Viterbi.swapaxes image !! i = Some column →
      ∃ sample,
        output !! i = Some sample ∧
        match findFirstLastNonZeroPixels column with
        | Ok (Some top, Some bottom) =>
            sample = NpFloat.div (NpFloat.of_Z (top + bottom)) (NpFloat.of_Z 2)
        | Ok (None, None) => sample = NpFloat.of_Z 0
        | _ => False
        end.
Proof.
  unfold extract. cbv zeta.
  set (columns := Viterbi.swapaxes image).
  set (n := length columns).
  destruct (foldM_prefix_invariant
    (λ output (entry : Z * list Z),
       let '(index, column) := entry in
       found ← findFirstLastNonZeroPixels column;
       match found with
       | (Some top, Some bottom) =>
           py_setitem output index
             (NpFloat.div (NpFloat.of_Z (top + bottom)) (NpFloat.of_Z 2))
       | _ => Ok output
       end)
    (λ done output,
       length output = n ∧
       (∀ (i : nat) column, (i < length done)%nat → columns !! i = Some column →
          ∃ sample,
            output !! i = Some sample ∧
            match findFirstLastNonZeroPixels column with
            | Ok (Some top, Some bottom) =>
                sample = NpFloat.div (NpFloat.of_Z (top + bottom)) (NpFloat.of_Z 2)
            | Ok (None, None) => sample = NpFloat.of_Z 0
            | _ => False
            end) ∧
       (∀ i : nat, (length done ≤ i < n)%nat →
          output !! i = Some (NpFloat.of_Z 0)))
    (Viterbi.enumerate columns) (replicate n (NpFloat.of_Z 0)))
    as (output & Hrun & Hlen & Hfilled & _).
  - split; [apply length_replicate|]. split.
    + intros i column Hi. simpl in Hi. lia.
    + intros i Hi. apply lookup_replicate_2. lia.
  - intros done [index column] rest output Hsplit (Hlen & Hfilled & Hblank).
    assert (Hentry : Viterbi.enumerate columns !! length done
                     = Some (index, column)).
    { rewrite Hsplit. by rewrite lookup_app_r, Nat.sub_diag by lia. }
    apply enumerate_lookup in Hentry as [-> Hcolumn].
    pose proof (lookup_lt_Some _ _ _ Hcolumn) as Hrange. fold n in Hrange.
    destruct (findFirstLastNonZeroPixels_spec column)
      as (top & bottom & Hfound & Hspec).
    rewrite Hfound, bind_Ok.
    assert (Hkeep : ∀ output',
              length output' = n →
              (∀ i : nat, i ≠ length done → output' !! i = output !! i) →
              (∃ sample,
                 output' !! length done = Some sample ∧
                 match findFirstLastNonZeroPixels column with
                 | Ok (Some top, Some bottom) =>
                     sample = NpFloat.div (NpFloat.of_Z (top + bottom))
                                          (NpFloat.of_Z 2)
                 | Ok (None, None) => sample = NpFloat.of_Z 0
                 | _ => False
                 end) →
              length output' = n ∧
              (∀ (i : nat) other,
                 (i < length (done ++ [(Z.of_nat (length done), column)]))%nat →
                 columns !! i = Some other →
                 ∃ sample,
                   output' !! i = Some sample ∧
                   match findFirstLastNonZeroPixels other with
                   | Ok (Some top, Some bottom) =>
                       sample = NpFloat.div (NpFloat.of_Z (top + bottom))
                                            (NpFloat.of_Z 2)
                   | Ok (None, None) => sample = NpFloat.of_Z 0
                   | _ => False
                   end) ∧
              (∀ i : nat,
                 (length (done ++ [(Z.of_nat (length done), column)]) ≤ i < n)%nat →
                 output' !! i = Some (NpFloat.of_Z 0))).
    { intros output' Hlen' Hsame Hnew. split; [done|]. split.
      - intros i column' Hi Hcolumn'. rewrite length_app in Hi. simpl in Hi.
        destruct (decide (i = length done)) as [->|Hne].
        + rewrite Hcolumn in Hcolumn'. by injection Hcolumn' as <-.
        + rewrite Hsame by done. apply Hfilled; [lia|done].
      - intros i Hi. rewrite length_app in Hi. simpl in Hi.
        rewrite Hsame by lia. apply Hblank. lia. }
    destruct top as [top|], bottom as [bottom|]; try done.
    + rewrite py_setitem_inside by lia. eexists. split; [done|].
      rewrite Nat2Z.id. apply Hkeep.
      * by rewrite length_insert.
      * intros i Hi. by rewrite list_lookup_insert_ne.
      * eexists. split; [apply list_lookup_insert_eq; lia|].
        by rewrite Hfound.
    + eexists. split; [done|]. apply Hkeep; [done|done|].
      exists (NpFloat.of_Z 0). split; [apply Hblank; lia|]. by rewrite Hfound.
  - exists output. split; [done|]. split; [done|].
    intros i column Hcolumn. apply Hfilled; [|done].
    apply lookup_lt_Some in Hcolumn.
    unfold Viterbi.enumerate. by rewrite length_imap.
Qed.

(** X29: the naive [extract] raises nothing and returns one sample
    for each column of the image: the mean of the rows of the first and
    the last positive pixel of the column, and zero for a column with no
    positive pixel, which is also the sample of a column whose only
    positive pixel is in row 0. *)
Theorem extract_outcome (image : Viterbi.BinaryImage) :
  ∃ output,
    extract image = Ok output ∧
    length output = length (Viterbi.swapaxes image) ∧
    (∀ (i : nat) column, Viterbi.swapaxes image !! i = Some column →
       ∃ sample,
         output !! i = Some sample ∧
         match findFirstLastNonZeroPixels column with
         | Ok (Some top, Some bottom) =>
             sample = NpFloat.div (NpFloat.of_Z (top + bottom)) (NpFloat.of_Z 2)
         | Ok (None, None) => sample = NpFloat.of_Z 0
         | _ => False
         end) ∧
    extract [[1; 0]; [0; 0]] = Ok [NpFloat.of_Z 0; NpFloat.of_Z 0].
Proof.
  destruct (extract_samples image) as (output & Hrun & Hlen & Hsamples).
  exists output. split; [done|]. split; [done|]. split; [done|].
  cbv. apply f_equal, (f_equal2 cons); [|done].
  apply f_equal. by apply Qc_is_canon.
Qed.
End naive.

(** ** The spacing of the grid lines *)

Section gridlines.
Import CommonSequences Grid.

Lemma insertSorted_head (a : Qc * Qc) (l : list (Qc * Qc)) (first : Qc * Qc) :
  insertSorted a l !! 0%nat = Some first →
  first = a ∨ (l !! 0%nat = Some first ∧ pairLe first a).
Proof.
  destruct l as [|b rest]; simpl.
  - intros H. injection H as <-. by left.
  - destruct (decide (pairLe b a)) as [Hle|]; simpl; intros H; injection H as <-.
    + by right.
    + by left.
Qed.

Lemma pairLe_first (a b : Qc * Qc) : pairLe a b → (a.1 ≤ b.1)%Qc.
Proof.
  intros [Hlt|[-> _]]; [by apply Qclt_le_weak|apply Qcle_refl].
Qed.

Lemma pairLe_total (a b : Qc * Qc) : ¬ pairLe b a → (a.1 ≤ b.1)%Qc.
Proof.
  intros Hnot. destruct (Qclt_le_dec b.1 a.1) as [Hlt|Hle]; [|done].
  destruct Hnot. by left.
Qed.

Lemma nondecreasing_tail (a : Qc * Qc) (l : list (Qc * Qc)) :
  nondecreasing (a :: l) → nondecreasing l.
Proof. intros Hl i x y Hx Hy. by apply (Hl (S i)). Qed.

Lemma nondecreasing_cons (a : Qc * Qc) (l : list (Qc * Qc)) :
  (∀ first, l !! 0%nat = Some first → (a.1 ≤ first.1)%Qc) →
  nondecreasing l → nondecreasing (a :: l).
Proof.
  intros Hfirst Hl [|i] x y Hx Hy; simpl in Hx, Hy.
  - injection Hx as <-. by apply Hfirst.
  - by apply (Hl i).
Qed.

Lemma insertSorted_nondecreasing (a : Qc * Qc) (l : list (Qc * Qc)) :
  nondecreasing l → nondecreasing (insertSorted a l).
Proof.
  induction l as [|b rest IH]; intros Hl; simpl.
  - intros [|i] x y Hx Hy; simpl in Hy; by rewrite ?lookup_nil in Hy.
  - destruct (decide (pairLe b a)) as [Hle|Hnot].
    + apply nondecreasing_cons; [|by apply IH, (nondecreasing_tail b)].
      intros first Hfirst.
      apply insertSorted_head in Hfirst as [->|[Hfirst _]].
      * by apply pairLe_first.
      * by apply (Hl 0%nat).
    + apply nondecreasing_cons; [|done].
      intros first Hfirst. injection Hfirst as <-. by apply pairLe_total.
Qed.

Lemma sorted_nondecreasing (l : list (Qc * Qc)) : nondecreasing (sorted l).
Proof.
  induction l as [|a l IH]; simpl.
  - intros i x y Hx. by rewrite lookup_nil in Hx.
  - by apply insertSorted_nondecreasing.
Qed.

Lemma insertSorted_length (a : Qc * Qc) (l : list (Qc * Qc)) :
  length (insertSorted a l) = S (length l).
Proof.
  induction l as [|b rest IH]; simpl; [done|].
  destruct (decide (pairLe b a)); simpl; [by rewrite IH|done].
Qed.

Lemma sorted_length (l : list (Qc * Qc)) : length (sorted l) = length l.
Proof.
  induction l as [|a l IH]; simpl; [done|].
  by rewrite insertSorted_length, IH.
Qed.

Lemma calculateDistancesBetweenValues_next (a b : Qc * Qc)
    (rest : list (Qc * Qc)) :
  calculateDistancesBetweenValues (a :: b :: rest)
  = (b.1 - a.1)%Qc :: calculateDistancesBetweenValues (b :: rest).
Proof.
  unfold calculateDistancesBetweenValues.
  change (-1) with (- Z.of_nat 1).
  change 1 with (Z.of_nat 1).
  rewrite (py_slice_to_end (a :: b :: rest) 1) by (simpl; lia).
  rewrite (py_slice_to_end (b :: rest) 1) by (simpl; lia).
  rewrite (py_slice_from_drop (a :: b :: rest) 1).
  rewrite (py_slice_from_drop (b :: rest) 1).
  cbn [length drop]. rewrite !Nat.sub_succ, !Nat.sub_0_r.
  destruct rest as [|c rest]; [done|].
  cbn [length take zip zip_with map fst snd]. done.
Qed.

Lemma calculateDistancesBetweenValues_short (l : list (Qc * Qc)) :
  (length l ≤ 1)%nat → calculateDistancesBetweenValues l = [].
Proof.
  destruct l as [|a [|b rest]]; simpl; [done|done|lia].
Qed.

Lemma distances_nonnegative (l : list (Qc * Qc)) (d : Qc) :
  nondecreasing l → d ∈ calculateDistancesBetweenValues l → (0 ≤ d)%Qc.
Proof.
  induction l as [|a [|b rest] IH]; intros Hl Hd.
  - by apply elem_of_nil in Hd.
  - by apply elem_of_nil in Hd.
  - rewrite calculateDistancesBetweenValues_next in Hd.
    apply elem_of_cons in Hd as [->|Hd].
    + pose proof (Hl 0%nat a b eq_refl eq_refl) as Hle.
      apply (Qcplus_le_mono_r _ _ (- a.1)%Qc) in Hle.
      by rewrite Qcplus_opp_r in Hle.
    + apply IH; [by apply (nondecreasing_tail a)|done].
Qed.

Lemma distances_length (l : list (Qc * Qc)) :
  length (calculateDistancesBetweenValues l) = (length l - 1)%nat.
Proof.
  induction l as [|a [|b rest] IH]; [done|done|].
  rewrite calculateDistancesBetweenValues_next. cbn [length] in *.
  rewrite IH. lia.
Qed.

Variable houghLines : Viterbi.BinaryImage → Z → list (Qc * Qc).
Variable isClose : Qc → Z → bool.

Lemma getDistancesBetween_outcome (lines : list (Qc * Qc)) (inDirection : Z) :
  length (getDistancesBetween isClose lines inDirection)
  = (length (getLinesInDirection isClose lines inDirection) - 1)%nat ∧
  ∀ d, d ∈ getDistancesBetween isClose lines inDirection → (0 ≤ d)%Qc.
Proof.
  unfold getDistancesBetween. cbv zeta. split.
  - by rewrite distances_length, sorted_length.
  - intros d. apply distances_nonnegative, sorted_nondecreasing.
Qed.

Lemma spacingOf_outcome (distances : list Qc) :
  ∃ spacing,
    spacingOf distances = Ok spacing ∧
    match spacing with
    | None => distances = []
    | Some value => ∃ d, value = NpFloat.Fin d ∧ d ∈ distances
    end.
Proof.
  unfold spacingOf. destruct distances as [|d distances]; [by exists None|].
  cbn [length Nat.ltb Nat.leb].
  destruct (mode_value (map NpFloat.Fin (d :: distances)))
    as (value & -> & Hvalue & _); [done|].
  rewrite bind_Ok. exists (Some value). split; [done|].
  change (map ?f ?l) with (f <$> l) in Hvalue.
  apply list_elem_of_fmap in Hvalue as (d' & -> & Hd'). by exists d'.
Qed.

(** X30: [traceGridlines] raises nothing: the mode is taken only of a
    list that is not empty.  It returns [None] exactly when the Hough
    transform gives at most one line in each of the two directions, and
    otherwise a distance between two neighbouring lines of one
    direction, which is never negative. *)
Theorem traceGridlines_outcome (binaryImage : Viterbi.BinaryImage)
    (houghThreshold : Z) :
  let lines := houghLines binaryImage houghThreshold in
  ∃ spacing,
    traceGridlines houghLines isClose binaryImage houghThreshold = Ok spacing ∧
    match spacing with
    | None =>
        (length (getLinesInDirection isClose lines 90) ≤ 1)%nat ∧
        (length (getLinesInDirection isClose lines 0) ≤ 1)%nat
    | Some value =>
        (1 < length (getLinesInDirection isClose lines 90) ∨
         1 < length (getLinesInDirection isClose lines 0))%nat ∧
        ∃ d, value = NpFloat.Fin d ∧ (0 ≤ d)%Qc ∧
             (d ∈ getDistancesBetween isClose lines 90 ∨
              d ∈ getDistancesBetween isClose lines 0)
    end.
Proof.
  intros lines. unfold traceGridlines. cbv zeta. fold lines.
  destruct (getDistancesBetween_outcome lines 90) as [Hvlen Hvpos].
  destruct (getDistancesBetween_outcome lines 0) as [Hhlen Hhpos].
  destruct (spacingOf_outcome (getDistancesBetween isClose lines 90))
    as (vertical & -> & Hvertical).
  destruct (spacingOf_outcome (getDistancesBetween isClose lines 0))
    as (horizontal & -> & Hhorizontal).
  rewrite !bind_Ok.
  assert (Hsome : ∀ direction d,
            d ∈ getDistancesBetween isClose lines direction →
            length (getDistancesBetween isClose lines direction)
            = (length (getLinesInDirection isClose lines direction) - 1)%nat →
            (1 < length (getLinesInDirection isClose lines direction))%nat).
  { intros direction d Hd Hlen.
    destruct (getDistancesBetween isClose lines direction); [|simpl in Hlen; lia].
    by apply elem_of_nil in Hd. }
  destruct vertical as [vertical|], horizontal as [horizontal|].
  - destruct Hvertical as (dv & -> & Hdv), Hhorizontal as (dh & -> & Hdh).
    eexists. split; [done|]. split; [left; by apply (Hsome 90 dv)|].
    destruct (NpFloat.ltb _ _).
    + exists dh. split; [done|]. split; [by apply Hhpos|by right].
    + exists dv. split; [done|]. split; [by apply Hvpos|by left].
  - destruct Hvertical as (dv & -> & Hdv).
    eexists. split; [done|]. split; [left; by apply (Hsome 90 dv)|].
    exists dv. split; [done|]. split; [by apply Hvpos|by left].
  - destruct Hhorizontal as (dh & -> & Hdh).
    eexists. split; [done|]. split; [right; by apply (Hsome 0 dh)|].
    exists dh. split; [done|]. split; [by apply Hhpos|by right].
  - eexists. split; [done|]. rewrite Hvertical in Hvlen. rewrite Hhorizontal in Hhlen.
    simpl in Hvlen, Hhlen. simpl. split; lia.
Qed.
End gridlines.
